(** * neudawn.com audio player: a shallow embedding of [player.js]

    The page is a playlist player built on two external libraries:
    Howler.js (one [Howl] playback handle per track) and SiriWave (the
    wave animation).  This development embeds the [Player] class, the
    event bindings at the end of the file and the little arithmetic that
    the display needs, and proves the properties the specification
    states about them.

    Conventions of the embedding.
    - A JavaScript number is a double.  A finite double is the rational
      it stands for, and every operation of the script ([+], [-], [*],
      [/]) is the exact operation followed by [rnd], the rounding to the
      nearest number with 53 significant bits, ties to even, with the
      gradual underflow of the format.  A decimal literal of the source
      is the double nearest to it.  Where the script can meet NaN or an
      infinity ([formatTime], [step]) the number type has them and a
      result of magnitude 2^1024 or more is an infinity.  Elsewhere
      ([volume], [seek], [move], [resize]) the operands are levels,
      fractions, seconds and screen coordinates, the results stay far
      below 2^1024 and the type is that of the finite doubles.  The sign
      of zero is not modelled.
    - The text of a number is modelled for NaN, the infinities and the
      integers of magnitude below 2^53, whose text is their decimal
      expansion; a string built from numbers keeps the numbers.
    - A method is a computation in a state-and-exception monad over the
      [World]: the player object, the DOM properties the script writes,
      the global Howler volume, the viewport and the pending callbacks.
    - Every call the script makes on a playback handle is appended to a
      log, so that the order of the calls can be stated. *)

From Stdlib Require Import ZArith QArith Qround Qminmax Qabs Qpower Qreduction.
From Stdlib Require Import String Ascii DecimalString Lia Lqa.
From stdpp Require Import gmap strings list.

Open Scope Z_scope.

(** ** Doubles *)

Definition Qzero (q : Q) : bool := Qeq_bool q 0.
Definition Qneg (q : Q) : bool := negb (Qle_bool 0 q).

(** 2^e *)
Definition pow2 (e : Z) : Q := (2 ^ e)%Q.

(** The binary logarithm of a positive rational, rounded down. *)
Definition Qlog2 (q : Q) : Z :=
  let t := Z.log2 (Qnum q) - Z.log2 (Z.pos (Qden q)) in
  if Qle_bool (pow2 t) q then t else t - 1.

(** The nearest integer, the even one of two that are equally near. *)
Definition round_even (q : Q) : Z :=
  let f := Qfloor q in
  match (q - inject_Z f ?= 1 # 2)%Q with
  | Lt => f
  | Gt => f + 1
  | Eq => if Z.even f then f else f + 1
  end.

(** The exponent of the last of the 53 bits of a double near [q]: the
    doubles near [q] are the multiples of 2^(quantum q).  Below 2^-1022
    the exponent stays at -1074. *)
Definition quantum (q : Q) : Z := Z.max (Qlog2 (Qabs q) - 52) (-1074).

(** The double nearest to [q]. *)
Definition rnd (q : Q) : Q :=
  if Qzero q then 0%Q
  else Qred (inject_Z (round_even (q / pow2 (quantum q))) * pow2 (quantum q)).

(** The operations of the script on finite doubles. *)
Definition fadd (a b : Q) : Q := rnd (a + b).
Definition fsub (a b : Q) : Q := rnd (a - b).
Definition fmul (a b : Q) : Q := rnd (a * b).
Definition fdiv (a b : Q) : Q := rnd (a / b).

(** Half the distance between two neighbouring doubles, relative to
    their size, and half the distance between the two smallest. *)
Definition unit_roundoff : Q := pow2 (-53).
Definition tiniest : Q := pow2 (-1075).

(** ** JavaScript numbers *)

Inductive jsnum :=
| Fin (q : Q)
| NaN
| PInf
| NInf.

(** The double of an exact result: an infinity from 2^1024 on. *)
Definition double (q : Q) : jsnum :=
  let r := rnd q in
  if Qle_bool (pow2 1024) (Qabs r) then (if Qneg r then NInf else PInf) else Fin r.

(** [x / y] *)
Definition num_div (x y : jsnum) : jsnum :=
  match x, y with
  | NaN, _ | _, NaN => NaN
  | Fin p, Fin d =>
      if Qzero d then (if Qzero p then NaN else if Qneg p then NInf else PInf)
      else double (p / d)
  | Fin _, (PInf | NInf) => Fin 0%Q
  | PInf, Fin d => if Qneg d then NInf else PInf
  | NInf, Fin d => if Qneg d then PInf else NInf
  | (PInf | NInf), (PInf | NInf) => NaN
  end.

(** [x * y] *)
Definition num_mul (x y : jsnum) : jsnum :=
  match x, y with
  | NaN, _ | _, NaN => NaN
  | Fin p, Fin q => double (p * q)
  | Fin p, PInf | PInf, Fin p =>
      if Qzero p then NaN else if Qneg p then NInf else PInf
  | Fin p, NInf | NInf, Fin p =>
      if Qzero p then NaN else if Qneg p then PInf else NInf
  | PInf, PInf | NInf, NInf => PInf
  | PInf, NInf | NInf, PInf => NInf
  end.

(** [x - y] *)
Definition num_sub (x y : jsnum) : jsnum :=
  match x, y with
  | NaN, _ | _, NaN => NaN
  | Fin p, Fin q => double (p - q)
  | Fin _, PInf => NInf
  | Fin _, NInf => PInf
  | PInf, Fin _ | PInf, NInf => PInf
  | NInf, Fin _ | NInf, PInf => NInf
  | PInf, PInf | NInf, NInf => NaN
  end.

(** [x < y]; every comparison with NaN is false *)
Definition num_lt (x y : jsnum) : bool :=
  match x, y with
  | NaN, _ | _, NaN => false
  | Fin p, Fin q => negb (Qle_bool q p)
  | Fin _, PInf | NInf, Fin _ | NInf, PInf => true
  | _, _ => false
  end.

Definition Math_floor (x : jsnum) : jsnum :=
  match x with
  | Fin q => Fin (inject_Z (Qfloor q))
  | _ => x
  end.

(** [Math.round] rounds halves up: it is [floor (x + 1/2)], computed
    without a rounding error. *)
Definition Math_round (x : jsnum) : jsnum :=
  match x with
  | Fin q => Fin (inject_Z (Qfloor (q + (1 # 2))%Q))
  | _ => x
  end.

(** Truthiness of a number: zero and NaN are falsy. *)
Definition num_truthy (x : jsnum) : bool :=
  match x with
  | Fin q => negb (Qzero q)
  | NaN => false
  | _ => true
  end.

(** [x || y] *)
Definition num_or (x y : jsnum) : jsnum := if num_truthy x then x else y.

(** ** Strings *)

(** String concatenation, JavaScript's [+] on strings. *)
Notation "a +. b" := (String.append a b) (at level 50, left associativity).

(** Decimal digits of an integer. *)
Definition decimal (z : Z) : string := NilZero.string_of_int (Z.to_int z).

(** The integer a double is, when it is one of magnitude below 2^53. *)
Definition safe_integer (q : Q) : option Z :=
  let r := Qred q in
  if (Z.pos (Qden r) =? 1) && (Z.abs (Qnum r) <? 2 ^ 53) then Some (Qnum r) else None.

(** [Number.prototype.toString]: an integer below 2^53 in magnitude is
    printed as its decimal digits.  The text of the other finite doubles
    (the shortest digits that identify them) is not embedded. *)
Definition Number_toString (x : jsnum) : option string :=
  match x with
  | Fin q => option_map decimal (safe_integer q)
  | NaN => Some "NaN"
  | PInf => Some "Infinity"
  | NInf => Some "-Infinity"
  end.

(** A string built with [+] from strings and numbers, the numbers not
    yet converted. *)
Inductive piece :=
| Str (s : string)
| Num (x : jsnum).

(** The string itself, when the text of each number in it is
    embedded. *)
Fixpoint as_string (ps : list piece) : option string :=
  match ps with
  | [] => Some ""
  | Str s :: ps' => option_map (String.append s) (as_string ps')
  | Num x :: ps' =>
      match Number_toString x, as_string ps' with
      | Some a, Some b => Some (a +. b)
      | _, _ => None
      end
  end.

(** ** [Player.prototype.formatTime] *)
Definition formatTime (secs : jsnum) : list piece :=
  let minutes := num_or (Math_floor (num_div secs (Fin 60))) (Fin 0) in
  let seconds := num_or (num_sub secs (num_mul minutes (Fin 60))) (Fin 0) in
  [Num minutes; Str ":"; Str (if num_lt seconds (Fin 10) then "0" else ""); Num seconds].

(** The format as the specification words it: minutes unpadded, a colon,
    then the remaining seconds padded with a zero to two digits. *)
Definition two_digits (m : Z) : string :=
  if m <? 10 then "0" +. decimal m else decimal m.

Definition minutes_colon_seconds (secs : Z) : string :=
  decimal (secs / 60) +. ":" +. two_digits (secs mod 60).

(** ** JavaScript values that reach arithmetic

    [Howl.seek()] answers with a number or, while the sound is not
    loaded, with the handle itself. *)
Inductive jsval :=
| VNum (x : jsnum)
| VUndefined
| VObject.

(** [ToNumber]: [undefined] and an object without a numeric primitive
    both convert to NaN. *)
Definition to_number (v : jsval) : jsnum :=
  match v with
  | VNum x => x
  | VUndefined | VObject => NaN
  end.

Definition truthy (v : jsval) : bool :=
  match v with
  | VNum x => num_truthy x
  | VUndefined => false
  | VObject => true
  end.

(** [v || d] *)
Definition val_or (v d : jsval) : jsval := if truthy v then v else d.

(** ** The playback handle

    Modelled from the spec: the Playback Handle Provider (Howler.js) is an
    external library that the page loads next to [player.js]; the
    specification treats it as a black box with the operations
    play/pause/stop/seek/volume/duration/playing/state, the load states
    unloaded, loading and loaded, and the rule that [stop] returns to a
    stopped-but-loaded state without destroying the handle.  A handle
    whose [play] was requested stays [Active] (playing, or waiting for
    the load to finish) until it is paused, stopped or ends. *)
Inductive load_state := unloaded | loading | loaded.
Inductive mode := Stopped | Paused | Active.

Record Howl := mkHowl {
  hw_src : list string;   (* the [src] option *)
  hw_html5 : bool;        (* the [html5] option *)
  hw_state : load_state;  (* [state()] *)
  hw_mode : mode;
  hw_pos : Q;             (* playback position in seconds *)
  hw_len : Q;             (* length of the media, known once loaded *)
  hw_volume : Q           (* the handle's own volume, [volume()] *)
}.

Definition is_loaded (h : Howl) : bool :=
  match hw_state h with loaded => true | _ => false end.

Definition is_active (h : Howl) : bool :=
  match hw_mode h with Active => true | _ => false end.

Definition is_stopped (h : Howl) : bool :=
  match hw_mode h with Stopped => true | _ => false end.

(** [new Howl({src, html5, ...})]: loading starts at construction. *)
Definition Howl_new (src : list string) (html5 : bool) : Howl :=
  mkHowl src html5 loading Stopped 0 0 1.

Definition with_mode (m : mode) (h : Howl) : Howl :=
  mkHowl (hw_src h) (hw_html5 h) (hw_state h) m (hw_pos h) (hw_len h) (hw_volume h).

Definition with_pos (p : Q) (h : Howl) : Howl :=
  mkHowl (hw_src h) (hw_html5 h) (hw_state h) (hw_mode h) p (hw_len h) (hw_volume h).

(** [sound.play()] starts or resumes. *)
Definition Howl_play (h : Howl) : Howl := with_mode Active h.

(** [sound.pause()] only affects a sound that is active. *)
Definition Howl_pause (h : Howl) : Howl :=
  if is_active h then with_mode Paused h else h.

(** [sound.stop()] stops and rewinds. *)
Definition Howl_stop (h : Howl) : Howl := with_pos 0 (with_mode Stopped h).

(** [sound.seek(p)] moves a loaded sound to a non-negative position. *)
Definition Howl_seek_to (p : Q) (h : Howl) : Howl :=
  if is_loaded h && Qle_bool 0 p then with_pos p h else h.

(** [sound.seek()] *)
Definition Howl_seek (h : Howl) : jsval :=
  if is_loaded h then VNum (Fin (hw_pos h)) else VObject.

(** [sound.duration()] is 0 until the sound is loaded. *)
Definition Howl_duration (h : Howl) : Q :=
  if is_loaded h then hw_len h else 0.

(** [sound.playing()] *)
Definition Howl_playing (h : Howl) : bool := is_loaded h && is_active h.

(** What the library does on its own: the load completes, the position
    advances while playing, the sound reaches its end. *)
Definition Howl_loaded (len : Q) (h : Howl) : Howl :=
  mkHowl (hw_src h) (hw_html5 h) loaded (hw_mode h) (hw_pos h) len (hw_volume h).

Definition Howl_advance (dt : Q) (h : Howl) : Howl :=
  with_pos (Qmin (hw_pos h + dt)%Q (hw_len h)) h.

Definition Howl_finish (h : Howl) : Howl := with_pos 0 (with_mode Stopped h).

(** ** The data model *)

(** A playlist entry [{title, number, model, designer, artist, note,
    file, howl}]; [howl] is [null] until the track is first played. *)
Record Track := mkTrack {
  title : string;
  number : string;
  model : string;
  designer : string;
  artist : string;
  note : string;
  file : string;
  howl : option Howl
}.

Definition with_howl (h : option Howl) (t : Track) : Track :=
  mkTrack (title t) (number t) (model t) (designer t) (artist t) (note t) (file t) h.

(** A value written to a property of a DOM element (or of the wave
    object).  Lengths keep their number and unit apart. *)
Inductive DomVal :=
| Text (s : string)
| Joined (ps : list piece)
| Percent (x : jsnum)
| Pixels (q : Q)
| Number (q : Q)
| Margin (q : Q).

(** The calls the script makes on the audio library, in order. *)
Inductive Call :=
| NewHowl (i : Z)
| Play (i : Z)
| Pause (i : Z)
| Stop (i : Z)
| Seek (i : Z) (pos : Q)
| Volume (v : Q).

Record World := mkWorld {
  playlist : list Track;            (* [player.playlist] *)
  index : Z;                        (* [player.index] *)
  doc : gmap string DomVal;         (* element properties, by "element.property" *)
  master : Q;                       (* the global Howler volume *)
  innerWidth : Q;                   (* [window.innerWidth] *)
  innerHeight : Q;                  (* [window.innerHeight] *)
  sliderDown : bool;                (* [window.sliderDown] *)
  frames : nat;                     (* [step] callbacks waiting for an animation frame *)
  timers : list (string * string);  (* pending [setTimeout] callbacks: property, value *)
  calls : list Call
}.

Definition with_playlist (p : list Track) (w : World) : World :=
  mkWorld p (index w) (doc w) (master w) (innerWidth w) (innerHeight w)
    (sliderDown w) (frames w) (timers w) (calls w).
Definition with_index (i : Z) (w : World) : World :=
  mkWorld (playlist w) i (doc w) (master w) (innerWidth w) (innerHeight w)
    (sliderDown w) (frames w) (timers w) (calls w).
Definition with_doc (d : gmap string DomVal) (w : World) : World :=
  mkWorld (playlist w) (index w) d (master w) (innerWidth w) (innerHeight w)
    (sliderDown w) (frames w) (timers w) (calls w).
Definition with_master (v : Q) (w : World) : World :=
  mkWorld (playlist w) (index w) (doc w) v (innerWidth w) (innerHeight w)
    (sliderDown w) (frames w) (timers w) (calls w).
Definition with_viewport (width height : Q) (w : World) : World :=
  mkWorld (playlist w) (index w) (doc w) (master w) width height
    (sliderDown w) (frames w) (timers w) (calls w).
Definition with_sliderDown (b : bool) (w : World) : World :=
  mkWorld (playlist w) (index w) (doc w) (master w) (innerWidth w) (innerHeight w)
    b (frames w) (timers w) (calls w).
Definition with_frames (n : nat) (w : World) : World :=
  mkWorld (playlist w) (index w) (doc w) (master w) (innerWidth w) (innerHeight w)
    (sliderDown w) n (timers w) (calls w).
Definition with_timers (t : list (string * string)) (w : World) : World :=
  mkWorld (playlist w) (index w) (doc w) (master w) (innerWidth w) (innerHeight w)
    (sliderDown w) (frames w) t (calls w).
Definition with_calls (c : list Call) (w : World) : World :=
  mkWorld (playlist w) (index w) (doc w) (master w) (innerWidth w) (innerHeight w)
    (sliderDown w) (frames w) (timers w) c.

(** ** Methods as computations

    A method either returns or throws a [TypeError] (a property read on
    [undefined] or [null]); the world it leaves behind is kept in both
    cases, because what was written before the exception stays written. *)
Inductive result (A : Type) : Type :=
| Returned (a : A) (w : World)
| TypeError (w : World).
Arguments Returned {A} a w.
Arguments TypeError {A} w.

Definition M (A : Type) : Type := World -> result A.

Definition world_of {A} (r : result A) : World :=
  match r with
  | Returned _ w => w
  | TypeError w => w
  end.

Definition returned {A} (r : result A) : bool :=
  match r with
  | Returned _ _ => true
  | TypeError _ => false
  end.

#[export] Instance M_ret : MRet M := fun A a w => Returned a w.
#[export] Instance M_bind : MBind M := fun A B f c w =>
  match c w with
  | Returned a w' => f a w'
  | TypeError w' => TypeError w'
  end.

Definition throw {A} : M A := fun w => TypeError w.
Definition gets {A} (f : World -> A) : M A := fun w => Returned (f w) w.
Definition modify (f : World -> World) : M unit := fun w => Returned tt (f w).

(** [element.property = v] *)
Definition set_dom (k : string) (v : DomVal) : M unit :=
  modify (fun w => with_doc (<[k := v]> (doc w)) w).

Definition record (c : Call) : M unit :=
  modify (fun w => with_calls (calls w ++ [c]) w).

(** [requestAnimationFrame(self.step.bind(self))] *)
Definition requestAnimationFrame : M unit :=
  modify (fun w => with_frames (S (frames w)) w).

(** [setTimeout] of a callback that assigns one property.  The delay
    only orders the firing, and the timers of the model may fire in any
    order. *)
Definition setTimeout (k v : string) (delay : Z) : M unit :=
  modify (fun w => with_timers (timers w ++ [(k, v)]) w).

(** [a[i]]: [undefined] outside the array. *)
Definition at_index (p : list Track) (i : Z) : option Track :=
  if i <? 0 then None else p !! Z.to_nat i.

(** Reading a property of [self.playlist[i]] throws when the entry is
    [undefined]. *)
Definition track_of (i : Z) : M Track := fun w =>
  match at_index (playlist w) i with
  | Some t => Returned t w
  | None => TypeError w
  end.

(** Calling a method on [self.playlist[i].howl] throws when it is [null]. *)
Definition howl_of (i : Z) : M Howl :=
  t ← track_of i;
  match howl t with
  | Some h => mret h
  | None => throw
  end.

(** Handles are objects: a call on one updates it in place. *)
Definition put_howl (i : Z) (h : Howl) : M unit :=
  modify (fun w => with_playlist (alter (with_howl (Some h)) (Z.to_nat i) (playlist w)) w).

(** A call [sound.m()] that changes the handle of track [i]. *)
Definition call_howl (i : Z) (c : Call) (f : Howl -> Howl) : M unit :=
  sound ← howl_of i;
  record c;;
  put_howl i (f sound).

(** A string is truthy when it is not empty. *)
Definition str_truthy (s : string) : bool := negb (String.eqb s "").
Definition str_or (s d : string) : string := if str_truthy s then s else d.

(** ** The [Player] class *)

(** The constructor: [this.playlist = playlist; this.index = 0], the three
    text fields emptied.  The entries appended to the list element are
    the [ClickSong] events below. *)
Definition Player_new (p : list Track) : M unit :=
  modify (with_playlist p);;
  modify (with_index 0);;
  set_dom "track.innerHTML" (Text "");;
  set_dom "timer.innerHTML" (Text "");;
  set_dom "duration.innerHTML" (Text "").

(** The [src] option [play] gives a new handle: the two encodings of the
    track's file. *)
Definition sources (f : string) : list string :=
  ["./audio/" +. f +. ".webm"; "./audio/" +. f +. ".mp3"].

(** [play: function(index)].  The argument is [None] when the caller
    passes no number. *)
Definition play (arg : option Z) : M unit :=
  self_index ← gets index;
  let index := match arg with Some i => i | None => self_index end in
  data ← track_of index;
  (match howl data with
   | Some _ => mret tt
   | None =>
       record (NewHowl index);;
       put_howl index (Howl_new (sources (file data)) true)
   end);;
  call_howl index (Play index) Howl_play;;
  set_dom "track.innerHTML" (Text (title data));;
  set_dom "#extra .info" (Text "hide");;
  set_dom "#extra .installation" (Text "fadeIn");;
  set_dom "#extra .installation .number"
    (Text (if str_truthy (number data) then "NUMBER " +. number data else ""));;
  set_dom "#extra .installation .model" (Text (str_or (model data) ""));;
  set_dom "#extra .installation .designer" (Text (str_or (designer data) ""));;
  set_dom "#extra .installation .artist" (Text (str_or (artist data) ""));;
  set_dom "#extra .installation .note" (Text (str_or (note data) ""));;
  sound ← howl_of index;
  (if is_loaded sound then
     set_dom "playBtn.style.display" (Text "none");;
     set_dom "pauseBtn.style.display" (Text "block")
   else
     set_dom "loading.style.display" (Text "block");;
     set_dom "playBtn.style.display" (Text "none");;
     set_dom "pauseBtn.style.display" (Text "none"));;
  modify (with_index index).

(** [pause: function()] *)
Definition pause : M unit :=
  i ← gets index;
  call_howl i (Pause i) Howl_pause;;
  set_dom "playBtn.style.display" (Text "block");;
  set_dom "pauseBtn.style.display" (Text "none").

(** [skipTo: function(index)] *)
Definition skipTo (index' : Z) : M unit :=
  i ← gets index;
  data ← track_of i;
  (match howl data with
   | Some _ => call_howl i (Stop i) Howl_stop
   | None => mret tt
   end);;
  set_dom "progress.style.width" (Percent (Fin 0%Q));;
  play (Some index').

(** The local variable [index] of [skip], computed from the direction. *)
Definition skip_index (direction : string) (w : World) : Z :=
  if String.eqb direction "prev" then
    let i := index w - 1 in
    if i <? 0 then Z.of_nat (length (playlist w)) - 1 else i
  else
    let i := index w + 1 in
    if i >=? Z.of_nat (length (playlist w)) then 0 else i.

(** [skip: function(direction)] *)
Definition skip (direction : string) : M unit :=
  target ← gets (skip_index direction);
  skipTo target.

(** [Howler.volume(val)] sets the global volume when [val] is in [0,1]. *)
Definition Howler_volume (val : Q) : M unit :=
  record (Volume val);;
  if Qle_bool 0 val && Qle_bool val 1 then modify (with_master val) else mret tt.

(** [volume: function(val)] *)
Definition volume (val : Q) : M unit :=
  Howler_volume val;;
  let barWidth := fdiv (fmul val 90) 100 in
  set_dom "barFull.style.width" (Percent (Fin (fmul barWidth 100)));;
  width ← gets innerWidth;
  set_dom "sliderBtn.style.left"
    (Pixels (fsub (fadd (fmul width barWidth) (fmul width (rnd 0.05))) 25)).

(** [seek: function(per)] *)
Definition seek (per : Q) : M unit :=
  i ← gets index;
  sound ← howl_of i;
  if Howl_playing sound then
    call_howl i (Seek i (fmul (Howl_duration sound) per))
      (Howl_seek_to (fmul (Howl_duration sound) per))
  else mret tt.

(** [step: function()] *)
Definition step : M unit :=
  i ← gets index;
  sound ← howl_of i;
  let seek := val_or (Howl_seek sound) (VNum (Fin 0%Q)) in
  set_dom "timer.innerHTML" (Joined (formatTime (Math_round (to_number seek))));;
  set_dom "progress.style.width"
    (Percent (num_or (num_mul (num_div (to_number seek) (Fin (Howl_duration sound)))
                        (Fin 100%Q))
                (Fin 0%Q)));;
  if Howl_playing sound then requestAnimationFrame else mret tt.

Definition is_text (v : option DomVal) (s : string) : bool :=
  match v with
  | Some (Text t) => String.eqb t s
  | _ => false
  end.

(** [togglePlaylist] and [toggleVolume]: the class changes at once, the
    display after 0 ms when showing and after 500 ms when hiding. *)
Definition toggle (panel : string) : M unit :=
  shown ← gets (fun w : World => is_text (doc w !! (panel +. ".style.display")) "block");
  let display := if (shown : bool) then "none" else "block" in
  setTimeout (panel +. ".style.display") display
    (if String.eqb display "block" then 0 else 500);;
  set_dom (panel +. ".className")
    (Text (if String.eqb display "block" then "fadein" else "fadeout")).

Definition togglePlaylist : M unit := toggle "playlist".
Definition toggleVolume : M unit := toggle "volume".

(** The callbacks given to [new Howl] by [play] for track [i]. *)
Inductive Callback := onplay | onload | onend | onpause | onstop | onseek.

Definition callback (i : Z) (cb : Callback) : M unit :=
  match cb with
  | onplay =>
      sound ← howl_of i;
      set_dom "duration.innerHTML"
        (Joined (formatTime (Math_round (Fin (Howl_duration sound)))));;
      requestAnimationFrame;;
      set_dom "wave.container.style.display" (Text "block");;
      set_dom "bar.style.display" (Text "none");;
      set_dom "pauseBtn.style.display" (Text "block")
  | onload =>
      set_dom "wave.container.style.display" (Text "block");;
      set_dom "bar.style.display" (Text "none");;
      set_dom "loading.style.display" (Text "none")
  | onend =>
      set_dom "wave.container.style.display" (Text "none");;
      set_dom "bar.style.display" (Text "block");;
      skip "next"
  | onpause | onstop =>
      set_dom "wave.container.style.display" (Text "none");;
      set_dom "bar.style.display" (Text "block")
  | onseek => requestAnimationFrame
  end.

(** ** The script around the class *)

(** [var resize = function() {...}] *)
Definition resize : M unit :=
  h ← gets innerHeight;
  w ← gets innerWidth;
  let height := fmul h (rnd 0.3) in
  let width := w in
  set_dom "wave.height" (Number height);;
  set_dom "wave.height_2" (Number (fdiv height 2));;
  set_dom "wave.MAX" (Number (fsub (fdiv height 2) 4));;
  set_dom "wave.width" (Number width);;
  set_dom "wave.width_2" (Number (fdiv width 2));;
  set_dom "wave.width_4" (Number (fdiv width 4));;
  set_dom "wave.canvas.height" (Number height);;
  set_dom "wave.canvas.width" (Number width);;
  set_dom "wave.container.style.margin" (Margin (- fdiv height 2)%Q);;
  i ← gets index;
  data ← track_of i;
  match howl data with
  | Some sound =>
      let vol := hw_volume sound in
      let barWidth := fmul vol (rnd 0.9) in
      set_dom "sliderBtn.style.left"
        (Pixels (fsub (fadd (fmul w barWidth) (fmul w (rnd 0.05))) 25))
  | None => mret tt
  end.

(** The event object [move] is given.  A mouse event has a [clientX] and
    no [touches]; a touch event has no [clientX] and has [touches], here
    the [clientX] of each touch. *)
Record PointerEvent := mkPointerEvent {
  ev_clientX : option Q;
  ev_touches : option (list Q)
}.

Definition mouse_at (x : Q) : PointerEvent := mkPointerEvent (Some x) None.
Definition touch_at (x : Q) : PointerEvent := mkPointerEvent None (Some [x]).

(** [event.touches[0].clientX] throws when [touches] is [undefined] and
    when it is empty. *)
Definition first_touch (event : PointerEvent) : M Q :=
  match ev_touches event with
  | Some (x :: _) => mret x
  | _ => throw
  end.

(** [event.clientX || event.touches[0].clientX]: a [clientX] of 0 is
    falsy, like one that is [undefined]. *)
Definition pointer_x (event : PointerEvent) : M Q :=
  match ev_clientX event with
  | Some x => if Qzero x then first_touch event else mret x
  | None => first_touch event
  end.

(** [var move = function(event) {...}]; [scrollWidth] is the width of the
    empty bar. *)
Definition move (event : PointerEvent) (scrollWidth : Q) : M unit :=
  down ← gets sliderDown;
  if (down : bool) then
    x ← pointer_x event;
    width ← gets innerWidth;
    let startX := fmul width (rnd 0.05) in
    let layerX := fsub x startX in
    let per := Qmin 1 (Qmax 0 (fdiv layerX scrollWidth)) in
    volume per
  else mret tt.

(** The playlist handed to the constructor, [new Player([...])]: twenty
    entries, every [howl] still [null]. *)
Definition tracks : list Track := [
  mkTrack "I" "1" "Abby Yankle" "Julia Liller" "Jessica Maples"
    ""
    "01 - ND13" None;
  mkTrack "II" "2" "Jalisa Ambrose" "A.J. Tompkins" "Conz8000"
    ""
    "02 - ND18" None;
  mkTrack "III" "3" "N/A" "Miranda Pixley" "Molly Holmes"
    "This installation is blank due to life changes for both artist and costumer to where they did not have freedom to create."
    "03 - ND08" None;
  mkTrack "IV" "4" "Ellis Jayne" "Sunè Van Rooyen Phillips" "Sunè Van Rooyen Phillips"
    ""
    "04 - ND04" None;
  mkTrack "V" "5" "Rachel Stringfellow" "Rachel Stringfellow" "Rachel Stringfellow"
    ""
    "05 - ND03" None;
  mkTrack "VI" "6" "Lillian McKinney" "Lillian McKinney" "Lucy Gafford"
    ""
    "06 - ND07" None;
  mkTrack "VII" "7" "Nicole Decker" "Sarah Bohnenstiehl" "Dena Kollins"
    ""
    "07 - ND02" None;
  mkTrack "VIII" "8" "Laura Scott" "Courtney Matthews" "Ryan Jetten"
    ""
    "08 - ND09" None;
  mkTrack "IX" "9" "Reginald Davis" "Antionette Warbington" ""
    "Sol Davis could not be in the show due to work."
    "09 - ND16" None;
  mkTrack "X" "10" "April Patrick" "April Patrick" "Artist Name"
    ""
    "10 - ND06" None;
  mkTrack "XI" "11" "April Livingston" "April Livingston" "Amanada Youngblood"
    ""
    "11 - ND10" None;
  mkTrack "XII" "12" "Stallworth" "Stallworth" "Brandin Stallworth"
    ""
    "12 - ND11" None;
  mkTrack "XIII" "13" "Suzette Callahan" "Suzette Callahan" "Randy Jennings"
    ""
    "13 - ND19" None;
  mkTrack "XIV" "14" "Marnèe Wiley" "Valerie Iliff" "Chris Murray"
    ""
    "14 - ND05" None;
  mkTrack "XV" "15" "Larrah Craig" "Laura Compton" "Marnèe Wiley"
    ""
    "15 - ND17" None;
  mkTrack "XVI" "16" "McKenzie Wallace" "Jessica Price" "Mateo"
    ""
    "16 - ND01" None;
  mkTrack "XVII" "17" "Emily Howat" "Richard McGill-Hamilton" "Taylor Shaw"
    ""
    "17 - ND05" None;
  mkTrack "XVIII" "18" "Debbie Richards" "Debbie Richards" "Katrina Breland"
    ""
    "18 - ND15" None;
  mkTrack "XIX" "19" "Sarah Hoeb" "Sara Thompson" "Sarah Gelsinger Brewer"
    ""
    "19 - ND17" None;
  mkTrack "XX" "20" "Jessica Price" "Jessica Price" "Jessica Price"
    ""
    "20 - ND12" None
].

(** ** Events

    Everything that can happen to the page once it is loaded: the bound
    listeners, the animation frames and timers the script asked for, and
    what the audio library does on its own (the load completes, time
    passes, a sound ends, a registered callback is invoked). *)
Inductive Event :=
| ClickPlayBtn
| ClickPauseBtn
| ClickPrevBtn
| ClickNextBtn
| ClickSong (n : nat)                  (* the n-th entry of the list element *)
| ClickWaveform (clientX : Q)
| ClickPlaylistBtn
| ClickPlaylist
| ClickVolumeBtn
| ClickVolume
| ClickBarEmpty (layerX scrollWidth : Q)
| SliderPress                          (* mousedown, touchstart *)
| SliderRelease                        (* mouseup, touchend *)
| SliderMove (event : PointerEvent) (scrollWidth : Q)  (* mousemove, touchmove *)
| WindowResize (width height : Q)
| AnimationFrame
| Timeout (n : nat)                    (* the n-th pending timer fires *)
| HowlLoaded (n : nat) (len : Q)
| HowlProgress (n : nat) (dt : Q)
| HowlFinished (n : nat)
| HowlEmit (n : nat) (cb : Callback).

(** [playlist.indexOf(song)] for the n-th entry: the entries are distinct
    objects, so the answer is [n]. *)
Definition indexOf (n : nat) : Z := Z.of_nat n.

Definition howl_at (w : World) (n : nat) : option Howl :=
  match playlist w !! n with
  | Some t => howl t
  | None => None
  end.

Definition Qpos (q : Q) : bool := negb (Qle_bool q 0).

(** When an event can happen.  The widths are those of elements on the
    screen, so they are positive.  Of the library: a load completes on a
    handle that is loading and makes a positive length known; time passes
    and the end is reached on a handle that is playing; a callback is
    invoked on a handle that exists. *)
Definition enabled (e : Event) (w : World) : bool :=
  match e with
  | ClickSong n => Nat.ltb n (length (playlist w))
  | ClickBarEmpty _ scrollWidth | SliderMove _ scrollWidth => Qpos scrollWidth
  | WindowResize width height => Qpos width && Qle_bool 0 height
  | AnimationFrame => Nat.ltb 0 (frames w)
  | Timeout n => Nat.ltb n (length (timers w))
  | HowlLoaded n len =>
      match howl_at w n with
      | Some h => match hw_state h with loading => Qpos len | _ => false end
      | None => false
      end
  | HowlProgress n dt =>
      match howl_at w n with
      | Some h => Howl_playing h && Qle_bool 0 dt
      | None => false
      end
  | HowlFinished n =>
      match howl_at w n with
      | Some h => Howl_playing h
      | None => false
      end
  | HowlEmit n _ =>
      match howl_at w n with
      | Some _ => true
      | None => false
      end
  | _ => true
  end.

(** The library changes the handle of track [n] on its own. *)
Definition library (n : nat) (f : Howl -> Howl) : M unit :=
  sound ← howl_of (Z.of_nat n);
  put_howl (Z.of_nat n) (f sound).

(** What the page does when the event happens. *)
Definition handle (e : Event) : M unit :=
  match e with
  | ClickPlayBtn => play None
  | ClickPauseBtn => pause
  | ClickPrevBtn => skip "prev"
  | ClickNextBtn => skip "next"
  | ClickSong n => skipTo (indexOf n)
  | ClickWaveform clientX =>
      width ← gets innerWidth;
      seek (fdiv clientX width)
  | ClickPlaylistBtn | ClickPlaylist => togglePlaylist
  | ClickVolumeBtn | ClickVolume => toggleVolume
  | ClickBarEmpty layerX scrollWidth => volume (fdiv layerX scrollWidth)
  | SliderPress => modify (with_sliderDown true)
  | SliderRelease => modify (with_sliderDown false)
  | SliderMove event scrollWidth => move event scrollWidth
  | WindowResize width height =>
      modify (with_viewport width height);;
      resize
  | AnimationFrame =>
      modify (fun w => with_frames (Nat.pred (frames w)) w);;
      step
  | Timeout n =>
      pending ← gets timers;
      match pending !! n with
      | Some (k, v) =>
          modify (with_timers (take n pending ++ drop (S n) pending));;
          set_dom k (Text v)
      | None => mret tt
      end
  | HowlLoaded n len => library n (Howl_loaded len)
  | HowlProgress n dt => library n (Howl_advance dt)
  | HowlFinished n => library n Howl_finish
  | HowlEmit n cb => callback (Z.of_nat n) cb
  end.

(** An exception that reaches the event loop is reported and dropped:
    the page goes on from the world the listener left. *)
Definition fire (e : Event) (w : World) : World := world_of (handle e w).

(** The world before the script runs, for a viewport of the given size:
    Howler's global volume is 1 and [window.sliderDown] is not set. *)
Definition blank (width height : Q) : World :=
  mkWorld [] 0 ∅ 1 width height false 0 [] [].

(** The script from top to bottom: the player is constructed on the
    playlist, the listeners are bound, [resize()] is called once. *)
Definition startup (width height : Q) : World :=
  world_of ((Player_new tracks;; resize) (blank width height)).

(** The states the page can be in. *)
Inductive reachable : World -> Prop :=
| reachable_startup width height :
    Qpos width = true -> Qle_bool 0 height = true ->
    reachable (startup width height)
| reachable_fire e w :
    reachable w -> enabled e w = true -> reachable (fire e w).

(** A run of events from a world. *)
Fixpoint run (es : list Event) (w : World) : World :=
  match es with
  | [] => w
  | e :: es' => run es' (fire e w)
  end.

(** Every event of the run is enabled when its turn comes. *)
Fixpoint runnable (es : list Event) (w : World) : bool :=
  match es with
  | [] => true
  | e :: es' => enabled e w && runnable es' (fire e w)
  end.

(** ** Vocabulary of the properties *)

(** The handle of track [i], when the track exists and has one. *)
Definition howl_on (p : list Track) (i : Z) : option Howl :=
  match at_index p i with
  | Some t => howl t
  | None => None
  end.

(** The handle [self.playlist[self.index].howl]. *)
Definition current_howl (w : World) : option Howl := howl_on (playlist w) (index w).

(** The current track has a handle and it reports playing. *)
Definition current_playing (w : World) : bool :=
  match current_howl w with
  | Some h => Howl_playing h
  | None => false
  end.

(** The index [play] works on: its argument when that is a number, the
    current index otherwise. *)
Definition target (arg : option Z) (w : World) : Z :=
  match arg with
  | Some i => i
  | None => index w
  end.

Definition valid_index (w : World) (i : Z) : Prop :=
  0 <= i < Z.of_nat (length (playlist w)).

(** How many times a handle was constructed for track [i]. *)
Definition is_new (i : Z) (c : Call) : bool :=
  match c with
  | NewHowl j => i =? j
  | _ => false
  end.

Fixpoint creations (i : Z) (cs : list Call) : nat :=
  match cs with
  | [] => 0
  | c :: cs' => (if is_new i c then 1 else 0) + creations i cs'
  end.

(** The player is settled on track [i]: the playlist is the one the
    page started with, handles apart; [i] is one of its entries; every
    handle of another track is stopped; a loaded handle knows a positive
    length; a track has a handle exactly when one was constructed for it,
    once; and the handle of a track streams the files of that track. *)
Record settled (i : Z) (p : list Track) (cs : list Call) : Prop := {
  inv_tracks : with_howl None <$> p = tracks;
  inv_index : 0 <= i < Z.of_nat (length p);
  inv_others : forall j h, howl_on p j = Some h -> j <> i -> hw_mode h = Stopped;
  inv_loaded : forall j h,
    howl_on p j = Some h -> is_loaded h = true -> Qpos (hw_len h) = true;
  inv_created : forall j,
    creations j cs = match howl_on p j with Some _ => 1%nat | None => 0%nat end;
  inv_source : forall j h,
    howl_on p j = Some h ->
    exists t, at_index p j = Some t /\ hw_src h = sources (file t) /\ hw_html5 h = true
}.

(** What holds of the player in every state the page can reach. *)
Definition invariant (w : World) : Prop :=
  settled (index w) (playlist w) (calls w).

(** The world [skipTo] hands to [play]: the current handle stopped, when
    there is one, and the progress bar reset. *)
Definition before_play (w : World) : World :=
  with_doc (<["progress.style.width" := Percent (Fin 0%Q)]> (doc w))
    match current_howl w with
    | Some h =>
        with_playlist
          (alter (with_howl (Some (Howl_stop h))) (Z.to_nat (index w)) (playlist w))
          (with_calls (calls w ++ [Stop (index w)]) w)
    | None => w
    end.

(** Two worlds with the same player: playlist, index and constructed
    handles. *)
Definition same_player (w w' : World) : Prop :=
  playlist w' = playlist w /\ index w' = index w
  /\ forall j, creations j (calls w') = creations j (calls w).

(** The position [step] displays: the handle's once it is loaded, 0
    before. *)
Definition position (h : Howl) : Q := if is_loaded h then hw_pos h else 0.

(** The number [step] turns into the width of the progress bar:
    position / duration x 100, from what the handle answers. *)
Definition ratio (h : Howl) : jsnum :=
  num_mul (num_div (to_number (Howl_seek h)) (Fin (Howl_duration h))) (Fin 100%Q).

Definition finite_nonzero (x : jsnum) : bool :=
  match x with
  | Fin q => negb (Qzero q)
  | _ => false
  end.

(** The width of the progress bar as the specification words it: that
    number when it is finite and not zero, and 0 otherwise. *)
Definition progress (h : Howl) : jsnum :=
  if finite_nonzero (ratio h) then ratio h else Fin 0%Q.

(** The width as [x || 0] gives it: that number unless it is zero or
    NaN, and 0 then. *)
Definition progress_or_zero (h : Howl) : jsnum := num_or (ratio h) (Fin 0%Q).

(** Worlds used as examples: the page right after loading in a 1280x800
    viewport; the first track requested; the first track playing, two and
    a half seconds in; the same, paused. *)
Definition fresh_world : World := startup 1280 800.
Definition loading_world : World := run [ClickPlayBtn] fresh_world.
Definition playing_world : World :=
  run [ClickPlayBtn; HowlLoaded 0 200; HowlEmit 0 onplay; HowlProgress 0 (5 # 2)]
    fresh_world.
Definition paused_world : World := run [ClickPauseBtn] playing_world.

(** A phone held upright: 400 pixels wide. *)
Definition narrow_world : World := startup 400 800.

(** A handle that is loaded, five seconds in, and reports a duration of
    0, and the page with it as the handle of the first track. *)
Definition zero_length_howl : Howl :=
  mkHowl (sources "01 - ND13") true loaded Active 5 0 1.

Definition zero_length_world : World :=
  with_playlist (alter (with_howl (Some zero_length_howl)) 0%nat tracks) fresh_world.

(** [playlist.length] *)
Definition playlist_length (w : World) : Z := Z.of_nat (length (playlist w)).

(** The world a computation ends in has its index inside the playlist. *)
Definition keeps_index {A} (r : result A) : Prop :=
  valid_index (world_of r) (index (world_of r)).

(** The width [volume] gives the fill of the slider, in per cent, and
    the left offset it gives the slider button, in pixels. *)
Definition slider_fill (level : Q) : Q := fmul (fdiv (fmul level 90) 100) 100.

Definition slider_left (width level : Q) : Q :=
  fsub (fadd (fmul width (fdiv (fmul level 90) 100)) (fmul width (rnd 0.05))) 25.

(** What the roundings of [volume] can add to an offset or take from
    it, in pixels, on a viewport of the given width. *)
Definition slack (width : Q) : Q := ((width + 25) * pow2 (-50))%Q.

(** The largest whole number of seconds [formatTime] is stated for. *)
Definition safe_seconds : Z := 2 ^ 53 - 1.

(** The handle of the first track in [playing_world]. *)
Definition playing_howl : Howl :=
  mkHowl (sources "01 - ND13") true loaded Active (5 # 2) 200 1.

(** ** Further vocabulary *)

(** Every handle of the playlist has the volume it was constructed
    with. *)
Definition unit_volumes (p : list Track) : Prop :=
  forall i h, howl_on p i = Some h -> hw_volume h = 1%Q.

(** [k] presses of the next button. *)
Definition next_presses (k : nat) : list Event := replicate k ClickNextBtn.

(** The offset of a pointer at [x] along the bar, as [move] computes
    it, and the level [move] passes to [volume]. *)
Definition drag_offset (x width : Q) : Q := fsub x (fmul width (rnd 0.05)).

Definition drag_level (x scrollWidth width : Q) : Q :=
  Qmin 1 (Qmax 0 (fdiv (drag_offset x width) scrollWidth)).

(** A world in which the slider button is held down. *)
Definition dragging_world : World := run [SliderPress] playing_world.

(** A world with the playlist panel shown. *)
Definition panel_world : World := run [ClickPlaylistBtn; Timeout 0] fresh_world.

(** * Proofs *)

(** ** Doubles *)

Lemma Qzero_spec (q : Q) : Qzero q = true <-> (q == 0)%Q.
Proof. apply Qeq_bool_iff. Qed.

(** Powers of two *)
Lemma pow2_pos (e : Z) : (0 < pow2 e)%Q.
Proof. apply Qpower_0_lt. reflexivity. Qed.

Lemma pow2_add (a b : Z) : (pow2 (a + b) == pow2 a * pow2 b)%Q.
Proof. apply Qpower_plus. discriminate. Qed.

Lemma pow2_succ (a : Z) : (pow2 (a + 1) == 2 * pow2 a)%Q.
Proof. rewrite pow2_add. change (pow2 1) with 2%Q. ring. Qed.

Lemma pow2_le (a b : Z) : a <= b -> (pow2 a <= pow2 b)%Q.
Proof. intros H. apply Qpower_le_compat_l; [exact H|discriminate]. Qed.

Lemma pow2_Z (e : Z) : 0 <= e -> (pow2 e == inject_Z (2 ^ e))%Q.
Proof. intros H. symmetry. apply (Zpower_Qpower 2 e H). Qed.

(** The binary logarithm rounded down *)
Lemma Qlog2_spec (q : Q) :
  (0 < q)%Q -> (pow2 (Qlog2 q) <= q < pow2 (Qlog2 q + 1))%Q.
Proof.
  intros Hq. destruct q as [n d]. assert (Hn : 0 < n).
  { unfold Qlt in Hq. cbn in Hq. lia. }
  unfold Qlog2. cbn [Qnum Qden].
  set (a := Z.log2 n). set (b := Z.log2 (Z.pos d)).
  destruct (Z.log2_spec n Hn) as [Ha1 Ha2]. fold a in Ha1, Ha2.
  destruct (Z.log2_spec (Z.pos d) eq_refl) as [Hb1 Hb2]. fold b in Hb1, Hb2.
  assert (Ha0 : 0 <= a) by apply Z.log2_nonneg.
  assert (Hb0 : 0 <= b) by apply Z.log2_nonneg.
  assert (HA : (pow2 a <= inject_Z n < 2 * pow2 a)%Q).
  { rewrite <- pow2_succ, !pow2_Z by lia. rewrite <- Zle_Qle, <- Zlt_Qlt.
    rewrite <- Z.add_1_r in Ha2. lia. }
  assert (HB : (pow2 b <= inject_Z (Z.pos d) < 2 * pow2 b)%Q).
  { rewrite <- pow2_succ, !pow2_Z by lia. rewrite <- Zle_Qle, <- Zlt_Qlt.
    rewrite <- Z.add_1_r in Hb2. lia. }
  assert (Hq' : (n # d == inject_Z n / inject_Z (Z.pos d))%Q) by apply Qmake_Qdiv.
  assert (Hab : (pow2 a == pow2 (a - b) * pow2 b)%Q).
  { rewrite <- pow2_add. now replace (a - b + b) with a by lia. }
  pose proof (pow2_pos a) as Pa. pose proof (pow2_pos b) as Pb.
  pose proof (pow2_pos (a - b)) as Pab. pose proof (pow2_pos (a - b - 1)) as Pab1.
  assert (Hab1 : (pow2 (a - b) == 2 * pow2 (a - b - 1))%Q).
  { rewrite <- pow2_succ. now replace (a - b - 1 + 1) with (a - b) by lia. }
  assert (HD : (0 < inject_Z (Z.pos d))%Q) by reflexivity.
  set (N := inject_Z n) in *. set (D := inject_Z (Z.pos d)) in *.
  assert (Hmul : ((n # d) * D == N)%Q) by (rewrite Hq'; field; lra).
  set (x := (n # d)%Q) in *.
  assert (Hup : (x < 2 * pow2 (a - b))%Q).
  { apply Qnot_le_lt. intros Hc.
    assert (((2 * pow2 (a - b)) * pow2 b <= x * D)%Q) by (apply Qmult_le_compat_nonneg; lra).
    lra. }
  assert (Hlo : (pow2 (a - b - 1) < x)%Q).
  { apply Qnot_le_lt. intros Hc.
    assert (H1 : (x * D < x * (2 * pow2 b))%Q) by (apply Qmult_lt_l; lra).
    assert (H2 : (x * (2 * pow2 b) <= pow2 (a - b - 1) * (2 * pow2 b))%Q)
      by (apply Qmult_le_compat_r; lra).
    assert (H3 : (pow2 a == pow2 (a - b - 1) * (2 * pow2 b))%Q)
      by (rewrite Hab, Hab1; ring).
    lra. }
  destruct (Qle_bool (pow2 (a - b)) x) eqn:Ht.
  - apply Qle_bool_iff in Ht. rewrite pow2_succ. lra.
  - assert ((x < pow2 (a - b))%Q).
    { apply Qnot_le_lt. intros Hc. apply Qle_bool_iff in Hc. congruence. }
    replace (a - b - 1 + 1) with (a - b) by lia. lra.
Qed.

(** Rounding to the nearest integer *)
Lemma round_even_near (q : Q) : (Qabs (inject_Z (round_even q) - q) <= 1 # 2)%Q.
Proof.
  unfold round_even.
  pose proof (Qfloor_le q) as Hlo. pose proof (Qlt_floor q) as Hhi.
  rewrite inject_Z_plus in Hhi. change (inject_Z 1) with 1%Q in Hhi.
  set (f := Qfloor q) in *. apply Qabs_Qle_condition.
  destruct (q - inject_Z f ?= 1 # 2)%Q eqn:Hc.
  - apply Qeq_alt in Hc. destruct (Z.even f); rewrite ?inject_Z_plus;
      change (inject_Z 1) with 1%Q; lra.
  - apply Qlt_alt in Hc. lra.
  - apply Qgt_alt in Hc. rewrite inject_Z_plus. change (inject_Z 1) with 1%Q. lra.
Qed.

Lemma round_even_comp (p q : Q) : (p == q)%Q -> round_even p = round_even q.
Proof.
  intros H. unfold round_even. rewrite (Qfloor_comp _ _ H).
  assert (Hc : (p - inject_Z (Qfloor q) ?= 1 # 2)%Q = (q - inject_Z (Qfloor q) ?= 1 # 2)%Q).
  { apply Qcompare_comp; [now rewrite H|reflexivity]. }
  now rewrite Hc.
Qed.

Lemma round_even_Z (z : Z) : round_even (inject_Z z) = z.
Proof.
  unfold round_even. rewrite Qfloor_Z.
  assert (H : (inject_Z z - inject_Z z ?= 1 # 2)%Q = Lt).
  { rewrite <- Qlt_alt. setoid_replace (inject_Z z - inject_Z z)%Q with 0%Q using relation Qeq by ring.
    reflexivity. }
  now rewrite H.
Qed.

Lemma rnd_zero (q : Q) : (q == 0)%Q -> rnd q = 0%Q.
Proof. intros H. unfold rnd. apply Qzero_spec in H. now rewrite H. Qed.

Lemma rnd_value (q : Q) :
  ~ (q == 0)%Q ->
  (rnd q == inject_Z (round_even (q / pow2 (quantum q))) * pow2 (quantum q))%Q.
Proof.
  intros H. unfold rnd. destruct (Qzero q) eqn:Hz.
  - apply Qzero_spec in Hz. contradiction.
  - apply Qred_correct.
Qed.

Lemma quantum_small (q : Q) :
  ~ (q == 0)%Q -> (pow2 (quantum q) / 2 <= Qabs q * unit_roundoff + tiniest)%Q.
Proof.
  intros H. unfold quantum, unit_roundoff, tiniest.
  assert (Ha : (0 < Qabs q)%Q).
  { destruct (Qlt_le_dec 0 q) as [Hp|Hn].
    - rewrite Qabs_pos; lra.
    - rewrite Qabs_neg by exact Hn.
      destruct (Qle_lt_or_eq _ _ Hn) as [Hlt|Heq]; [lra|contradiction]. }
  destruct (Qlog2_spec _ Ha) as [Hlo _].
  set (L := Qlog2 (Qabs q)) in *.
  pose proof (pow2_pos (-1075)) as P1. pose proof (pow2_pos (-53)) as P2.
  destruct (Z.max_spec (L - 52) (-1074)) as [[_ ->]|[_ ->]].
  - change (-1074) with (-1075 + 1). rewrite pow2_succ.
    assert ((0 <= Qabs q * pow2 (-53))%Q) by (apply Qmult_le_0_compat; lra).
    field_simplify. lra.
  - assert (E : (pow2 (L - 52) == pow2 L * (2 * pow2 (-53)))%Q).
    { replace (L - 52) with (L + (-53 + 1)) by lia.
      rewrite pow2_add, pow2_succ. reflexivity. }
    rewrite E.
    assert ((pow2 L * pow2 (-53) <= Qabs q * pow2 (-53))%Q)
      by (apply Qmult_le_compat_r; lra).
    field_simplify. lra.
Qed.

(** The error of one rounding is at most half the distance between the
    doubles near the number. *)
Lemma rnd_error_quantum (q : Q) :
  ~ (q == 0)%Q -> (Qabs (rnd q - q) <= (1 # 2) * pow2 (quantum q))%Q.
Proof.
  intros Hnz. pose proof (rnd_value q Hnz) as Hv.
  pose proof (pow2_pos (quantum q)) as Hp.
  set (P := pow2 (quantum q)) in *.
  pose proof (round_even_near (q / P)) as Hn.
  set (m := inject_Z (round_even (q / P))) in *.
  apply Qabs_Qle_condition in Hn. destruct Hn as [Hn1 Hn2].
  assert (Hq : (q == q / P * P)%Q) by (field; lra).
  assert (H1 : ((m - q / P) * P <= (1 # 2) * P)%Q) by (apply Qmult_le_compat_r; lra).
  assert (H2 : (- (1 # 2) * P <= (m - q / P) * P)%Q) by (apply Qmult_le_compat_r; lra).
  assert (H3 : ((m - q / P) * P == rnd q - q)%Q).
  { rewrite Hv. rewrite Hq at 2. ring. }
  apply Qabs_Qle_condition. rewrite <- H3.
  set (d := ((m - q / P) * P)%Q) in *. lra.
Qed.

(** The rounding error of one operation. *)
Lemma rnd_error (q : Q) :
  (Qabs (rnd q - q) <= Qabs q * unit_roundoff + tiniest)%Q.
Proof.
  destruct (Qeq_dec q 0) as [Hz|Hnz].
  - rewrite (rnd_zero q Hz), Hz. vm_compute. discriminate.
  - pose proof (quantum_small q Hnz) as Hs.
    pose proof (rnd_error_quantum q Hnz) as He.
    assert (E : (pow2 (quantum q) / 2 == (1 # 2) * pow2 (quantum q))%Q) by field.
    rewrite E in Hs. lra.
Qed.

Lemma rnd_nonneg (q : Q) : (0 <= q)%Q -> (0 <= rnd q)%Q.
Proof.
  intros H. destruct (Qeq_dec q 0) as [Hz|Hnz].
  - rewrite (rnd_zero q Hz). lra.
  - rewrite (rnd_value q Hnz). pose proof (pow2_pos (quantum q)) as Hp.
    apply Qmult_le_0_compat; [|lra].
    assert (Hs : (0 <= q / pow2 (quantum q))%Q).
    { apply Qle_shift_div_l; lra. }
    change 0%Q with (inject_Z 0). rewrite <- Zle_Qle.
    unfold round_even. assert (0 <= Qfloor (q / pow2 (quantum q))).
    { apply Qfloor_resp_le in Hs. exact Hs. }
    destruct (_ ?= _)%Q; [destruct (Z.even _)| |]; lia.
Qed.

Lemma rnd_nonpos (q : Q) : (q <= 0)%Q -> (rnd q <= 0)%Q.
Proof.
  intros H. destruct (Qeq_dec q 0) as [Hz|Hnz].
  - rewrite (rnd_zero q Hz). lra.
  - rewrite (rnd_value q Hnz). pose proof (pow2_pos (quantum q)) as Hp.
    set (P := pow2 (quantum q)) in *.
    assert (Hs : (q / P < 0)%Q).
    { apply Qlt_shift_div_r; [lra|].
      destruct (Qle_lt_or_eq _ _ H) as [Hlt|Heq]; [lra|contradiction]. }
    assert (Hf : Qfloor (q / P) <= -1).
    { pose proof (Qfloor_le (q / P)) as Hle.
      assert (Hlt : (inject_Z (Qfloor (q / P)) < inject_Z 0)%Q) by (change (inject_Z 0) with 0%Q; lra).
      rewrite <- Zlt_Qlt in Hlt. lia. }
    assert (Hm : round_even (q / P) <= 0).
    { unfold round_even. destruct (_ ?= _)%Q; [destruct (Z.even _)| |]; lia. }
    assert (Hm' : (inject_Z (round_even (q / P)) <= 0)%Q).
    { change 0%Q with (inject_Z 0). now rewrite <- Zle_Qle. }
    assert ((inject_Z (round_even (q / P)) * P <= 0 * P)%Q) by (apply Qmult_le_compat_r; lra).
    lra.
Qed.

Lemma Qred_Z (z : Z) : Qred (inject_Z z) = inject_Z z.
Proof.
  unfold Qred, inject_Z.
  pose proof (Z.ggcd_gcd z 1) as Hg. pose proof (Z.ggcd_correct_divisors z 1) as Hd.
  destruct (Z.ggcd z 1) as [g [a b]]. cbn [fst] in Hg. rewrite Z.gcd_1_r in Hg.
  subst g. destruct Hd as [Ha Hb].
  assert (Ea : a = z) by lia. assert (Eb : b = 1) by lia. now subst a b.
Qed.

(** An integer of 53 bits times a power of two is a double. *)
Lemma rnd_scaled (z j : Z) :
  0 <= j -> Z.abs z < 2 ^ 53 -> rnd (inject_Z (z * 2 ^ j)) = inject_Z (z * 2 ^ j).
Proof.
  intros Hj Hz. destruct (Z.eq_dec z 0) as [->|Hnz]; [reflexivity|].
  pose proof (Z.pow_pos_nonneg 2 j ltac:(lia) Hj) as Hpj.
  set (n := z * 2 ^ j).
  assert (Hn0 : n <> 0) by (unfold n; lia).
  assert (Hq : ~ (inject_Z n == 0)%Q).
  { intros H. apply Hn0. unfold Qeq in H. cbn in H. lia. }
  unfold rnd. destruct (Qzero (inject_Z n)) eqn:Hzero.
  { apply Qzero_spec in Hzero. contradiction. }
  assert (Ha : Qabs (inject_Z n) = inject_Z (Z.abs n)) by reflexivity.
  assert (Hpos : (0 < Qabs (inject_Z n))%Q).
  { rewrite Ha. change 0%Q with (inject_Z 0). rewrite <- Zlt_Qlt. lia. }
  destruct (Qlog2_spec _ Hpos) as [Hlo _].
  set (L := Qlog2 (Qabs (inject_Z n))) in *.
  assert (HL : L <= 52 + j).
  { destruct (Z_le_gt_dec L (52 + j)) as [|Hgt]; [assumption|exfalso].
    pose proof (pow2_le (53 + j) L ltac:(lia)) as H53.
    assert (Hlt : (inject_Z (Z.abs n) < pow2 (53 + j))%Q).
    { rewrite pow2_Z by lia. rewrite <- Zlt_Qlt. unfold n.
      rewrite Z.abs_mul, (Z.abs_eq (2 ^ j)), Z.pow_add_r by lia.
      apply Z.mul_lt_mono_pos_r; lia. }
    rewrite Ha in Hlo. lra. }
  unfold quantum. fold L. set (e := Z.max (L - 52) (-1074)).
  assert (He : -1074 <= e <= j) by lia.
  assert (Hfin : (inject_Z (z * 2 ^ (j - e)) * pow2 e == inject_Z n)%Q).
  { rewrite inject_Z_mult, <- (pow2_Z (j - e)) by lia.
    unfold n. rewrite inject_Z_mult, <- (pow2_Z j), <- Qmult_assoc, <- pow2_add by lia.
    now replace (j - e + e) with j by lia. }
  assert (Hs : (inject_Z n / pow2 e == inject_Z (z * 2 ^ (j - e)))%Q).
  { pose proof (pow2_pos e) as Pe. rewrite <- Hfin. field. lra. }
  rewrite (round_even_comp _ _ Hs), round_even_Z.
  rewrite (Qred_complete _ _ Hfin). apply Qred_Z.
Qed.

(** Integers below 2^53 in magnitude are doubles. *)
Lemma rnd_int (z : Z) : Z.abs z < 2 ^ 53 -> rnd (inject_Z z) = inject_Z z.
Proof.
  intros Hz. pose proof (rnd_scaled z 0 ltac:(lia) Hz) as H.
  now rewrite Z.mul_1_r in H.
Qed.

Lemma round_even_monotone (s t : Q) : (s <= t)%Q -> round_even s <= round_even t.
Proof.
  intros Hst. pose proof (round_even_near s) as Hs. pose proof (round_even_near t) as Ht.
  apply Qabs_Qle_condition in Hs, Ht.
  destruct (Z_le_gt_dec (round_even s) (round_even t)) as [|Hgt]; [assumption|exfalso].
  assert (Hz : (inject_Z (round_even t) + 1 <= inject_Z (round_even s))%Q).
  { change 1%Q with (inject_Z 1). rewrite <- inject_Z_plus, <- Zle_Qle. lia. }
  assert (Heq : (s == t)%Q) by lra.
  rewrite (round_even_comp _ _ Heq) in Hgt. lia.
Qed.

Lemma round_even_tie (s : Q) :
  (Qabs (inject_Z (round_even s) - s) == 1 # 2)%Q -> Z.even (round_even s) = true.
Proof.
  unfold round_even.
  pose proof (Qfloor_le s) as Hlo. pose proof (Qlt_floor s) as Hhi.
  rewrite inject_Z_plus in Hhi. change (inject_Z 1) with 1%Q in Hhi.
  set (f := Qfloor s) in *.
  destruct (s - inject_Z f ?= 1 # 2)%Q eqn:Hc.
  - intros _. destruct (Z.even f) eqn:He; [exact He|].
    rewrite Z.even_add, He. reflexivity.
  - apply Qlt_alt in Hc. intros H. exfalso.
    rewrite Qabs_neg in H by lra. lra.
  - apply Qgt_alt in Hc. intros H. exfalso.
    rewrite inject_Z_plus in H. change (inject_Z 1) with 1%Q in H.
    rewrite Qabs_pos in H by lra. lra.
Qed.

Lemma round_even_unique (s : Q) (a : Z) :
  (Qabs (inject_Z a - s) <= 1 # 2)%Q ->
  ((Qabs (inject_Z a - s) == 1 # 2)%Q -> Z.even a = true) ->
  round_even s = a.
Proof.
  intros Ha Hta. pose proof (round_even_near s) as Hb.
  pose proof (round_even_tie s) as Htb. set (b := round_even s) in *.
  apply Qabs_Qle_condition in Ha, Hb.
  destruct (Z.lt_trichotomy a b) as [Hlt|[Heq|Hgt]]; [exfalso| now symmetry |exfalso].
  - assert (Hz : (inject_Z a + 1 <= inject_Z b)%Q).
    { change 1%Q with (inject_Z 1). rewrite <- inject_Z_plus, <- Zle_Qle. lia. }
    assert (Ea : (inject_Z a - s == - (1 # 2))%Q) by lra.
    assert (Eb : (inject_Z b - s == 1 # 2)%Q) by lra.
    assert (Hab : b = a + 1).
    { assert (Hi : (inject_Z b <= inject_Z (a + 1))%Q).
      { rewrite inject_Z_plus. change (inject_Z 1) with 1%Q. lra. }
      rewrite <- Zle_Qle in Hi. lia. }
    assert (Ta : Z.even a = true) by (apply Hta; rewrite Ea; reflexivity).
    assert (Tb : Z.even b = true) by (apply Htb; rewrite Eb; reflexivity).
    rewrite Hab, Z.even_add, Ta in Tb. discriminate.
  - assert (Hz : (inject_Z b + 1 <= inject_Z a)%Q).
    { change 1%Q with (inject_Z 1). rewrite <- inject_Z_plus, <- Zle_Qle. lia. }
    assert (Ea : (inject_Z a - s == 1 # 2)%Q) by lra.
    assert (Eb : (inject_Z b - s == - (1 # 2))%Q) by lra.
    assert (Hab : a = b + 1).
    { assert (Hi : (inject_Z a <= inject_Z (b + 1))%Q).
      { rewrite inject_Z_plus. change (inject_Z 1) with 1%Q. lra. }
      rewrite <- Zle_Qle in Hi. lia. }
    assert (Ta : Z.even a = true) by (apply Hta; rewrite Ea; reflexivity).
    assert (Tb : Z.even b = true) by (apply Htb; rewrite Eb; reflexivity).
    rewrite Hab, Z.even_add, Tb in Ta. discriminate.
Qed.

Lemma round_even_opp (s : Q) : round_even (- s) = - round_even s.
Proof.
  apply round_even_unique.
  - pose proof (round_even_near s) as H.
    setoid_replace (inject_Z (- round_even s) - - s)%Q
      with (- (inject_Z (round_even s) - s))%Q using relation Qeq by (rewrite inject_Z_opp; ring).
    now rewrite Qabs_opp.
  - setoid_replace (inject_Z (- round_even s) - - s)%Q
      with (- (inject_Z (round_even s) - s))%Q using relation Qeq by (rewrite inject_Z_opp; ring).
    rewrite Qabs_opp. intros H. rewrite Z.even_opp. now apply round_even_tie.
Qed.

Lemma Qabs_opp_eq (q : Q) : Qabs (- q) = Qabs q.
Proof. destruct q as [n d]. cbn. now rewrite Z.abs_opp. Qed.

Lemma Qabs_pos_eq (q : Q) : (0 <= q)%Q -> Qabs q = q.
Proof.
  destruct q as [n d]. unfold Qle. cbn. intros H. f_equal. apply Z.abs_eq. lia.
Qed.

Lemma rnd_opp (q : Q) : rnd (- q) = (- rnd q)%Q.
Proof.
  unfold rnd. assert (Hz : Qzero (- q) = Qzero q).
  { unfold Qzero. destruct (Qeq_bool q 0) eqn:E.
    - apply Qeq_bool_iff in E. apply Qeq_bool_iff. rewrite E. reflexivity.
    - apply not_true_iff_false. intros H. apply Qeq_bool_iff in H.
      apply not_true_iff_false in E. apply E, Qeq_bool_iff.
      rewrite <- (Qopp_opp q), H. reflexivity. }
  rewrite Hz. destruct (Qzero q); [reflexivity|].
  unfold quantum. rewrite Qabs_opp_eq. fold (quantum q).
  rewrite <- Qred_opp. apply Qred_complete.
  assert (E : (- q / pow2 (quantum q) == - (q / pow2 (quantum q)))%Q).
  { unfold Qdiv. ring. }
  rewrite (round_even_comp _ _ E), round_even_opp, inject_Z_opp. ring.
Qed.

Lemma Qlog2_monotone (p q : Q) : (0 < p)%Q -> (p <= q)%Q -> Qlog2 p <= Qlog2 q.
Proof.
  intros Hp Hpq. destruct (Qlog2_spec p Hp) as [H1 _].
  destruct (Qlog2_spec q ltac:(lra)) as [_ H2].
  destruct (Z_le_gt_dec (Qlog2 p) (Qlog2 q)) as [|Hgt]; [assumption|exfalso].
  pose proof (pow2_le (Qlog2 q + 1) (Qlog2 p) ltac:(lia)). lra.
Qed.

Lemma pow2_mul_inv (e : Z) : (pow2 e * pow2 (- e) == 1)%Q.
Proof. rewrite <- pow2_add. now replace (e + - e) with 0 by lia. Qed.

Lemma rnd_monotone_pos (p q : Q) : (0 < p)%Q -> (p <= q)%Q -> (rnd p <= rnd q)%Q.
Proof.
  intros Hp Hpq. assert (Hq : (0 < q)%Q) by lra.
  rewrite (rnd_value p), (rnd_value q) by lra.
  unfold quantum. rewrite !Qabs_pos_eq by lra.
  pose proof (Qlog2_monotone p q Hp Hpq) as HL.
  destruct (Qlog2_spec p Hp) as [Hp1 Hp2]. destruct (Qlog2_spec q Hq) as [Hq1 Hq2].
  set (Lp := Qlog2 p) in *. set (Lq := Qlog2 q) in *.
  set (ep := Z.max (Lp - 52) (-1074)). set (eq := Z.max (Lq - 52) (-1074)).
  pose proof (pow2_pos ep) as Pp. pose proof (pow2_pos eq) as Pq.
  destruct (Z.eq_dec ep eq) as [->|Hne].
  - apply Qmult_le_compat_r; [|lra]. rewrite <- Zle_Qle.
    apply round_even_monotone. apply Qmult_le_compat_r; [exact Hpq|].
    apply Qinv_le_0_compat. lra.
  - assert (Hlt : ep + 1 <= eq) by lia.
    assert (Heq : eq = Lq - 52) by lia.
    (* rnd p <= 2^(ep+53) *)
    assert (H1 : (p / pow2 ep <= inject_Z (2 ^ 53))%Q).
    { apply Qle_shift_div_r; [exact Pp|]. rewrite <- pow2_Z, <- pow2_add by lia.
      pose proof (pow2_le (Lp + 1) (53 + ep) ltac:(lia)). lra. }
    apply round_even_monotone in H1. rewrite round_even_Z in H1.
    assert (H2 : (inject_Z (2 ^ 52) <= q / pow2 eq)%Q).
    { apply Qle_shift_div_l; [exact Pq|]. rewrite <- pow2_Z, <- pow2_add by lia.
      replace (52 + eq) with Lq by lia. exact Hq1. }
    apply round_even_monotone in H2. rewrite round_even_Z in H2.
    rewrite Zle_Qle in H1, H2.
    assert (H3 : (inject_Z (round_even (p / pow2 ep)) * pow2 ep
                  <= inject_Z (2 ^ 53) * pow2 ep)%Q) by (apply Qmult_le_compat_r; lra).
    assert (H4 : (inject_Z (2 ^ 52) * pow2 eq
                  <= inject_Z (round_even (q / pow2 eq)) * pow2 eq)%Q)
      by (apply Qmult_le_compat_r; lra).
    assert (H5 : (inject_Z (2 ^ 53) * pow2 ep <= inject_Z (2 ^ 52) * pow2 eq)%Q).
    { rewrite <- !pow2_Z, <- !pow2_add by lia. apply pow2_le. lia. }
    lra.
Qed.

(** Rounding keeps the order. *)
Lemma rnd_monotone (p q : Q) : (p <= q)%Q -> (rnd p <= rnd q)%Q.
Proof.
  intros Hpq. destruct (Qlt_le_dec 0 p) as [Hp|Hp].
  - now apply rnd_monotone_pos.
  - destruct (Qlt_le_dec q 0) as [Hq|Hq].
    + assert (H : (rnd (- q) <= rnd (- p))%Q) by (apply rnd_monotone_pos; lra).
      rewrite !rnd_opp in H. lra.
    + pose proof (rnd_nonpos p Hp). pose proof (rnd_nonneg q Hq). lra.
Qed.

(** Equal numbers round to the same double. *)
Lemma rnd_comp (p q : Q) : (p == q)%Q -> rnd p = rnd q.
Proof.
  intros H. assert (E : (rnd p == rnd q)%Q).
  { apply Qle_antisym; apply rnd_monotone; lra. }
  unfold rnd in *. assert (Hz : Qzero p = Qzero q).
  { unfold Qzero. destruct (Qeq_bool q 0) eqn:Eq.
    - apply Qeq_bool_iff. apply Qeq_bool_iff in Eq. lra.
    - apply not_true_iff_false. intros Hc. apply Qeq_bool_iff in Hc.
      apply not_true_iff_false in Eq. apply Eq, Qeq_bool_iff. lra. }
  rewrite Hz in *. destruct (Qzero q); [reflexivity|].
  apply Qred_eq_iff. rewrite !Qred_correct in E. exact E.
Qed.

(** A double is a whole multiple of the distance between the doubles
    near it, by less than 2^53. *)
Lemma double_grid (x : Q) :
  rnd x = x -> (0 < x)%Q ->
  exists m : Z, (x == inject_Z m * pow2 (quantum x))%Q /\ 0 < m < 2 ^ 53.
Proof.
  intros Hx Hpos. pose proof (rnd_value x ltac:(lra)) as Hv. rewrite Hx in Hv.
  pose proof (pow2_pos (quantum x)) as Hp.
  set (P := pow2 (quantum x)) in *. set (m := round_even (x / P)) in *.
  exists m. split; [exact Hv|].
  assert (Hm : (0 < inject_Z m)%Q).
  { apply Qnot_le_lt. intros Hc.
    assert ((inject_Z m * P <= 0 * P)%Q) by (apply Qmult_le_compat_r; lra). lra. }
  change 0%Q with (inject_Z 0) in Hm. rewrite <- Zlt_Qlt in Hm. split; [exact Hm|].
  destruct (Qlog2_spec x Hpos) as [_ Hhi].
  assert (Hq : Qlog2 x + 1 <= 53 + quantum x).
  { unfold quantum. rewrite (Qabs_pos_eq x) by lra. lia. }
  pose proof (pow2_le _ _ Hq) as Hle. rewrite (pow2_add 53 (quantum x)) in Hle.
  fold P in Hle.
  rewrite (pow2_Z 53) in Hle by lia.
  assert (Hlt : (inject_Z m * P < inject_Z (2 ^ 53) * P)%Q) by lra.
  apply Qmult_lt_r in Hlt; [|exact Hp]. now rewrite <- Zlt_Qlt in Hlt.
Qed.

(** A whole number below 2^53 times a power of two from 2^-1074 on is a
    double. *)
Lemma rnd_grid (z e : Z) :
  -1074 <= e -> Z.abs z < 2 ^ 53 ->
  (rnd (inject_Z z * pow2 e) == inject_Z z * pow2 e)%Q.
Proof.
  intros He Hz. destruct (Z.eq_dec z 0) as [->|Hnz].
  { rewrite rnd_zero; [|ring]. ring. }
  pose proof (pow2_pos e) as Pe.
  set (q := (inject_Z z * pow2 e)%Q).
  assert (Hq : ~ (q == 0)%Q).
  { unfold q. intros H. apply Qmult_integral in H as [H|H]; [|lra].
    apply Hnz. unfold Qeq in H. cbn in H. lia. }
  rewrite (rnd_value q Hq).
  assert (Ha : (Qabs q == inject_Z (Z.abs z) * pow2 e)%Q).
  { unfold q. rewrite Qabs_Qmult. rewrite (Qabs_pos (pow2 e)) by lra. reflexivity. }
  assert (Hpos : (0 < Qabs q)%Q).
  { rewrite Ha. apply Qmult_lt_0_compat; [|exact Pe].
    change 0%Q with (inject_Z 0). rewrite <- Zlt_Qlt. lia. }
  destruct (Qlog2_spec _ Hpos) as [Hlo _].
  set (L := Qlog2 (Qabs q)) in *.
  assert (HL : L <= 52 + e).
  { destruct (Z_le_gt_dec L (52 + e)) as [|Hgt]; [assumption|exfalso].
    pose proof (pow2_le (53 + e) L ltac:(lia)) as H53.
    rewrite (pow2_add 53 e), (pow2_Z 53) in H53 by lia.
    assert (Hlt : (inject_Z (Z.abs z) * pow2 e < inject_Z (2 ^ 53) * pow2 e)%Q).
    { apply Qmult_lt_r; [exact Pe|]. now rewrite <- Zlt_Qlt. }
    lra. }
  unfold quantum. fold L. set (d := Z.max (L - 52) (-1074)).
  assert (Hd : -1074 <= d <= e) by lia.
  assert (Hfin : (inject_Z (z * 2 ^ (e - d)) * pow2 d == q)%Q).
  { unfold q. rewrite inject_Z_mult, <- (pow2_Z (e - d)), <- Qmult_assoc, <- pow2_add by lia.
    now replace (e - d + d) with e by lia. }
  assert (Hs : (q / pow2 d == inject_Z (z * 2 ^ (e - d)))%Q).
  { pose proof (pow2_pos d) as Pd. rewrite <- Hfin. field. lra. }
  rewrite (round_even_comp _ _ Hs), round_even_Z. exact Hfin.
Qed.

Lemma Qlog2_below (q : Q) (e : Z) : (0 < q)%Q -> (q < pow2 e)%Q -> Qlog2 q < e.
Proof.
  intros Hq Hlt. destruct (Qlog2_spec q Hq) as [Hlo _].
  destruct (Z_lt_ge_dec (Qlog2 q) e) as [|Hge]; [assumption|exfalso].
  pose proof (pow2_le e (Qlog2 q) ltac:(lia)). lra.
Qed.

Lemma Qlog2_above (q : Q) (e : Z) : (0 < q)%Q -> (pow2 e <= q)%Q -> e <= Qlog2 q.
Proof.
  intros Hq Hle. destruct (Qlog2_spec q Hq) as [_ Hhi].
  destruct (Z_le_gt_dec e (Qlog2 q)) as [|Hgt]; [assumption|exfalso].
  pose proof (pow2_le (Qlog2 q + 1) e ltac:(lia)). lra.
Qed.

(** The two constants, for linear arithmetic. *)
Lemma unit_roundoff_value : (unit_roundoff == 1 # 9007199254740992)%Q.
Proof. vm_compute. reflexivity. Qed.

Lemma tiniest_small : (0 < tiniest)%Q /\ (tiniest <= 1 # 1180591620717411303424)%Q.
Proof.
  split; [apply pow2_pos|]. apply Qle_bool_iff. vm_compute. reflexivity.
Qed.

Lemma pow2_1024_large : (inject_Z (2 ^ 53) < pow2 1024)%Q.
Proof.
  rewrite <- pow2_Z by lia. apply Qpower_lt_compat_l; [lia|reflexivity].
Qed.

(** A result below 2^1024 is finite. *)
Lemma double_finite (q : Q) :
  (Qabs (rnd q) < pow2 1024)%Q -> double q = Fin (rnd q).
Proof.
  intros H. unfold double.
  destruct (Qle_bool (pow2 1024) (Qabs (rnd q))) eqn:E; [|reflexivity].
  apply Qle_bool_iff in E. lra.
Qed.

Lemma double_comp (p q : Q) : (p == q)%Q -> double p = double q.
Proof. intros H. unfold double. now rewrite (rnd_comp p q H). Qed.

Lemma double_int (z : Z) : Z.abs z < 2 ^ 53 -> double (inject_Z z) = Fin (inject_Z z).
Proof.
  intros Hz. rewrite double_finite; rewrite (rnd_int z Hz); [reflexivity|].
  change (Qabs (inject_Z z)) with (inject_Z (Z.abs z)).
  pose proof pow2_1024_large. rewrite Zlt_Qlt in Hz. lra.
Qed.

Lemma double_times_4 (z : Z) :
  Z.abs z < 2 ^ 53 -> double (inject_Z (z * 2 ^ 2)) = Fin (inject_Z (z * 2 ^ 2)).
Proof.
  intros Hz. rewrite double_finite; rewrite (rnd_scaled z 2 ltac:(lia) Hz); [reflexivity|].
  change (Qabs (inject_Z (z * 2 ^ 2))) with (inject_Z (Z.abs (z * 2 ^ 2))).
  assert (H : (inject_Z (Z.abs (z * 2 ^ 2)) <= inject_Z (2 ^ 55))%Q)
    by (rewrite <- Zle_Qle; lia).
  assert (H' : (inject_Z (2 ^ 55) < pow2 1024)%Q).
  { rewrite <- pow2_Z by lia. apply Qpower_lt_compat_l; [lia|reflexivity]. }
  lra.
Qed.

Lemma Qfloor_unique (q : Q) (k : Z) :
  (inject_Z k <= q < inject_Z k + 1)%Q -> Qfloor q = k.
Proof.
  intros [H1 H2]. pose proof (Qfloor_le q) as Hl. pose proof (Qlt_floor q) as Hu.
  rewrite inject_Z_plus in Hu. change (inject_Z 1) with 1%Q in Hu.
  assert (A : (inject_Z k < inject_Z (Qfloor q + 1))%Q).
  { rewrite inject_Z_plus. change (inject_Z 1) with 1%Q. lra. }
  assert (B : (inject_Z (Qfloor q) < inject_Z (k + 1))%Q).
  { rewrite inject_Z_plus. change (inject_Z 1) with 1%Q. lra. }
  rewrite <- Zlt_Qlt in A, B. lia.
Qed.

(** ** Formatting times *)

Lemma append_empty_r (s : string) : s +. "" = s.
Proof.
  induction s as [|c s IH]; [reflexivity|].
  change (String c (s +. "") = String c s). now rewrite IH.
Qed.

Lemma append_append (a b c : string) : a +. b +. c = a +. (b +. c).
Proof.
  induction a as [|x a IH]; [reflexivity|].
  change (String x (a +. b +. c) = String x (a +. (b +. c))). now rewrite IH.
Qed.

Lemma Qzero_int (z : Z) : Qzero (inject_Z z) = (z =? 0).
Proof.
  destruct (Z.eqb_spec z 0) as [->|Hz]; [reflexivity|].
  apply not_true_iff_false. intros H%Qzero_spec. apply Hz.
  unfold Qeq in H. cbn in H. lia.
Qed.

Lemma num_or_int (z : Z) : num_or (Fin (inject_Z z)) (Fin 0) = Fin (inject_Z z).
Proof.
  unfold num_or, num_truthy. rewrite Qzero_int.
  destruct (Z.eqb_spec z 0) as [->|]; reflexivity.
Qed.

Lemma num_lt_int (a b : Z) : num_lt (Fin (inject_Z a)) (Fin (inject_Z b)) = (a <? b).
Proof.
  unfold num_lt. destruct (Z.ltb_spec a b) as [H|H].
  - apply negb_true_iff, not_true_iff_false. intros Hc%Qle_bool_iff.
    rewrite <- Zle_Qle in Hc. lia.
  - apply negb_false_iff, Qle_bool_iff. now rewrite <- Zle_Qle.
Qed.

(** The minutes: dividing a whole number of seconds by 60 in doubles
    and rounding down gives the integer quotient. *)
Lemma floor_div_60 (n : Z) :
  Z.abs n < 2 ^ 53 ->
  Math_floor (num_div (Fin (inject_Z n)) (Fin 60)) = Fin (inject_Z (n / 60)).
Proof.
  intros Hn. unfold num_div. change (Qzero 60) with false. cbv iota.
  set (x := (inject_Z n / 60)%Q). set (k := n / 60).
  pose proof (Z.div_mod n 60 ltac:(lia)) as Hdm. fold k in Hdm.
  pose proof (Z.mod_pos_bound n 60 ltac:(lia)) as Hm.
  assert (Hk : Z.abs k < 2 ^ 53) by lia.
  assert (Hx : (inject_Z n == 60 * x)%Q) by (unfold x; field).
  assert (Hnk : (inject_Z n == 60 * inject_Z k + inject_Z (n mod 60))%Q).
  { rewrite Hdm at 1. rewrite inject_Z_plus, inject_Z_mult. reflexivity. }
  assert (Hm0 : (0 <= inject_Z (n mod 60))%Q).
  { change 0%Q with (inject_Z 0). rewrite <- Zle_Qle. lia. }
  assert (Hm59 : (inject_Z (n mod 60) <= 59)%Q).
  { change 59%Q with (inject_Z 59). rewrite <- Zle_Qle. lia. }
  assert (Hlo : (inject_Z k <= rnd x)%Q).
  { rewrite <- (rnd_int k Hk). apply rnd_monotone. lra. }
  assert (Hhi : (rnd x < inject_Z k + 1)%Q).
  { pose proof (rnd_error x) as He. apply Qabs_Qle_condition in He.
    assert (Hax : (Qabs x <= 9007199254740991 # 60)%Q).
    { assert (Hn1 : (inject_Z n <= 9007199254740991)%Q).
      { change 9007199254740991%Q with (inject_Z 9007199254740991).
        rewrite <- Zle_Qle. lia. }
      assert (Hn2 : (- (9007199254740991) <= inject_Z n)%Q).
      { change (- (9007199254740991))%Q with (inject_Z (- 9007199254740991)).
        rewrite <- Zle_Qle. lia. }
      apply Qabs_Qle_condition. lra. }
    pose proof unit_roundoff_value as Hu. pose proof tiniest_small as [_ Ht].
    rewrite Hu in He. lra. }
  assert (Habs : (Qabs (rnd x) < pow2 1024)%Q).
  { pose proof pow2_1024_large as Hp.
    assert (Hk1 : (inject_Z k + 1 <= inject_Z (2 ^ 53))%Q).
    { change 1%Q with (inject_Z 1). rewrite <- inject_Z_plus, <- Zle_Qle. lia. }
    assert (Hk2 : (- inject_Z (2 ^ 53) <= inject_Z k)%Q).
    { rewrite <- inject_Z_opp, <- Zle_Qle. lia. }
    apply Qabs_Qlt_condition. lra. }
  rewrite (double_finite x Habs). cbn [Math_floor]. do 2 f_equal.
  apply Qfloor_unique. split; assumption.
Qed.

(** The minutes of a double below 2^53: the quotient by 60 is rounded,
    but never up to the next whole number. *)
Lemma minutes_of_double (x : Q) :
  rnd x = x -> (0 <= x < inject_Z (2 ^ 53))%Q ->
  Qfloor (rnd (x / 60)) = Qfloor (x / 60)
  /\ 0 <= Qfloor (x / 60) < 2 ^ 53.
Proof.
  intros Hx [H0 H53]. set (y := (x / 60)%Q). set (k := Qfloor y).
  assert (Hy : (x == 60 * y)%Q) by (unfold y; field).
  pose proof (Qfloor_le y) as Hk1. pose proof (Qlt_floor y) as Hk2. fold k in Hk1, Hk2.
  rewrite inject_Z_plus in Hk2. change (inject_Z 1) with 1%Q in Hk2.
  assert (Hk0 : 0 <= k).
  { change 0 with (Qfloor 0). apply Qfloor_resp_le. lra. }
  assert (Hk53 : k < 2 ^ 53).
  { rewrite Zlt_Qlt. assert ((0 <= inject_Z k)%Q) by (change 0%Q with (inject_Z 0); now rewrite <- Zle_Qle).
    lra. }
  split; [|split; assumption].
  apply Qfloor_unique. split.
  { rewrite <- (rnd_int k) by lia. apply rnd_monotone. exact Hk1. }
  assert (Hk' : (0 <= inject_Z k)%Q) by (change 0%Q with (inject_Z 0); now rewrite <- Zle_Qle).
  destruct (Qlt_le_dec y (1 # 2)) as [Hsmall|Hbig].
  { pose proof (rnd_error y) as He. rewrite (Qabs_pos_eq y) in He by lra.
    apply Qabs_Qle_condition in He. rewrite unit_roundoff_value in He.
    pose proof tiniest_small as [_ Ht]. lra. }
  assert (Hxpos : (0 < x)%Q) by lra.
  destruct (double_grid x Hx Hxpos) as (m & Hm & Hm0 & Hm53).
  pose proof (pow2_pos (quantum x)) as HP.
  assert (HLx : Qlog2 x <= 52).
  { assert (H : Qlog2 x < 53) by (apply Qlog2_below; [lra|]; rewrite pow2_Z by lia; lra).
    lia. }
  assert (He : Z.max (Qlog2 x - 52) (-1074) = quantum x).
  { unfold quantum. now rewrite (Qabs_pos_eq x) by lra. }
  set (e := quantum x) in *. set (P := pow2 e) in *.
  assert (He0 : e <= 0) by lia.
  (* the next multiple of 60 is on the grid of x *)
  set (N := 60 * (k + 1)).
  assert (HN : (x < inject_Z N)%Q).
  { unfold N. rewrite inject_Z_mult, inject_Z_plus.
    change (inject_Z 60) with 60%Q. change (inject_Z 1) with 1%Q. lra. }
  assert (HNP : (inject_Z N == inject_Z (N * 2 ^ (- e)) * P)%Q).
  { rewrite inject_Z_mult, <- (pow2_Z (- e)) by lia. unfold P.
    rewrite <- Qmult_assoc, <- pow2_add. replace (- e + e) with 0 by lia.
    change (pow2 0) with 1%Q. ring. }
  assert (Hstep : (x + P <= inject_Z N)%Q).
  { rewrite HNP, Hm in HN. apply Qmult_lt_r in HN; [|exact HP].
    rewrite <- Zlt_Qlt in HN.
    assert (Hle : (inject_Z (m + 1) <= inject_Z (N * 2 ^ (- e)))%Q)
      by (rewrite <- Zle_Qle; lia).
    assert (Hle' : (inject_Z (m + 1) * P <= inject_Z (N * 2 ^ (- e)) * P)%Q)
      by (apply Qmult_le_compat_r; lra).
    rewrite <- HNP, inject_Z_plus in Hle'. change (inject_Z 1) with 1%Q in Hle'.
    rewrite Hm. lra. }
  assert (Hgap : (y + P * (1 # 60) <= inject_Z k + 1)%Q).
  { unfold N in Hstep. rewrite inject_Z_mult, inject_Z_plus in Hstep.
    change (inject_Z 60) with 60%Q in Hstep. change (inject_Z 1) with 1%Q in Hstep. lra. }
  (* y is five binary orders below x *)
  assert (Hypos : (0 < y)%Q) by lra.
  destruct (Qlog2_spec x Hxpos) as [_ Hxhi].
  assert (HLy : Qlog2 y <= Qlog2 x - 5).
  { assert (H : Qlog2 y < Qlog2 x - 4); [|lia].
    apply Qlog2_below; [exact Hypos|].
    assert (E : (pow2 (Qlog2 x + 1) == 32 * pow2 (Qlog2 x - 4))%Q).
    { replace (Qlog2 x + 1) with (5 + (Qlog2 x - 4)) by lia. now rewrite pow2_add. }
    lra. }
  assert (HLy' : -1 <= Qlog2 y).
  { apply Qlog2_above; [exact Hypos|]. exact Hbig. }
  assert (Hqy : quantum y <= e - 5).
  { unfold quantum. rewrite (Qabs_pos_eq y) by lra. lia. }
  pose proof (rnd_error_quantum y ltac:(lra)) as Herr.
  apply Qabs_Qle_condition in Herr.
  pose proof (pow2_le _ _ Hqy) as Hple.
  assert (E : (P == 32 * pow2 (e - 5))%Q).
  { unfold P. replace e with (5 + (e - 5)) at 1 by lia. now rewrite pow2_add. }
  pose proof (pow2_pos (e - 5)). pose proof (pow2_pos (quantum y)).
  lra.
Qed.

(** The remaining seconds of a double below 2^53 are a double: the
    subtraction is exact. *)
Lemma seconds_of_double (x : Q) :
  rnd x = x -> (0 <= x < inject_Z (2 ^ 53))%Q ->
  (rnd (x - inject_Z (Qfloor (x / 60) * 60)) == x - inject_Z (Qfloor (x / 60) * 60))%Q
  /\ (0 <= x - inject_Z (Qfloor (x / 60) * 60) < 60)%Q.
Proof.
  intros Hx [H0 H53]. set (y := (x / 60)%Q). set (k := Qfloor y).
  assert (Hy : (x == 60 * y)%Q) by (unfold y; field).
  pose proof (Qfloor_le y) as Hk1. pose proof (Qlt_floor y) as Hk2. fold k in Hk1, Hk2.
  rewrite inject_Z_plus in Hk2. change (inject_Z 1) with 1%Q in Hk2.
  assert (Hk0 : 0 <= k).
  { change 0 with (Qfloor 0). apply Qfloor_resp_le. lra. }
  assert (Hk' : (0 <= inject_Z k)%Q) by (change 0%Q with (inject_Z 0); now rewrite <- Zle_Qle).
  assert (Ek : (inject_Z (k * 60) == 60 * inject_Z k)%Q).
  { rewrite inject_Z_mult. change (inject_Z 60) with 60%Q. ring. }
  assert (Hrange : (0 <= x - inject_Z (k * 60) < 60)%Q) by (rewrite Ek; lra).
  split; [|exact Hrange].
  destruct (Qle_lt_or_eq _ _ H0) as [Hxpos|Hxz].
  2:{ assert (Ez : (x - inject_Z (k * 60) == 0)%Q) by (rewrite Ek; lra).
      rewrite (rnd_zero _ Ez). now rewrite Ez. }
  destruct (double_grid x Hx Hxpos) as (m & Hm & Hm0 & Hm53).
  pose proof (pow2_pos (quantum x)) as HP.
  assert (HLx : Qlog2 x <= 52).
  { assert (H : Qlog2 x < 53) by (apply Qlog2_below; [lra|]; rewrite pow2_Z by lia; lra).
    lia. }
  assert (He : Z.max (Qlog2 x - 52) (-1074) = quantum x).
  { unfold quantum. now rewrite (Qabs_pos_eq x) by lra. }
  set (e := quantum x) in *. set (P := pow2 e) in *.
  assert (He0 : -1074 <= e <= 0) by lia.
  assert (HkP : (inject_Z (k * 60) == inject_Z (k * 60 * 2 ^ (- e)) * P)%Q).
  { rewrite (inject_Z_mult (k * 60)), <- (pow2_Z (- e)) by lia. unfold P.
    rewrite <- Qmult_assoc, <- pow2_add. replace (- e + e) with 0 by lia.
    change (pow2 0) with 1%Q. ring. }
  set (z := m - k * 60 * 2 ^ (- e)).
  assert (Ez : (x - inject_Z (k * 60) == inject_Z z * P)%Q).
  { unfold z. unfold Z.sub. rewrite inject_Z_plus, inject_Z_opp. rewrite Hm at 1.
    rewrite HkP at 1. ring. }
  assert (Hz : 0 <= z < 2 ^ 53).
  { assert (Hz0 : (inject_Z 0 * P <= inject_Z z * P)%Q).
    { rewrite <- Ez. change (inject_Z 0) with 0%Q. lra. }
    apply Qmult_le_r in Hz0; [|exact HP]. rewrite <- Zle_Qle in Hz0.
    pose proof (Z.pow_pos_nonneg 2 (- e) ltac:(lia) ltac:(lia)). unfold z in *. nia. }
  rewrite (rnd_comp _ _ Ez), Ez. apply rnd_grid; lia.
Qed.

(** The product of the minutes and 60 is a whole number below 2^55 that
    4 divides, hence a double. *)
Lemma num_mul_60 (k : Z) :
  Z.abs k * 60 < 2 ^ 55 ->
  num_mul (Fin (inject_Z k)) (Fin 60) = Fin (inject_Z (k * 60)).
Proof.
  intros Hk. unfold num_mul.
  replace (k * 60) with (k * 15 * 2 ^ 2) by lia.
  rewrite (double_comp _ (inject_Z (k * 15 * 2 ^ 2))).
  - apply double_times_4. lia.
  - change 60%Q with (inject_Z 60). rewrite <- inject_Z_mult.
    now replace (k * 15 * 2 ^ 2) with (k * 60) by lia.
Qed.

(** [formatTime] on a whole number of seconds. *)
Lemma formatTime_finite (secs : Z) :
  Z.abs secs < 2 ^ 53 ->
  formatTime (Fin (inject_Z secs))
  = [Num (Fin (inject_Z (secs / 60))); Str ":";
     Str (if secs mod 60 <? 10 then "0" else ""); Num (Fin (inject_Z (secs mod 60)))].
Proof.
  intros Hs. unfold formatTime.
  pose proof (Z.div_mod secs 60 ltac:(lia)) as Hdm.
  pose proof (Z.mod_pos_bound secs 60 ltac:(lia)) as Hm.
  rewrite floor_div_60, num_or_int, num_mul_60 by lia.
  assert (Hsub : num_sub (Fin (inject_Z secs)) (Fin (inject_Z (secs / 60 * 60)))
                 = Fin (inject_Z (secs mod 60))).
  { unfold num_sub.
    rewrite (double_comp _ (inject_Z (secs mod 60))).
    - apply double_int. lia.
    - unfold Qminus. rewrite <- inject_Z_opp, <- inject_Z_plus.
      replace (secs + - (secs / 60 * 60)) with (secs mod 60) by lia. reflexivity. }
  rewrite Hsub. rewrite num_or_int.
  change (Fin 10) with (Fin (inject_Z 10)). now rewrite num_lt_int.
Qed.

(** A rounded number is in lowest terms, so it is 0 itself when it is
    zero. *)
Lemma num_or_rnd (q : Q) : num_or (Fin (rnd q)) (Fin 0) = Fin (rnd q).
Proof.
  unfold num_or, num_truthy. destruct (Qzero (rnd q)) eqn:Hz; [|reflexivity].
  cbn [negb]. f_equal. apply Qzero_spec in Hz. unfold rnd in *.
  destruct (Qzero q); [reflexivity|].
  rewrite Qred_correct in Hz. now rewrite (Qred_complete _ _ Hz).
Qed.

(** [formatTime] on a double from 0 to below 2^53, whole or not. *)
Lemma formatTime_double (x : Q) :
  rnd x = x -> (0 <= x < inject_Z (2 ^ 53))%Q ->
  formatTime (Fin x)
  = [Num (Fin (inject_Z (Qfloor (x / 60)))); Str ":";
     Str (if negb (Qle_bool 10 (rnd (x - inject_Z (Qfloor (x / 60) * 60))))
          then "0" else "");
     Num (Fin (rnd (x - inject_Z (Qfloor (x / 60) * 60))))].
Proof.
  intros Hx Hr. destruct (minutes_of_double x Hx Hr) as (Hfloor & Hk0 & Hk53).
  destruct (seconds_of_double x Hx Hr) as (Hsec & Hs0 & Hs60).
  destruct Hr as [H0 H53]. unfold formatTime.
  pose proof pow2_1024_large as Hbig.
  assert (Hdiv : num_div (Fin x) (Fin 60) = Fin (rnd (x / 60))).
  { unfold num_div. change (Qzero 60) with false. cbv iota.
    apply double_finite.
    pose proof (rnd_nonneg (x / 60) ltac:(apply Qle_shift_div_l; lra)) as Hn.
    assert (Hle : (rnd (x / 60) <= rnd x)%Q).
    { apply rnd_monotone. apply Qle_shift_div_r; lra. }
    rewrite Hx in Hle. rewrite (Qabs_pos_eq _ Hn). lra. }
  rewrite Hdiv. cbn [Math_floor]. rewrite Hfloor, num_or_int.
  set (k := Qfloor (x / 60)) in *.
  assert (Hk60 : k * 60 < 2 ^ 53).
  { rewrite Zlt_Qlt. lra. }
  rewrite num_mul_60 by lia.
  assert (Hsub : num_sub (Fin x) (Fin (inject_Z (k * 60)))
                 = Fin (rnd (x - inject_Z (k * 60)))).
  { unfold num_sub. apply double_finite. rewrite Hsec.
    rewrite Qabs_pos by lra.
    assert ((60 <= inject_Z (2 ^ 53))%Q) by (apply Qle_bool_iff; reflexivity). lra. }
  rewrite Hsub, num_or_rnd. reflexivity.
Qed.

(** [formatTime] does not tell two fractions of the same value
    apart. *)
Lemma formatTime_comp (p q : Q) : (p == q)%Q -> formatTime (Fin p) = formatTime (Fin q).
Proof.
  intros H. unfold formatTime.
  assert (Hd : num_div (Fin p) (Fin 60) = num_div (Fin q) (Fin 60)).
  { unfold num_div. change (Qzero 60) with false. cbv iota.
    apply double_comp. now rewrite H. }
  rewrite Hd.
  set (minutes := num_mul (num_or (Math_floor (num_div (Fin q) (Fin 60))) (Fin 0)) (Fin 60)).
  assert (Hs : num_sub (Fin p) minutes = num_sub (Fin q) minutes).
  { destruct minutes; try reflexivity. unfold num_sub. apply double_comp. now rewrite H. }
  now rewrite Hs.
Qed.

Lemma safe_integer_int (z : Z) : Z.abs z < 2 ^ 53 -> safe_integer (inject_Z z) = Some z.
Proof.
  intros Hz. unfold safe_integer. rewrite Qred_Z. cbn [Qnum Qden inject_Z].
  destruct (Z.ltb_spec (Z.abs z) (2 ^ 53)); [reflexivity|lia].
Qed.

(** The text of the pieces [formatTime] joins. *)
Lemma as_string_time (m s : Z) (pad : string) :
  Z.abs m < 2 ^ 53 -> Z.abs s < 2 ^ 53 ->
  as_string [Num (Fin (inject_Z m)); Str ":"; Str pad; Num (Fin (inject_Z s))]
  = Some (decimal m +. ":" +. pad +. decimal s).
Proof.
  intros Hm Hs. cbn [as_string Number_toString].
  rewrite !safe_integer_int by assumption. cbn [option_map].
  now rewrite append_empty_r, !append_append.
Qed.

Lemma formatTime_text (secs : Z) :
  Z.abs secs < 2 ^ 53 ->
  as_string (formatTime (Fin (inject_Z secs))) = Some (minutes_colon_seconds secs).
Proof.
  intros Hs. rewrite formatTime_finite by assumption.
  pose proof (Z.div_mod secs 60 ltac:(lia)) as Hdm.
  pose proof (Z.mod_pos_bound secs 60 ltac:(lia)) as Hm.
  rewrite as_string_time by lia.
  unfold minutes_colon_seconds, two_digits.
  destruct (secs mod 60 <? 10).
  - now rewrite !append_append.
  - now rewrite append_empty_r.
Qed.

Lemma two_digits_length (m : Z) :
  0 <= m < 60 -> String.length (two_digits m) = 2%nat.
Proof.
  intros Hm.
  assert (H : forallb (fun k => Nat.eqb (String.length (two_digits (Z.of_nat k))) 2)
                (seq 0 60) = true) by (vm_compute; reflexivity).
  rewrite forallb_forall in H.
  specialize (H (Z.to_nat m)).
  rewrite Z2Nat.id in H by lia.
  apply Nat.eqb_eq, H, in_seq. lia.
Qed.

(** ** Running computations *)

Lemma bind_run {A B} (c : M A) (f : A -> M B) (w : World) :
  (c ≫= f) w =
  match c w with
  | Returned a w' => f a w'
  | TypeError w' => TypeError w'
  end.
Proof. reflexivity. Qed.

Lemma ret_run {A} (a : A) (w : World) : (mret a : M A) w = Returned a w.
Proof. reflexivity. Qed.

Lemma at_index_alter (f : Track -> Track) (p : list Track) (i : Z) :
  at_index (alter f (Z.to_nat i) p) i = f <$> at_index p i.
Proof.
  unfold at_index. destruct (i <? 0); [reflexivity|].
  apply list_lookup_alter_eq.
Qed.

Lemma at_index_alter_ne (f : Track -> Track) (p : list Track) (i j : Z) :
  0 <= i -> i <> j -> at_index (alter f (Z.to_nat i) p) j = at_index p j.
Proof.
  intros Hi Hij. unfold at_index. destruct (Z.ltb_spec j 0); [reflexivity|].
  apply list_lookup_alter_ne. lia.
Qed.

Lemma at_index_valid (p : list Track) (i : Z) (t : Track) :
  at_index p i = Some t -> 0 <= i < Z.of_nat (length p).
Proof.
  unfold at_index. destruct (Z.ltb_spec i 0) as [Hlt|Hge]; [discriminate|].
  intros Hsome%lookup_lt_Some. lia.
Qed.

Lemma valid_at_index (p : list Track) (i : Z) :
  0 <= i < Z.of_nat (length p) -> exists t, at_index p i = Some t.
Proof.
  intros Hi. unfold at_index. destruct (Z.ltb_spec i 0); [lia|].
  apply lookup_lt_is_Some_2. lia.
Qed.

(** One step of symbolic execution of a computation on a world. *)
Ltac exec :=
  repeat first
    [ rewrite bind_run
    | rewrite ret_run
    | rewrite at_index_alter
    | progress cbn [gets modify throw set_dom record
                    requestAnimationFrame setTimeout put_howl
                    world_of returned
                    playlist index doc master innerWidth innerHeight sliderDown
                    frames timers calls
                    with_playlist with_index with_doc with_master with_viewport
                    with_sliderDown with_frames with_timers with_calls
                    howl with_howl fmap option_fmap option_map] ].

Ltac open_world w :=
  destruct w as [p ix d m iw ih sd fr tm cs];
  cbn [playlist index doc master innerWidth innerHeight sliderDown
       frames timers calls] in *.

(** ** Handles in an updated playlist *)

Lemma howl_on_put (p : list Track) (i : Z) (t : Track) (h : Howl) :
  at_index p i = Some t ->
  howl_on (alter (with_howl (Some h)) (Z.to_nat i) p) i = Some h.
Proof.
  intros H. unfold howl_on. now rewrite at_index_alter, H.
Qed.

Lemma howl_on_put_ne (p : list Track) (i j : Z) (t : Track) (h : Howl) :
  at_index p i = Some t -> i <> j ->
  howl_on (alter (with_howl (Some h)) (Z.to_nat i) p) j = howl_on p j.
Proof.
  intros H Hij. unfold howl_on.
  rewrite at_index_alter_ne; [reflexivity| |assumption].
  apply at_index_valid in H. lia.
Qed.

Lemma put_put (p : list Track) (n : nat) (h h' : Howl) :
  alter (with_howl (Some h')) n (alter (with_howl (Some h)) n p)
  = alter (with_howl (Some h')) n p.
Proof.
  rewrite list_alter_alter_eq. apply list_alter_ext; [|reflexivity].
  now intros [] _.
Qed.

Lemma creations_app (i : Z) (cs cs' : list Call) :
  creations i (cs ++ cs') = (creations i cs + creations i cs')%nat.
Proof.
  induction cs as [|c cs IH]; [reflexivity|].
  cbn [app creations]. rewrite IH. lia.
Qed.

(** ** What the methods do to the player *)

(** [play] on a track that exists returns; the handle of the track is
    the old one, or a new one, after [play()]. *)
Lemma play_effect (arg : option Z) (w : World) (data : Track) :
  at_index (playlist w) (target arg w) = Some data ->
  exists w',
    play arg w = Returned tt w'
    /\ index w' = target arg w
    /\ playlist w' =
         alter (with_howl (Some (Howl_play
                  (match howl data with
                   | Some h => h
                   | None => Howl_new (sources (file data)) true
                   end))))
           (Z.to_nat (target arg w)) (playlist w)
    /\ calls w' = calls w
         ++ (match howl data with Some _ => [] | None => [NewHowl (target arg w)] end)
         ++ [Play (target arg w)]
    /\ frames w' = frames w
    /\ innerWidth w' = innerWidth w.
Proof.
  intros H. open_world w.
  assert (Ht : target arg (mkWorld p ix d m iw ih sd fr tm cs)
               = match arg with Some i => i | None => ix end) by reflexivity.
  rewrite Ht in *. clear Ht.
  unfold play, call_howl, howl_of, track_of. exec.
  set (i := match arg with Some i => i | None => ix end) in *.
  rewrite H. exec.
  destruct (howl data) as [h|] eqn:Hh; exec; rewrite H; exec; rewrite ?Hh; exec;
    rewrite ?H; exec.
  - destruct (is_loaded (Howl_play h)); exec; eexists; repeat split; reflexivity.
  - rewrite put_put.
    match goal with |- context [is_loaded ?x] => destruct (is_loaded x) end;
      exec; eexists; (split; [reflexivity|]); repeat split; try reflexivity;
      now rewrite <- app_assoc.
Qed.

(** [pause] pauses the current handle, and throws when there is none. *)
Lemma pause_effect (w : World) :
  match current_howl w with
  | Some h =>
      exists w',
        pause w = Returned tt w'
        /\ index w' = index w
        /\ playlist w' =
             alter (with_howl (Some (Howl_pause h))) (Z.to_nat (index w)) (playlist w)
        /\ calls w' = calls w ++ [Pause (index w)]
  | None => pause w = TypeError w
  end.
Proof.
  open_world w. unfold current_howl, howl_on, pause, call_howl, howl_of, track_of.
  exec. destruct (at_index p ix) as [t|] eqn:Ht; exec; [|reflexivity].
  destruct (howl t) as [h|] eqn:Hh; exec; [|reflexivity].
  eexists. repeat split; reflexivity.
Qed.

Lemma skipTo_run (i : Z) (w : World) (t : Track) :
  at_index (playlist w) (index w) = Some t ->
  skipTo i w = play (Some i) (before_play w).
Proof.
  intros Ht. open_world w.
  unfold before_play, current_howl, howl_on, skipTo, call_howl, howl_of, track_of.
  exec. rewrite Ht. exec.
  destruct (howl t) as [h|] eqn:Hh; exec; [|reflexivity].
  rewrite Ht. exec. rewrite Hh. exec. reflexivity.
Qed.

(** [seek] moves the current handle when it is playing and does nothing
    otherwise; it throws when there is no handle. *)
Lemma seek_effect (per : Q) (w : World) :
  match current_howl w with
  | Some h =>
      if Howl_playing h then
        seek per w = Returned tt
          (with_playlist
             (alter (with_howl (Some (Howl_seek_to (fmul (Howl_duration h) per) h)))
                (Z.to_nat (index w)) (playlist w))
             (with_calls (calls w ++ [Seek (index w) (fmul (Howl_duration h) per)]) w))
      else seek per w = Returned tt w
  | None => seek per w = TypeError w
  end.
Proof.
  open_world w. unfold current_howl, howl_on, seek, call_howl, howl_of, track_of.
  exec. destruct (at_index p ix) as [t|] eqn:Ht; exec; [|reflexivity].
  destruct (howl t) as [h|] eqn:Hh; exec; [|reflexivity].
  destruct (Howl_playing h); exec; [|reflexivity].
  rewrite Ht. exec. rewrite Hh. exec. reflexivity.
Qed.

(** [step] writes the timer and the progress bar and asks for another
    frame while the handle is playing; it throws when there is no handle. *)
Lemma step_effect (w : World) :
  match current_howl w with
  | Some h =>
      step w = Returned tt
        (with_frames (if Howl_playing h then S (frames w) else frames w)
           (with_doc
              (<["progress.style.width" :=
                   Percent (num_or (num_mul (num_div (to_number
                       (val_or (Howl_seek h) (VNum (Fin 0%Q))))
                       (Fin (Howl_duration h))) (Fin 100%Q)) (Fin 0%Q))]>
                 (<["timer.innerHTML" :=
                      Joined (formatTime (Math_round (to_number
                        (val_or (Howl_seek h) (VNum (Fin 0%Q))))))]> (doc w)))
              w))
  | None => step w = TypeError w
  end.
Proof.
  open_world w. unfold current_howl, howl_on, step, howl_of, track_of.
  exec. destruct (at_index p ix) as [t|] eqn:Ht; exec; [|reflexivity].
  destruct (howl t) as [h|] eqn:Hh; exec; [|reflexivity].
  destruct (Howl_playing h); exec; reflexivity.
Qed.

(** [volume] never throws. *)
Lemma volume_effect (val : Q) (w : World) :
  volume val w = Returned tt
    (with_doc
       (<["sliderBtn.style.left" := Pixels (slider_left (innerWidth w) val)]>
          (<["barFull.style.width" := Percent (Fin (slider_fill val))]> (doc w)))
       ((if Qle_bool 0 val && Qle_bool val 1 then with_master val else id)
          (with_calls (calls w ++ [Volume val]) w))).
Proof.
  open_world w. unfold volume, Howler_volume. exec.
  destruct (Qle_bool 0 val && Qle_bool val 1); exec; reflexivity.
Qed.

(** ** The invariant *)

Lemma howl_at_on (w : World) (n : nat) :
  howl_at w n = howl_on (playlist w) (Z.of_nat n).
Proof.
  unfold howl_at, howl_on, at_index.
  destruct (Z.ltb_spec (Z.of_nat n) 0) as [Hlt|_]; [lia|].
  now rewrite Nat2Z.id.
Qed.

Lemma howl_on_track (p : list Track) (i : Z) (h : Howl) :
  howl_on p i = Some h -> exists t, at_index p i = Some t /\ howl t = Some h.
Proof.
  unfold howl_on. destruct (at_index p i) as [t|]; [eauto|discriminate].
Qed.

(** Writing a handle leaves the rest of the entry as it was. *)
Lemma put_keeps_tracks (p : list Track) (n : nat) (h : option Howl) :
  with_howl None <$> alter (with_howl h) n p = with_howl None <$> p.
Proof.
  apply list_eq. intros k. rewrite !list_lookup_fmap, list_lookup_alter.
  destruct (decide (n = k)) as [->|]; [|reflexivity].
  now destruct (p !! k).
Qed.

Lemma at_index_put (p : list Track) (i : Z) (t : Track) (h : Howl) :
  at_index p i = Some t ->
  at_index (alter (with_howl (Some h)) (Z.to_nat i) p) i = Some (with_howl (Some h) t).
Proof. intros H. now rewrite at_index_alter, H. Qed.

(** A handle is replaced by a later state of itself. *)
Lemma settled_put (i k : Z) (p : list Track) (cs cs' : list Call) (h h' : Howl) :
  settled i p cs ->
  howl_on p k = Some h ->
  (k <> i -> hw_mode h' = Stopped) ->
  (is_loaded h' = true -> Qpos (hw_len h') = true) ->
  hw_src h' = hw_src h -> hw_html5 h' = hw_html5 h ->
  (forall j, creations j cs' = creations j cs) ->
  settled i (alter (with_howl (Some h')) (Z.to_nat k) p) cs'.
Proof.
  intros [Htr Hidx Hoth Hload Hcre Hsrc] Hk Hmode Hlen' Hs Hh Hcs.
  destruct (howl_on_track _ _ _ Hk) as (t & Ht & _).
  split.
  - now rewrite put_keeps_tracks.
  - now rewrite length_alter.
  - intros j hj Hj Hne. destruct (Z.eq_dec k j) as [->|Hkj].
    + rewrite (howl_on_put _ _ _ _ Ht) in Hj. injection Hj as <-. auto.
    + rewrite (howl_on_put_ne _ _ _ _ _ Ht Hkj) in Hj. eauto.
  - intros j hj Hj Hl. destruct (Z.eq_dec k j) as [->|Hkj].
    + rewrite (howl_on_put _ _ _ _ Ht) in Hj. injection Hj as <-. auto.
    + rewrite (howl_on_put_ne _ _ _ _ _ Ht Hkj) in Hj. eauto.
  - intros j. rewrite Hcs, Hcre. destruct (Z.eq_dec k j) as [->|Hkj].
    + now rewrite (howl_on_put _ _ _ _ Ht), Hk.
    + now rewrite (howl_on_put_ne _ _ _ _ _ Ht Hkj).
  - intros j hj Hj. destruct (Z.eq_dec k j) as [->|Hkj].
    + rewrite (howl_on_put _ _ _ _ Ht) in Hj. injection Hj as <-.
      destruct (Hsrc _ _ Hk) as (t' & Ht' & Hs' & Hh').
      exists (with_howl (Some h') t). split; [now apply at_index_put|].
      cbn [file with_howl]. split; congruence.
    + rewrite (howl_on_put_ne _ _ _ _ _ Ht Hkj) in Hj.
      destruct (Hsrc _ _ Hj) as (t' & Ht' & Hs' & Hh').
      exists t'. split; [|now split].
      rewrite at_index_alter_ne; [assumption| |assumption].
      apply at_index_valid in Ht. lia.
Qed.

Lemma Howl_stop_keeps (h : Howl) :
  hw_mode (Howl_stop h) = Stopped /\ is_loaded (Howl_stop h) = is_loaded h
  /\ hw_len (Howl_stop h) = hw_len h /\ hw_src (Howl_stop h) = hw_src h
  /\ hw_html5 (Howl_stop h) = hw_html5 h.
Proof. repeat split. Qed.

(** With no handle on the current track, every handle is stopped and
    the player is settled on any track. *)
Lemma settled_move (c i : Z) (p : list Track) (cs : list Call) :
  settled c p cs ->
  howl_on p c = None ->
  0 <= i < Z.of_nat (length p) ->
  settled i p cs.
Proof.
  intros [Htr Hidx Hoth Hload Hcre Hsrc] Hc Hi. split; try assumption.
  intros j hj Hj _. destruct (Z.eq_dec j c) as [->|Hjc]; [congruence|eauto].
Qed.

(** The same once the current handle is stopped. *)
Lemma settled_stop (c i : Z) (p : list Track) (cs : list Call) (h : Howl) :
  settled c p cs ->
  howl_on p c = Some h ->
  0 <= i < Z.of_nat (length p) ->
  settled i (alter (with_howl (Some (Howl_stop h))) (Z.to_nat c) p) (cs ++ [Stop c]).
Proof.
  intros Hs Hc Hi.
  assert (Hput : settled c (alter (with_howl (Some (Howl_stop h))) (Z.to_nat c) p)
                   (cs ++ [Stop c])).
  { apply (settled_put _ _ _ cs _ h); try assumption; try reflexivity.
    - apply (inv_loaded _ _ _ Hs _ _ Hc).
    - intros j. rewrite creations_app. cbn [creations is_new]. lia. }
  destruct (howl_on_track _ _ _ Hc) as (t & Ht & _).
  destruct Hput as [Htr Hidx Hoth Hload Hcre Hsrc]. split; try assumption.
  - now rewrite length_alter.
  - intros j hj Hj _. destruct (Z.eq_dec j c) as [->|Hjc]; [|eauto].
    rewrite (howl_on_put _ _ _ _ Ht) in Hj. now injection Hj as <-.
Qed.

(** [play] on the track the player is settled on. *)
Lemma settled_play (i : Z) (p : list Track) (cs : list Call) (data : Track) :
  settled i p cs ->
  at_index p i = Some data ->
  settled i
    (alter (with_howl (Some (Howl_play
       (match howl data with
        | Some h => h
        | None => Howl_new (sources (file data)) true
        end)))) (Z.to_nat i) p)
    (cs ++ (match howl data with Some _ => [] | None => [NewHowl i] end) ++ [Play i]).
Proof.
  intros [Htr Hidx Hoth Hload Hcre Hsrc] Ht.
  assert (Hon : howl_on p i = howl data) by (unfold howl_on; now rewrite Ht).
  split.
  - now rewrite put_keeps_tracks.
  - now rewrite length_alter.
  - intros j hj Hj Hne.
    rewrite (howl_on_put_ne _ _ _ _ _ Ht) in Hj by congruence. eauto.
  - intros j hj Hj Hl. destruct (Z.eq_dec i j) as [->|Hij].
    + rewrite (howl_on_put _ _ _ _ Ht) in Hj. injection Hj as <-.
      destruct (howl data) as [h|]; [|discriminate]. apply (Hload j h Hon Hl).
    + rewrite (howl_on_put_ne _ _ _ _ _ Ht Hij) in Hj. eauto.
  - intros j. rewrite !creations_app, Hcre. destruct (Z.eq_dec i j) as [->|Hij].
    + rewrite (howl_on_put _ _ _ _ Ht), Hon.
      destruct (howl data); cbn [creations is_new]; rewrite ?Z.eqb_refl; lia.
    + rewrite (howl_on_put_ne _ _ _ _ _ Ht Hij).
      destruct (howl data); cbn [creations is_new];
        try (destruct (Z.eqb_spec j i); [congruence|]); lia.
  - intros j hj Hj. destruct (Z.eq_dec i j) as [->|Hij].
    + rewrite (howl_on_put _ _ _ _ Ht) in Hj. injection Hj as <-.
      eexists. split; [apply at_index_put; exact Ht|]. cbn [file with_howl].
      destruct (howl data) as [h|]; [|now split].
      destruct (Hsrc _ _ Hon) as (t' & Ht' & Hs' & Hh').
      rewrite Ht in Ht'. injection Ht' as <-. now split.
    + rewrite (howl_on_put_ne _ _ _ _ _ Ht Hij) in Hj.
      destruct (Hsrc _ _ Hj) as (t' & Ht' & Hs' & Hh').
      exists t'. split; [|now split].
      rewrite at_index_alter_ne; [assumption| |assumption].
      apply at_index_valid in Ht. lia.
Qed.

Lemma invariant_same (w w' : World) :
  same_player w w' -> invariant w -> invariant w'.
Proof.
  intros (Hp & Hi & Hc) [Htr Hidx Hoth Hload Hcre Hsrc]. unfold invariant.
  rewrite Hp, Hi. split; try assumption.
  intros j. now rewrite Hc, Hcre.
Qed.

Lemma invariant_play (arg : option Z) (w : World) :
  settled (target arg w) (playlist w) (calls w) ->
  invariant (world_of (play arg w))
  /\ returned (play arg w) = true.
Proof.
  intros Hs.
  destruct (valid_at_index _ _ (inv_index _ _ _ Hs)) as [data Hd].
  destruct (play_effect arg w data Hd) as (w' & -> & Hi & Hp & Hc & _).
  split; [|reflexivity]. cbn [world_of]. unfold invariant.
  rewrite Hi, Hp, Hc. now apply settled_play.
Qed.

Lemma before_play_settled (i : Z) (w : World) :
  invariant w -> 0 <= i < Z.of_nat (length (playlist w)) ->
  settled i (playlist (before_play w)) (calls (before_play w))
  /\ index (before_play w) = index w.
Proof.
  intros Hinv Hi. unfold before_play, current_howl.
  destruct (howl_on (playlist w) (index w)) as [h|] eqn:Hc.
  - split; [|reflexivity]. cbn [playlist calls with_doc with_playlist with_calls].
    now apply settled_stop.
  - split; [|reflexivity]. cbn [playlist calls with_doc].
    now apply (settled_move (index w)).
Qed.

Lemma invariant_skipTo (i : Z) (w : World) :
  invariant w -> 0 <= i < Z.of_nat (length (playlist w)) ->
  invariant (world_of (skipTo i w)) /\ returned (skipTo i w) = true.
Proof.
  intros Hinv Hi.
  destruct (valid_at_index _ _ (inv_index _ _ _ Hinv)) as [t Ht].
  rewrite (skipTo_run i w t Ht).
  apply invariant_play. cbn [target].
  now apply before_play_settled.
Qed.

(** ** Listeners that leave the player alone *)

Lemma same_player_refl (w : World) : same_player w w.
Proof. repeat split. Qed.

Ltac same_player_done :=
  exec; repeat split; intros; cbn [playlist index calls];
  rewrite ?creations_app; cbn [creations is_new]; try lia; reflexivity.

Lemma toggle_same (panel : string) (w : World) :
  same_player w (world_of (toggle panel w)).
Proof.
  open_world w. unfold same_player, toggle. same_player_done.
Qed.

Lemma volume_same (val : Q) (w : World) :
  same_player w (world_of (volume val w)).
Proof.
  rewrite volume_effect. open_world w. unfold same_player.
  destruct (Qle_bool 0 val && Qle_bool val 1);
    cbn [world_of with_doc with_master with_calls id playlist index calls];
    repeat split; intros; rewrite creations_app; cbn [creations is_new]; lia.
Qed.

(** [move] throws, before anything is written, when the button is held
    and the event has no [clientX] other than 0 and no touch; it calls
    [volume] when the button is held and the pointer is known, and does
    nothing when the button is not held. *)
Lemma move_effect (event : PointerEvent) (scrollWidth : Q) (w : World) :
  move event scrollWidth w
  = if sliderDown w then
      match pointer_x event w with
      | Returned x _ => volume (drag_level x scrollWidth (innerWidth w)) w
      | TypeError _ => TypeError w
      end
    else Returned tt w.
Proof.
  unfold move. exec. destruct (sliderDown w); exec; [|reflexivity].
  unfold pointer_x, first_touch.
  destruct (ev_clientX event) as [x|]; [destruct (Qzero x)|];
    try (destruct (ev_touches event) as [[|t ts]|]); exec; reflexivity.
Qed.

Lemma move_same (event : PointerEvent) (scrollWidth : Q) (w : World) :
  same_player w (world_of (move event scrollWidth w)).
Proof.
  rewrite move_effect. destruct (sliderDown w); [|apply same_player_refl].
  destruct (pointer_x event w); [apply volume_same|apply same_player_refl].
Qed.

Lemma resize_same (w : World) : same_player w (world_of (resize w)).
Proof.
  open_world w. unfold same_player, resize, track_of. exec.
  destruct (at_index p ix) as [t|]; [|same_player_done].
  exec. destruct (howl t); same_player_done.
Qed.

Lemma step_same (w : World) : same_player w (world_of (step w)).
Proof.
  pose proof (step_effect w) as H. destruct (current_howl w); rewrite H;
    repeat split.
Qed.

Lemma seek_unchanged_creations (per : Q) (w : World) (j : Z) :
  creations j (calls (world_of (seek per w))) = creations j (calls w)
  /\ index (world_of (seek per w)) = index w.
Proof.
  pose proof (seek_effect per w) as H. destruct (current_howl w) as [h|].
  - destruct (Howl_playing h); rewrite H; cbn [world_of calls with_playlist with_calls index];
      rewrite ?creations_app; cbn [creations is_new]; split; try lia; reflexivity.
  - rewrite H. split; reflexivity.
Qed.

Lemma callback_same (i : Z) (cb : Callback) (w : World) :
  cb <> onend -> same_player w (world_of (callback i cb w)).
Proof.
  intros Hcb. open_world w. unfold same_player.
  destruct cb; try congruence; unfold callback, howl_of, track_of;
    try same_player_done.
  exec. destruct (at_index p i) as [t|]; [|same_player_done].
  exec. destruct (howl t); same_player_done.
Qed.

Lemma timeout_same (n : nat) (w : World) :
  same_player w (world_of (handle (Timeout n) w)).
Proof.
  open_world w. unfold same_player, handle. exec.
  destruct (tm !! n) as [[k v]|]; same_player_done.
Qed.

(** ** The index [skip] computes *)

Lemma skip_index_next (w : World) :
  valid_index w (index w) ->
  skip_index "next" w = (index w + 1) mod Z.of_nat (length (playlist w)).
Proof.
  unfold valid_index, skip_index. intros Hi. cbn [String.eqb Ascii.eqb Bool.eqb].
  change (("next" =? "prev")%string) with false. cbv iota.
  destruct (Z.geb_spec (index w + 1) (Z.of_nat (length (playlist w)))) as [Hge|Hlt].
  - replace (index w + 1) with (Z.of_nat (length (playlist w))) by lia.
    now rewrite Z.mod_same by lia.
  - now rewrite Z.mod_small by lia.
Qed.

Lemma skip_index_prev (w : World) :
  valid_index w (index w) ->
  skip_index "prev" w
  = (index w - 1 + Z.of_nat (length (playlist w))) mod Z.of_nat (length (playlist w)).
Proof.
  unfold valid_index, skip_index. intros Hi.
  change (("prev" =? "prev")%string) with true. cbv iota.
  destruct (Z.ltb_spec (index w - 1) 0) as [Hlt|Hge].
  - replace (index w) with 0 by lia. rewrite Z.mod_small by lia. lia.
  - rewrite <- (Z.mul_1_l (Z.of_nat (length (playlist w)))) at 1.
    rewrite Z.mod_add by lia. now rewrite Z.mod_small by lia.
Qed.

Lemma skip_index_other (direction : string) (w : World) :
  direction <> "prev" -> skip_index direction w = skip_index "next" w.
Proof.
  intros Hd. unfold skip_index.
  destruct (String.eqb_spec direction "prev") as [->|_]; [congruence|].
  reflexivity.
Qed.

Lemma skip_index_valid (direction : string) (w : World) :
  valid_index w (index w) -> valid_index w (skip_index direction w).
Proof.
  intros Hi. assert (Hlen : 0 < Z.of_nat (length (playlist w)))
    by (unfold valid_index in Hi; lia).
  destruct (String.eqb_spec direction "prev") as [->|Hd].
  - rewrite skip_index_prev by assumption. now apply Z.mod_pos_bound.
  - rewrite skip_index_other, skip_index_next by assumption.
    now apply Z.mod_pos_bound.
Qed.

Lemma skip_run (direction : string) (w : World) :
  skip direction w = skipTo (skip_index direction w) w.
Proof. reflexivity. Qed.

(** ** Every event keeps the invariant *)

Lemma library_effect (n : nat) (f : Howl -> Howl) (w : World) :
  match howl_at w n with
  | Some h =>
      library n f w = Returned tt
        (with_playlist (alter (with_howl (Some (f h))) (Z.to_nat (Z.of_nat n)) (playlist w)) w)
  | None => library n f w = TypeError w
  end.
Proof.
  rewrite howl_at_on. open_world w. unfold howl_on, library, howl_of, track_of.
  exec. destruct (at_index p (Z.of_nat n)) as [t|]; exec; [|reflexivity].
  destruct (howl t); exec; reflexivity.
Qed.

Lemma invariant_library (n : nat) (f : Howl -> Howl) (w : World) :
  invariant w ->
  (forall h, howl_at w n = Some h ->
     (hw_mode (f h) = hw_mode h \/ hw_mode (f h) = Stopped)
     /\ (is_loaded (f h) = true -> is_loaded h = true /\ hw_len (f h) = hw_len h
         \/ Qpos (hw_len (f h)) = true)
     /\ hw_src (f h) = hw_src h /\ hw_html5 (f h) = hw_html5 h) ->
  invariant (world_of (library n f w)).
Proof.
  intros Hinv Hf. pose proof (library_effect n f w) as H.
  destruct (howl_at w n) as [h|] eqn:Hn; rewrite H; [|exact Hinv].
  destruct (Hf h eq_refl) as (Hmode & Hlen & Hsrc & Hhtml). rewrite howl_at_on in Hn.
  cbn [world_of]. unfold invariant. cbn [index playlist calls with_playlist].
  apply (settled_put _ _ _ (calls w) _ h); try assumption.
  - intros Hne. destruct Hmode as [-> | ->]; [|reflexivity].
    apply (inv_others _ _ _ Hinv _ _ Hn Hne).
  - intros Hl. destruct (Hlen Hl) as [[Hl' ->]|]; [|assumption].
    apply (inv_loaded _ _ _ Hinv _ _ Hn Hl').
  - reflexivity.
Qed.

Lemma invariant_pause (w : World) : invariant w -> invariant (world_of (pause w)).
Proof.
  intros Hinv. pose proof (pause_effect w) as H. unfold current_howl in H.
  destruct (howl_on (playlist w) (index w)) as [h|] eqn:Hc.
  - destruct H as (w' & -> & Hi & Hp & Hcs). cbn [world_of]. unfold invariant.
    rewrite Hi, Hp, Hcs. apply (settled_put _ _ _ (calls w) _ h); try assumption.
    + congruence.
    + unfold Howl_pause. destruct (is_active h); [|apply (inv_loaded _ _ _ Hinv _ _ Hc)].
      apply (inv_loaded _ _ _ Hinv _ _ Hc).
    + unfold Howl_pause. now destruct (is_active h).
    + unfold Howl_pause. now destruct (is_active h).
    + intros j. rewrite creations_app. cbn [creations is_new]. lia.
  - now rewrite H.
Qed.

Lemma invariant_seek (per : Q) (w : World) :
  invariant w -> invariant (world_of (seek per w)).
Proof.
  intros Hinv. pose proof (seek_effect per w) as H. unfold current_howl in H.
  destruct (howl_on (playlist w) (index w)) as [h|] eqn:Hc; [|now rewrite H].
  destruct (Howl_playing h); rewrite H; [|exact Hinv].
  cbn [world_of]. unfold invariant. cbn [index playlist calls with_playlist with_calls].
  apply (settled_put _ _ _ (calls w) _ h); try assumption.
  - congruence.
  - unfold Howl_seek_to.
    destruct (is_loaded h && Qle_bool 0 (fmul (Howl_duration h) per));
      apply (inv_loaded _ _ _ Hinv _ _ Hc).
  - unfold Howl_seek_to.
    now destruct (is_loaded h && Qle_bool 0 (fmul (Howl_duration h) per)).
  - unfold Howl_seek_to.
    now destruct (is_loaded h && Qle_bool 0 (fmul (Howl_duration h) per)).
  - intros j. rewrite creations_app. cbn [creations is_new]. lia.
Qed.

Lemma invariant_fire (e : Event) (w : World) :
  invariant w -> enabled e w = true -> invariant (fire e w).
Proof.
  intros Hinv He. unfold fire.
  destruct e; cbn [handle]; cbn [enabled] in He.
  - (* play button *) now apply invariant_play.
  - (* pause button *) now apply invariant_pause.
  - (* previous *) rewrite skip_run.
    apply invariant_skipTo, skip_index_valid, (inv_index _ _ _ Hinv); assumption.
  - (* next *) rewrite skip_run.
    apply invariant_skipTo, skip_index_valid, (inv_index _ _ _ Hinv); assumption.
  - (* playlist entry *) apply invariant_skipTo; [assumption|].
    apply Nat.ltb_lt in He. unfold indexOf. lia.
  - (* waveform *) exec. now apply invariant_seek.
  - apply (invariant_same w); [apply toggle_same|assumption].
  - apply (invariant_same w); [apply toggle_same|assumption].
  - apply (invariant_same w); [apply toggle_same|assumption].
  - apply (invariant_same w); [apply toggle_same|assumption].
  - apply (invariant_same w); [apply volume_same|assumption].
  - exact Hinv.
  - exact Hinv.
  - apply (invariant_same w); [apply move_same|assumption].
  - (* resize *) exec.
    apply (invariant_same (with_viewport width height w)); [apply resize_same|].
    exact Hinv.
  - (* animation frame *) exec.
    apply (invariant_same (with_frames (Nat.pred (frames w)) w)); [apply step_same|].
    exact Hinv.
  - apply (invariant_same w); [apply timeout_same|assumption].
  - (* load completes *) apply invariant_library; [assumption|].
    intros h Hh. rewrite Hh in He. split; [now left|].
    split; [|now split]. intros _. right.
    cbn [Howl_loaded hw_len]. destruct (hw_state h); congruence.
  - (* time passes *) apply invariant_library; [assumption|].
    intros h Hh. split; [now left|].
    split; [|now split]. intros Hl. left. split; [exact Hl|reflexivity].
  - (* the sound ends *) apply invariant_library; [assumption|].
    intros h Hh. split; [now right|].
    split; [|now split]. intros Hl. left. split; [exact Hl|reflexivity].
  - (* callbacks *)
    destruct cb;
      try (apply (invariant_same w); [now apply callback_same|assumption]).
    unfold callback. exec. rewrite skip_run.
    apply invariant_skipTo; [exact Hinv|].
    apply (skip_index_valid "next"
             (with_doc (<["bar.style.display":=Text "block"]>
                (<["wave.container.style.display":=Text "none"]> (doc w))) w)).
    apply (inv_index _ _ _ Hinv).
Qed.

(** ** Reachable states *)

Lemma tracks_without_handles (i : Z) : howl_on tracks i = None.
Proof.
  unfold howl_on. destruct (at_index tracks i) as [t|] eqn:Ht; [|reflexivity].
  unfold at_index in Ht. destruct (i <? 0); [discriminate|].
  assert (Hall : Forall (fun t => howl t = None) tracks).
  { apply Forall_forall. intros x Hx.
    apply list_elem_of_In in Hx. unfold tracks in Hx. cbn [In] in Hx.
    repeat (destruct Hx as [<-|Hx]; [reflexivity|]). destruct Hx. }
  rewrite Forall_forall in Hall. apply Hall.
  apply (list_elem_of_lookup_2 _ _ _ Ht).
Qed.

Lemma invariant_startup (width height : Q) : invariant (startup width height).
Proof.
  assert (Hsame : same_player
            (world_of (Player_new tracks (blank width height)))
            (startup width height)) by apply resize_same.
  apply (invariant_same _ _ Hsame). unfold invariant, Player_new, blank. exec.
  split.
  - reflexivity.
  - cbn [length tracks]. lia.
  - intros j h Hj. now rewrite tracks_without_handles in Hj.
  - intros j h Hj. now rewrite tracks_without_handles in Hj.
  - intros j. now rewrite tracks_without_handles.
  - intros j h Hj. now rewrite tracks_without_handles in Hj.
Qed.

Lemma reachable_invariant (w : World) : reachable w -> invariant w.
Proof.
  induction 1 as [width height _ _ | e w _ IH He].
  - apply invariant_startup.
  - now apply invariant_fire.
Qed.

Lemma reachable_run (es : list Event) (w : World) :
  reachable w -> runnable es w = true -> reachable (run es w).
Proof.
  revert w. induction es as [|e es IH]; intros w Hw Hes; [exact Hw|].
  cbn [runnable] in Hes. apply andb_prop in Hes as [He Hes].
  cbn [run]. apply IH; [|exact Hes]. now apply reachable_fire.
Qed.

(** ** Constructions are never undone *)

Lemma play_grows (arg : option Z) (w : World) (j : Z) :
  valid_index w (target arg w) ->
  (creations j (calls w) <= creations j (calls (world_of (play arg w))))%nat.
Proof.
  intros Hv. destruct (valid_at_index _ _ Hv) as [data Hd].
  destruct (play_effect arg w data Hd) as (w' & -> & _ & _ & Hc & _).
  cbn [world_of]. rewrite Hc, creations_app. lia.
Qed.

Lemma skipTo_grows (i : Z) (w : World) (j : Z) :
  valid_index w (index w) -> valid_index w i ->
  (creations j (calls w) <= creations j (calls (world_of (skipTo i w))))%nat.
Proof.
  intros Hc Hi. destruct (valid_at_index _ _ Hc) as [t Ht].
  rewrite (skipTo_run i w t Ht).
  assert (Hb : (creations j (calls w) <= creations j (calls (before_play w)))%nat).
  { unfold before_play. destruct (current_howl w);
      cbn [calls with_doc with_playlist with_calls]; rewrite ?creations_app; lia. }
  etransitivity; [exact Hb|]. apply play_grows.
  unfold valid_index, before_play in *. cbn [target].
  destruct (current_howl w);
    cbn [playlist with_doc with_playlist with_calls]; rewrite ?length_alter; lia.
Qed.

Lemma same_player_grows (w w' : World) (j : Z) :
  same_player w w' -> (creations j (calls w) <= creations j (calls w'))%nat.
Proof. intros (_ & _ & H). rewrite H. lia. Qed.

Lemma fire_grows (e : Event) (w : World) (j : Z) :
  invariant w -> enabled e w = true ->
  (creations j (calls w) <= creations j (calls (fire e w)))%nat.
Proof.
  intros Hinv He. pose proof (inv_index _ _ _ Hinv) as Hidx. unfold fire.
  destruct e; cbn [handle]; cbn [enabled] in He.
  - now apply play_grows.
  - pose proof (pause_effect w) as H. destruct (current_howl w).
    + destruct H as (w' & -> & _ & _ & Hc). cbn [world_of].
      rewrite Hc, creations_app. lia.
    + rewrite H. cbn [world_of]. lia.
  - rewrite skip_run. apply skipTo_grows; [assumption|].
    now apply skip_index_valid.
  - rewrite skip_run. apply skipTo_grows; [assumption|].
    now apply skip_index_valid.
  - apply skipTo_grows; [assumption|]. apply Nat.ltb_lt in He.
    unfold valid_index, indexOf. lia.
  - exec. destruct (seek_unchanged_creations (fdiv clientX (innerWidth w)) w j) as [-> _]. lia.
  - apply same_player_grows, toggle_same.
  - apply same_player_grows, toggle_same.
  - apply same_player_grows, toggle_same.
  - apply same_player_grows, toggle_same.
  - apply same_player_grows, volume_same.
  - exec. lia.
  - exec. lia.
  - apply same_player_grows, move_same.
  - exec. apply (same_player_grows (with_viewport width height w)), resize_same.
  - exec. apply (same_player_grows (with_frames (Nat.pred (frames w)) w)), step_same.
  - apply same_player_grows, timeout_same.
  - pose proof (library_effect n (Howl_loaded len) w) as H.
    destruct (howl_at w n); rewrite H; cbn [world_of calls with_playlist]; lia.
  - pose proof (library_effect n (Howl_advance dt) w) as H.
    destruct (howl_at w n); rewrite H; cbn [world_of calls with_playlist]; lia.
  - pose proof (library_effect n Howl_finish w) as H.
    destruct (howl_at w n); rewrite H; cbn [world_of calls with_playlist]; lia.
  - destruct cb; try (apply same_player_grows, callback_same; discriminate).
    unfold callback. exec. rewrite skip_run.
    apply (skipTo_grows _
             (with_doc (<["bar.style.display":=Text "block"]>
                (<["wave.container.style.display":=Text "none"]> (doc w))) w));
      [assumption|].
    apply (skip_index_valid "next"
             (with_doc (<["bar.style.display":=Text "block"]>
                (<["wave.container.style.display":=Text "none"]> (doc w))) w)).
    assumption.
Qed.

(** * The claims *)

(** C5, as the code has it: for a number of seconds from 0 to 2^53 - 1,
    whole or not, [formatTime] joins the minutes, floor(secs/60), a
    colon, a zero when the remaining seconds are below 10, and the
    remaining seconds, secs - 60 x minutes, which are within [0,60).  For
    a whole number of seconds that is the string of the minutes unpadded,
    a colon and the remaining seconds padded to two digits.  In particular
    0 gives 0:00, 65 gives 1:05 and 3599 gives 59:59. *)
Theorem formatTime_minutes_seconds (secs : Q) :
  rnd secs = secs ->
  (0 <= secs <= inject_Z safe_seconds)%Q ->
  (exists seconds,
     formatTime (Fin secs)
     = [Num (Fin (inject_Z (Qfloor (secs / 60)))); Str ":";
        Str (if negb (Qle_bool 10 seconds) then "0" else ""); Num (Fin seconds)]
     /\ (seconds == secs - 60 * inject_Z (Qfloor (secs / 60)))%Q
     /\ (0 <= seconds < 60)%Q)
  /\ (forall n : Z,
        (secs == inject_Z n)%Q ->
        as_string (formatTime (Fin secs)) = Some (minutes_colon_seconds n)
        /\ String.length (two_digits (n mod 60)) = 2%nat)
  /\ as_string (formatTime (Fin 0)) = Some "0:00"
  /\ as_string (formatTime (Fin 65)) = Some "1:05"
  /\ as_string (formatTime (Fin 3599)) = Some "59:59".
Proof.
  intros Hd [H0 Hmax].
  assert (Hr : (0 <= secs < inject_Z (2 ^ 53))%Q).
  { split; [exact H0|].
    assert ((inject_Z safe_seconds < inject_Z (2 ^ 53))%Q) by reflexivity. lra. }
  split.
  { exists (rnd (secs - inject_Z (Qfloor (secs / 60) * 60))).
    split; [now apply formatTime_double|].
    destruct (seconds_of_double secs Hd Hr) as (E & Hs).
    assert (Ek : (inject_Z (Qfloor (secs / 60) * 60)
                  == 60 * inject_Z (Qfloor (secs / 60)))%Q).
    { rewrite inject_Z_mult. change (inject_Z 60) with 60%Q. ring. }
    rewrite E. split; [now rewrite Ek|exact Hs]. }
  split.
  { intros n Hn. rewrite (formatTime_comp _ _ Hn).
    assert (Hn0 : 0 <= n <= safe_seconds).
    { rewrite Hn in H0, Hmax. change 0%Q with (inject_Z 0) in H0.
      now rewrite <- !Zle_Qle in *. }
    unfold safe_seconds in Hn0.
    split; [apply formatTime_text; lia|].
    apply two_digits_length, Z.mod_pos_bound. lia. }
  split; [apply (formatTime_text 0); lia|].
  split; [apply (formatTime_text 65); lia|apply (formatTime_text 3599); lia].
Qed.

Lemma formatTime_minutes_seconds_witness :
  rnd 754 = 754%Q /\ (0 <= 754 <= inject_Z safe_seconds)%Q
  /\ as_string (formatTime (Fin 754)) = Some "12:34"
  /\ rnd (131 # 2) = (131 # 2)%Q /\ (0 <= 131 # 2 <= inject_Z safe_seconds)%Q
  /\ formatTime (Fin (131 # 2))
     = [Num (Fin 1); Str ":"; Str "0"; Num (Fin (11 # 2))]
  /\ as_string (formatTime (Fin 0)) = Some "0:00"
  /\ as_string (formatTime (Fin 65)) = Some "1:05"
  /\ as_string (formatTime (Fin 3599)) = Some "59:59".
Proof.
  assert (Hd : rnd 754 = 754%Q) by (vm_compute; reflexivity).
  assert (Hr : (0 <= 754 <= inject_Z safe_seconds)%Q) by (split; discriminate).
  assert (Hd' : rnd (131 # 2) = (131 # 2)%Q) by (vm_compute; reflexivity).
  assert (Hr' : (0 <= 131 # 2 <= inject_Z safe_seconds)%Q) by (split; discriminate).
  destruct (formatTime_minutes_seconds 754 Hd Hr) as (_ & H1 & H2 & H3 & H4).
  destruct (formatTime_minutes_seconds (131 # 2) Hd' Hr') as ((s & Hs & _) & _).
  split; [exact Hd|]. split; [exact Hr|].
  split; [exact (proj1 (H1 754 (Qeq_refl _)))|].
  split; [exact Hd'|]. split; [exact Hr'|].
  split; [vm_compute; reflexivity|].
  split; [exact H2|]. split; [exact H3|exact H4].
Defined.

(** C5 as stated fails: it is for every number of seconds that is not
    negative, and for 10^17 seconds the minutes are floor(secs/60) =
    1666666666666666, which leaves 40 seconds, but [formatTime] shows 32:
    the product minutes x 60 is not a double and is rounded before it is
    subtracted. *)
Lemma formatTime_rounds_large_seconds :
  rnd 100000000000000000 = 100000000000000000%Q
  /\ (0 <= 100000000000000000)%Q
  /\ as_string (formatTime (Fin 100000000000000000)) = Some "1666666666666666:32"
  /\ minutes_colon_seconds 100000000000000000 = "1666666666666666:40"
  /\ as_string (formatTime (Fin 100000000000000000))
     <> Some (minutes_colon_seconds 100000000000000000).
Proof.
  split; [vm_compute; reflexivity|]. split; [discriminate|].
  split; [vm_compute; reflexivity|]. split; [vm_compute; reflexivity|].
  vm_compute. discriminate.
Qed.

(** C2: when the index is inside the playlist, [skip('next')] is
    [skipTo] of (index + 1) mod length and [skip('prev')] is [skipTo] of
    (index - 1 + length) mod length; so next from the last track goes to
    track 0 and prev from track 0 goes to the last track. *)
Theorem skip_wraps_around (w : World) :
  valid_index w (index w) ->
  skip "next" w = skipTo ((index w + 1) mod playlist_length w) w
  /\ skip "prev" w
     = skipTo ((index w - 1 + playlist_length w) mod playlist_length w) w
  /\ (index w = playlist_length w - 1 -> skip "next" w = skipTo 0 w)
  /\ (index w = 0 -> skip "prev" w = skipTo (playlist_length w - 1) w).
Proof.
  intros Hi. rewrite !skip_run, skip_index_next, skip_index_prev by assumption.
  unfold playlist_length, valid_index in *. repeat split.
  - intros ->. f_equal.
    replace (Z.of_nat (length (playlist w)) - 1 + 1)
      with (Z.of_nat (length (playlist w))) by lia.
    apply Z.mod_same. lia.
  - intros ->. f_equal. rewrite Z.mod_small; lia.
Qed.

Lemma skip_wraps_around_witness :
  valid_index loading_world (index loading_world)
  /\ skip "next" loading_world = skipTo 1 loading_world
  /\ skip "prev" loading_world = skipTo 19 loading_world.
Proof.
  assert (H : valid_index loading_world (index loading_world))
    by (vm_compute; split; [discriminate|reflexivity]).
  destruct (skip_wraps_around loading_world H) as (Hn & Hp & _).
  exact (conj H (conj Hn Hp)).
Defined.

(** C10: every direction other than the string prev is treated as next:
    [skip(direction)] is [skip('next')], that is [skipTo] of
    (index + 1) mod length; prev alone selects the previous track. *)
Theorem skip_defaults_to_next (direction : string) (w : World) :
  direction <> "prev" ->
  valid_index w (index w) ->
  skip direction w = skip "next" w
  /\ skip direction w = skipTo ((index w + 1) mod playlist_length w) w
  /\ skip "prev" w
     = skipTo ((index w - 1 + playlist_length w) mod playlist_length w) w.
Proof.
  intros Hd Hi.
  rewrite !skip_run, (skip_index_other direction) by assumption.
  rewrite skip_index_next, skip_index_prev by assumption.
  repeat split.
Qed.

Lemma skip_defaults_to_next_witness :
  "forward" <> "prev"
  /\ valid_index loading_world (index loading_world)
  /\ skip "forward" loading_world = skip "next" loading_world.
Proof.
  assert (Hd : "forward" <> "prev") by discriminate.
  assert (H : valid_index loading_world (index loading_world))
    by (vm_compute; split; [discriminate|reflexivity]).
  destruct (skip_defaults_to_next "forward" loading_world Hd H) as (Hn & _).
  exact (conj Hd (conj H Hn)).
Defined.

Lemma reachable_fresh : reachable fresh_world.
Proof. apply reachable_startup; reflexivity. Qed.

Lemma reachable_loading : reachable loading_world.
Proof. apply reachable_run; [apply reachable_fresh | vm_compute; reflexivity]. Qed.

Lemma reachable_playing : reachable playing_world.
Proof. apply reachable_run; [apply reachable_fresh | vm_compute; reflexivity]. Qed.

Lemma reachable_paused : reachable paused_world.
Proof. apply reachable_run; [apply reachable_playing | vm_compute; reflexivity]. Qed.

Lemma invariant_keeps_index (w : World) : invariant w -> valid_index w (index w).
Proof. intros H. apply (inv_index _ _ _ H). Qed.

(** C9: [index] is inside the playlist when the page has loaded and
    after every event; in such a state it still is after [play()],
    [pause()], [skip('next')], [skip('prev')], [skipTo] of a playlist
    entry, [volume], [seek] and [step], so it always names a track. *)
Theorem index_always_valid (w : World) :
  reachable w ->
  valid_index w (index w)
  /\ (exists t, at_index (playlist w) (index w) = Some t)
  /\ keeps_index (play None w)
  /\ keeps_index (pause w)
  /\ keeps_index (skip "next" w)
  /\ keeps_index (skip "prev" w)
  /\ (forall n, (n < length (playlist w))%nat -> keeps_index (skipTo (indexOf n) w))
  /\ (forall val, keeps_index (volume val w))
  /\ (forall per, keeps_index (seek per w))
  /\ keeps_index (step w).
Proof.
  intros Hw. pose proof (reachable_invariant w Hw) as Hinv.
  pose proof (invariant_keeps_index w Hinv) as Hi. unfold keeps_index.
  split; [exact Hi|]. split; [now apply valid_at_index|].
  split; [now apply invariant_keeps_index, invariant_play|].
  split; [now apply invariant_keeps_index, invariant_pause|].
  split; [rewrite skip_run;
          now apply invariant_keeps_index, invariant_skipTo, skip_index_valid|].
  split; [rewrite skip_run;
          now apply invariant_keeps_index, invariant_skipTo, skip_index_valid|].
  split; [intros n Hn; apply invariant_keeps_index, invariant_skipTo;
          [assumption | unfold indexOf; lia]|].
  split; [intros val;
          apply invariant_keeps_index, (invariant_same w); [apply volume_same|assumption]|].
  split; [intros per; now apply invariant_keeps_index, invariant_seek|].
  apply invariant_keeps_index, (invariant_same w); [apply step_same|assumption].
Qed.

Lemma index_always_valid_witness :
  reachable playing_world /\ valid_index playing_world (index playing_world).
Proof.
  exact (conj reachable_playing
           (proj1 (index_always_valid playing_world reachable_playing))).
Defined.

Lemma play_throws (arg : option Z) (w : World) :
  at_index (playlist w) (target arg w) = None -> play arg w = TypeError w.
Proof.
  intros H. open_world w.
  assert (Ht : target arg (mkWorld p ix d m iw ih sd fr tm cs)
               = match arg with Some i => i | None => ix end) by reflexivity.
  rewrite Ht in H. unfold play, track_of. exec. now rewrite H.
Qed.

(** [play] on a track that exists: it returns, the index is the target,
    the target's handle is active and [play()] is on record after the
    construction, if there was one. *)
Lemma play_on_track (arg : option Z) (w : World) :
  valid_index w (target arg w) ->
  exists w' h',
    play arg w = Returned tt w'
    /\ index w' = target arg w
    /\ howl_on (playlist w') (target arg w) = Some h'
    /\ is_active h' = true
    /\ calls w' = calls w
         ++ (match howl_on (playlist w) (target arg w) with
             | Some _ => []
             | None => [NewHowl (target arg w)]
             end)
         ++ [Play (target arg w)].
Proof.
  intros Hv. destruct (valid_at_index _ _ Hv) as [data Hd].
  destruct (play_effect arg w data Hd) as (w' & Hrun & Hi & Hp & Hc & _).
  exists w'. eexists. split; [exact Hrun|]. split; [exact Hi|].
  split; [rewrite Hp; apply (howl_on_put _ _ _ _ Hd)|].
  split; [reflexivity|].
  rewrite Hc. unfold howl_on. now rewrite Hd.
Qed.

(** C6: [play] works on its argument when that is a number and on the
    current index otherwise; on a track that exists it returns, [index]
    is that track afterwards, and the handle's [play()] was called whether
    the handle existed before or was constructed by this call; it returns
    on no other index. *)
Theorem play_updates_index (arg : option Z) (w : World) :
  target None w = index w
  /\ (valid_index w (target arg w) ->
      exists w' h',
        play arg w = Returned tt w'
        /\ index w' = target arg w
        /\ howl_on (playlist w') (target arg w) = Some h'
        /\ is_active h' = true
        /\ calls w' = calls w
             ++ (match howl_on (playlist w) (target arg w) with
                 | Some _ => []
                 | None => [NewHowl (target arg w)]
                 end)
             ++ [Play (target arg w)])
  /\ (forall w', play arg w = Returned tt w' -> valid_index w (target arg w)).
Proof.
  split; [reflexivity|]. split; [apply play_on_track|].
  intros w' Hrun.
  destruct (at_index (playlist w) (target arg w)) as [t|] eqn:Ht.
  - apply (at_index_valid _ _ _ Ht).
  - rewrite (play_throws arg w Ht) in Hrun. discriminate.
Qed.

Lemma play_updates_index_witness :
  valid_index paused_world (target None paused_world)
  /\ exists w' h',
       play None paused_world = Returned tt w'
       /\ index w' = 0
       /\ howl_on (playlist w') 0 = Some h'
       /\ is_active h' = true
       /\ calls w' = calls paused_world ++ [] ++ [Play 0].
Proof.
  assert (H : valid_index paused_world (target None paused_world))
    by (vm_compute; split; [discriminate|reflexivity]).
  exact (conj H (proj1 (proj2 (play_updates_index None paused_world)) H)).
Defined.

Lemma before_play_keeps_handles {X} (a b : X) (i : Z) (w : World) :
  match howl_on (playlist (before_play w)) i with Some _ => a | None => b end
  = match howl_on (playlist w) i with Some _ => a | None => b end.
Proof.
  unfold before_play, current_howl.
  destruct (howl_on (playlist w) (index w)) as [h|] eqn:Hc; [|reflexivity].
  cbn [playlist with_doc with_playlist with_calls].
  destruct (howl_on_track _ _ _ Hc) as (t & Ht & _).
  destruct (Z.eq_dec (index w) i) as [<-|Hne].
  - now rewrite (howl_on_put _ _ _ _ Ht), Hc.
  - now rewrite (howl_on_put_ne _ _ _ _ _ Ht Hne).
Qed.

(** C1: in a reachable state [skipTo] of a valid index returns, the
    handle of the target is then the one active handle (playing, or
    loading towards it) and every other handle is stopped; [skipTo] is
    [play] on the world in which the old current handle, when there was
    one, has been stopped, so its calls are that [stop()] and only then
    the construction, if needed, and [play()] on the target. *)
Theorem skipTo_one_active (i : Z) (w : World) :
  reachable w ->
  valid_index w i ->
  skipTo i w = play (Some i) (before_play w)
  /\ exists w' h',
       skipTo i w = Returned tt w'
       /\ index w' = i
       /\ howl_on (playlist w') i = Some h'
       /\ is_active h' = true
       /\ (forall j h, howl_on (playlist w') j = Some h -> j <> i -> is_stopped h = true)
       /\ calls w' = calls w
            ++ (match current_howl w with Some _ => [Stop (index w)] | None => [] end)
            ++ (match howl_on (playlist w) i with Some _ => [] | None => [NewHowl i] end)
            ++ [Play i].
Proof.
  intros Hw Hi. pose proof (reachable_invariant w Hw) as Hinv.
  destruct (invariant_skipTo i w Hinv Hi) as [Hinv' _].
  destruct (valid_at_index _ _ (inv_index _ _ _ Hinv)) as [t Ht].
  rewrite (skipTo_run i w t Ht) in *. split; [reflexivity|].
  assert (Hv : valid_index (before_play w) (target (Some i) (before_play w))).
  { apply (inv_index _ _ _ (proj1 (before_play_settled i w Hinv Hi))). }
  destruct (play_on_track (Some i) (before_play w) Hv)
    as (w' & h' & Hrun & Hidx & Hh & Hact & Hc).
  cbn [target] in *. rewrite Hrun in Hinv'. cbn [world_of] in Hinv'.
  exists w', h'. repeat (split; [assumption|]). split.
  - intros j h Hj Hne. unfold is_stopped.
    rewrite (inv_others _ _ _ Hinv' j h Hj); [reflexivity|congruence].
  - rewrite Hc, before_play_keeps_handles. unfold before_play.
    destruct (current_howl w);
      cbn [calls with_doc with_playlist with_calls]; now rewrite <- ?app_assoc.
Qed.

Lemma skipTo_one_active_witness :
  reachable playing_world /\ valid_index playing_world 5
  /\ exists w' h',
       skipTo 5 playing_world = Returned tt w'
       /\ index w' = 5
       /\ howl_on (playlist w') 5 = Some h'
       /\ is_active h' = true
       /\ (forall j h, howl_on (playlist w') j = Some h -> j <> 5 -> is_stopped h = true)
       /\ calls w' = calls playing_world ++ [Stop 0] ++ [NewHowl 5] ++ [Play 5].
Proof.
  assert (H : valid_index playing_world 5)
    by (vm_compute; split; [discriminate|reflexivity]).
  exact (conj reachable_playing
           (conj H (proj2 (skipTo_one_active 5 playing_world reachable_playing H)))).
Defined.

Lemma same_tracks_file (p p' : list Track) (i : Z) (t t' : Track) :
  with_howl None <$> p = with_howl None <$> p' ->
  at_index p i = Some t -> at_index p' i = Some t' -> file t = file t'.
Proof.
  unfold at_index. destruct (i <? 0); [discriminate|]. intros Heq Ht Ht'.
  assert (H : (with_howl None <$> p) !! Z.to_nat i
              = (with_howl None <$> p') !! Z.to_nat i) by now rewrite Heq.
  rewrite !list_lookup_fmap, Ht, Ht' in H. cbn in H.
  now injection H.
Qed.

(** [skipTo] of another track leaves the old current handle in place,
    stopped. *)
Lemma skipTo_only_stops (i : Z) (w : World) (h : Howl) :
  valid_index w i -> i <> index w -> current_howl w = Some h ->
  howl_on (playlist (world_of (skipTo i w))) (index w) = Some (Howl_stop h).
Proof.
  intros Hi Hne Hh. unfold current_howl in Hh.
  destruct (howl_on_track _ _ _ Hh) as (t & Ht & _).
  rewrite (skipTo_run i w t Ht).
  assert (Hb : playlist (before_play w)
               = alter (with_howl (Some (Howl_stop h))) (Z.to_nat (index w)) (playlist w)).
  { unfold before_play, current_howl. now rewrite Hh. }
  assert (Hv : valid_index (before_play w) i).
  { unfold valid_index in *. now rewrite Hb, length_alter. }
  destruct (valid_at_index _ _ Hv) as [data Hd].
  destruct (play_effect (Some i) (before_play w) data Hd) as (w' & -> & _ & Hp & _).
  cbn [world_of target] in *. rewrite Hp.
  rewrite (howl_on_put_ne _ _ _ _ _ Hd Hne), Hb.
  apply (howl_on_put _ _ _ _ Ht).
Qed.

(** C7: a handle is constructed for a track at most once: [play]
    constructs one only when the track has none and calls [play()] on the
    one it has otherwise; and no event destroys or replaces a handle: the
    track still has a handle afterwards, on the same files, and the one
    construction on record for it is still the only one; [skipTo] of
    another track leaves the old handle stopped. *)
Theorem howl_created_once (w : World) :
  reachable w ->
  (forall i, (creations i (calls w) <= 1)%nat)
  /\ (forall i, creations i (calls w) = 1%nat <-> is_Some (howl_on (playlist w) i))
  /\ (forall arg h,
        howl_on (playlist w) (target arg w) = Some h ->
        exists w',
          play arg w = Returned tt w'
          /\ howl_on (playlist w') (target arg w) = Some (Howl_play h)
          /\ calls w' = calls w ++ [Play (target arg w)])
  /\ (forall e i h,
        enabled e w = true ->
        howl_on (playlist w) i = Some h ->
        exists h',
          howl_on (playlist (fire e w)) i = Some h'
          /\ hw_src h' = hw_src h
          /\ creations i (calls (fire e w)) = 1%nat)
  /\ (forall i h,
        valid_index w i -> i <> index w -> current_howl w = Some h ->
        howl_on (playlist (world_of (skipTo i w))) (index w) = Some (Howl_stop h)).
Proof.
  intros Hw. pose proof (reachable_invariant w Hw) as Hinv.
  split; [|split; [|split; [|split]]].
  - intros i. rewrite (inv_created _ _ _ Hinv).
    destruct (howl_on (playlist w) i); lia.
  - intros i. rewrite (inv_created _ _ _ Hinv).
    destruct (howl_on (playlist w) i); split; intros H; try reflexivity;
      try discriminate; [now eexists | now destruct H].
  - intros arg h Hh. destruct (howl_on_track _ _ _ Hh) as (data & Hd & Hdh).
    destruct (play_effect arg w data Hd) as (w' & Hrun & _ & Hp & Hc & _).
    rewrite Hdh in Hp, Hc. exists w'. split; [exact Hrun|]. split.
    + rewrite Hp. apply (howl_on_put _ _ _ _ Hd).
    + exact Hc.
  - intros e i h He Hh.
    pose proof (invariant_fire e w Hinv He) as Hinv'.
    pose proof (fire_grows e w i Hinv He) as Hgrow.
    pose proof (inv_created _ _ _ Hinv i) as Hone. rewrite Hh in Hone.
    pose proof (inv_created _ _ _ Hinv' i) as Hone'.
    destruct (howl_on (playlist (fire e w)) i) as [h'|] eqn:Hh'; [|lia].
    exists h'. split; [reflexivity|]. split; [|exact Hone'].
    destruct (inv_source _ _ _ Hinv _ _ Hh) as (t & Ht & -> & _).
    destruct (inv_source _ _ _ Hinv' _ _ Hh') as (t' & Ht' & -> & _).
    f_equal. symmetry.
    apply (same_tracks_file (playlist w) (playlist (fire e w)) i); try assumption.
    now rewrite (inv_tracks _ _ _ Hinv), (inv_tracks _ _ _ Hinv').
  - intros i h. apply skipTo_only_stops.
Qed.

Lemma howl_created_once_witness :
  reachable playing_world
  /\ (forall i, (creations i (calls playing_world) <= 1)%nat)
  /\ exists h',
       howl_on (playlist (fire ClickNextBtn playing_world)) 0 = Some h'
       /\ hw_src h' = sources "01 - ND13"
       /\ creations 0 (calls (fire ClickNextBtn playing_world)) = 1%nat.
Proof.
  destruct (howl_created_once playing_world reachable_playing)
    as (H1 & _ & _ & H4 & _).
  split; [exact reachable_playing|]. split; [exact H1|].
  assert (Hh : howl_on (playlist playing_world) 0 = Some playing_howl)
    by (vm_compute; reflexivity).
  exact (H4 ClickNextBtn 0 playing_howl eq_refl Hh).
Defined.

(** C3: [seek] changes nothing when the current track is not playing,
    whether it has no handle (the call then throws at [sound.playing()])
    or a handle that does not report playing; when the handle reports
    playing, [seek(per)] returns having called [seek] on it with the
    position [duration() * per], the product of the fraction and the
    length of the sound as doubles multiply, which is their product up
    to one rounding, and changed nothing else. *)
Theorem seek_only_while_playing (per : Q) (w : World) :
  (current_playing w = false -> world_of (seek per w) = w)
  /\ (current_howl w = None -> seek per w = TypeError w)
  /\ (forall h,
        current_howl w = Some h -> Howl_playing h = true ->
        exists w',
          seek per w = Returned tt w'
          /\ calls w' = calls w ++ [Seek (index w) (fmul (Howl_duration h) per)]
          /\ fmul (Howl_duration h) per = fmul per (hw_len h)
          /\ (Qabs (fmul (Howl_duration h) per - per * hw_len h)
              <= Qabs (per * hw_len h) * unit_roundoff + tiniest)%Q
          /\ current_howl w' = Some (Howl_seek_to (fmul (Howl_duration h) per) h)
          /\ (forall j, j <> index w ->
                howl_on (playlist w') j = howl_on (playlist w) j)
          /\ index w' = index w /\ doc w' = doc w /\ frames w' = frames w
          /\ master w' = master w /\ timers w' = timers w).
Proof.
  pose proof (seek_effect per w) as H. unfold current_playing.
  split; [|split].
  - destruct (current_howl w) as [h|]; [|now rewrite H].
    intros Hp. rewrite Hp in H. now rewrite H.
  - intros Hn. now rewrite Hn in H.
  - intros h Hh Hp. rewrite Hh, Hp in H. eexists. split; [exact H|].
    unfold current_howl in *. destruct (howl_on_track _ _ _ Hh) as (t & Ht & _).
    cbn [calls index doc frames master timers playlist with_playlist with_calls].
    split; [reflexivity|].
    assert (E : fmul (Howl_duration h) per = fmul per (hw_len h)).
    { unfold Howl_playing, Howl_duration in *.
      destruct (is_loaded h); [apply rnd_comp; ring|discriminate]. }
    split; [exact E|]. split; [rewrite E; apply rnd_error|].
    + split; [apply (howl_on_put _ _ _ _ Ht)|].
      split; [|repeat split].
      intros j Hj. apply (howl_on_put_ne _ _ _ _ _ Ht). congruence.
Qed.

Lemma seek_only_while_playing_witness :
  (current_playing paused_world = false /\ world_of (seek (1 # 2) paused_world) = paused_world)
  /\ (current_playing fresh_world = false /\ world_of (seek (1 # 2) fresh_world) = fresh_world)
  /\ exists w',
       seek (1 # 2) playing_world = Returned tt w'
       /\ calls w' = calls playing_world ++ [Seek 0 (fmul 200 (1 # 2))]
       /\ fmul 200 (1 # 2) = 100%Q.
Proof.
  assert (Hp : current_playing paused_world = false) by (vm_compute; reflexivity).
  assert (Hf : current_playing fresh_world = false) by (vm_compute; reflexivity).
  split; [exact (conj Hp (proj1 (seek_only_while_playing (1 # 2) paused_world) Hp))|].
  split; [exact (conj Hf (proj1 (seek_only_while_playing (1 # 2) fresh_world) Hf))|].
  destruct (proj2 (proj2 (seek_only_while_playing (1 # 2) playing_world))
              _ eq_refl eq_refl)
    as (w' & Hrun & Hc & _).
  exists w'. split; [exact Hrun|]. split; [exact Hc|vm_compute; reflexivity].
Defined.

(** ** Numbers on the display *)

Lemma Qpos_spec (q : Q) : Qpos q = true <-> (0 < q)%Q.
Proof.
  unfold Qpos. rewrite negb_true_iff, <- not_true_iff_false, Qle_bool_iff.
  split; [apply Qnot_le_lt|apply Qlt_not_le].
Qed.

Lemma Qpos_not_zero (q : Q) : Qpos q = true -> Qzero q = false.
Proof.
  intros Hq%Qpos_spec. apply not_true_iff_false. intros Hz%Qzero_spec.
  rewrite Hz in Hq. now apply Qlt_irrefl in Hq.
Qed.

(** The position [step] formats: [sound.seek() || 0], rounded. *)
Lemma step_timer (h : Howl) :
  formatTime (Math_round (to_number (val_or (Howl_seek h) (VNum (Fin 0%Q)))))
  = formatTime (Math_round (Fin (position h))).
Proof.
  unfold Howl_seek, position. destruct (is_loaded h); [|reflexivity].
  unfold val_or, truthy, num_truthy.
  destruct (Qzero (hw_pos h)) eqn:Hz; [|reflexivity].
  cbn [negb to_number Math_round]. do 3 f_equal. apply Qfloor_comp.
  apply Qzero_spec in Hz. now rewrite Hz.
Qed.

(** The width [step] computes: the fallback [seek || 0] of the position
    makes no difference to it. *)
Lemma step_progress (h : Howl) :
  num_or (num_mul (num_div (to_number (val_or (Howl_seek h) (VNum (Fin 0%Q))))
                     (Fin (Howl_duration h))) (Fin 100%Q)) (Fin 0%Q)
  = progress_or_zero h.
Proof.
  unfold progress_or_zero, ratio, Howl_seek. destruct (is_loaded h); [|reflexivity].
  unfold val_or, truthy, num_truthy.
  destruct (Qzero (hw_pos h)) eqn:Hz; [|reflexivity].
  cbn [negb to_number].
  assert (E : num_div (Fin 0) (Fin (Howl_duration h))
              = num_div (Fin (hw_pos h)) (Fin (Howl_duration h))).
  { unfold num_div. rewrite Hz. change (Qzero 0) with true.
    destruct (Qzero (Howl_duration h)); [reflexivity|].
    apply double_comp. apply Qzero_spec in Hz. now rewrite Hz. }
  now rewrite E.
Qed.

(** Where the width [step] writes is the one the specification words,
    and where it is not. *)
Lemma progress_agrees (h : Howl) :
  ratio h <> PInf -> ratio h <> NInf -> progress_or_zero h = progress h.
Proof.
  unfold progress_or_zero, progress, num_or, num_truthy, finite_nonzero.
  destruct (ratio h); congruence.
Qed.

Lemma progress_infinite (h : Howl) :
  ratio h = PInf \/ ratio h = NInf ->
  progress_or_zero h = ratio h /\ progress h = Fin 0%Q.
Proof.
  unfold progress_or_zero, progress. intros [-> | ->]; split; reflexivity.
Qed.

Lemma progress_unloaded (h : Howl) :
  is_loaded h = false -> progress_or_zero h = Fin 0%Q.
Proof.
  intros Hl. unfold progress_or_zero, ratio, Howl_seek. now rewrite Hl.
Qed.

Lemma ratio_zero_duration (h : Howl) :
  is_loaded h = true -> Qzero (hw_len h) = true -> Qpos (hw_pos h) = true ->
  ratio h = PInf.
Proof.
  intros Hl Hlen Hpos. unfold ratio, Howl_seek, Howl_duration. rewrite Hl.
  cbn [to_number num_div]. rewrite Hlen, (Qpos_not_zero _ Hpos).
  assert (Hn : Qneg (hw_pos h) = false).
  { unfold Qneg. apply negb_false_iff, Qle_bool_iff.
    apply Qpos_spec in Hpos. now apply Qlt_le_weak. }
  now rewrite Hn.
Qed.

(** The rounded position, for a position that is not negative and at
    most 2^53 - 1. *)
Lemma round_position (q : Q) :
  (0 <= q <= inject_Z safe_seconds)%Q -> 0 <= Qfloor (q + (1 # 2)) <= safe_seconds.
Proof.
  intros [H0 H1]. split.
  - change 0 with (Qfloor 0). apply Qfloor_resp_le. lra.
  - assert (H : Qfloor (q + (1 # 2)) <= Qfloor (inject_Z safe_seconds + (1 # 2)))
      by (apply Qfloor_resp_le; lra).
    assert (E : Qfloor (inject_Z safe_seconds + (1 # 2)) = safe_seconds)
      by (vm_compute; reflexivity).
    now rewrite E in H.
Qed.

(** C8, as the code has it: in every state whose current track has a
    handle, [step] returns.  The timer then shows the formatted position,
    the position being 0 while the sound is not loaded; for a position up
    to 2^53 - 1 seconds the text is minutes:seconds of the position
    rounded to a whole number.  The progress bar has the width
    position/duration x 100 per cent unless that number is zero or NaN,
    and 0 per cent then, as while the duration is not known: the width is
    the one the specification words whenever the number is not infinite,
    and it is the infinite number itself otherwise, as for a loaded sound
    that reports a duration of 0 at a position after 0.  One more frame is
    requested exactly when the handle reports playing. *)
Theorem step_updates_display (w : World) (h : Howl) :
  current_howl w = Some h ->
  exists w',
    step w = Returned tt w'
    /\ doc w' !! "timer.innerHTML"
       = Some (Joined (formatTime (Math_round (Fin (position h)))))
    /\ ((0 <= position h <= inject_Z safe_seconds)%Q ->
        as_string (formatTime (Math_round (Fin (position h))))
        = Some (minutes_colon_seconds (Qfloor (position h + (1 # 2)))))
    /\ doc w' !! "progress.style.width" = Some (Percent (progress_or_zero h))
    /\ (ratio h <> PInf -> ratio h <> NInf -> progress_or_zero h = progress h)
    /\ (ratio h = PInf \/ ratio h = NInf -> progress_or_zero h = ratio h)
    /\ (is_loaded h = true -> Qzero (hw_len h) = true -> Qpos (hw_pos h) = true ->
        progress_or_zero h = PInf)
    /\ (is_loaded h = false ->
        as_string (formatTime (Math_round (Fin (position h)))) = Some "0:00"
        /\ progress_or_zero h = Fin 0%Q)
    /\ frames w' = (if Howl_playing h then S (frames w) else frames w)
    /\ playlist w' = playlist w /\ index w' = index w /\ calls w' = calls w.
Proof.
  intros Hh. pose proof (step_effect w) as H. rewrite Hh in H.
  eexists. split; [exact H|].
  cbn [doc frames playlist index calls with_frames with_doc].
  rewrite lookup_insert_ne by discriminate.
  rewrite !lookup_insert_eq, step_timer, step_progress.
  split; [reflexivity|]. split.
  { intros Hp. apply round_position in Hp. unfold safe_seconds in Hp.
    cbn [Math_round]. apply formatTime_text. lia. }
  split; [reflexivity|]. split; [apply progress_agrees|].
  split; [intros Hi; apply (progress_infinite h Hi)|].
  split.
  { intros Hl Hlen Hpos. pose proof (ratio_zero_duration h Hl Hlen Hpos) as Hr.
    destruct (progress_infinite h (or_introl Hr)) as [E _]. now rewrite E. }
  split; [|repeat split].
  intros Hl. split; [|now apply progress_unloaded].
  unfold position. rewrite Hl. apply (formatTime_text 0). lia.
Qed.

Lemma step_updates_display_witness :
  current_howl playing_world = Some playing_howl
  /\ exists w',
       step playing_world = Returned tt w'
       /\ doc w' !! "timer.innerHTML"
          = Some (Joined (formatTime (Math_round (Fin (position playing_howl)))))
       /\ as_string (formatTime (Math_round (Fin (position playing_howl)))) = Some "0:03"
       /\ doc w' !! "progress.style.width" = Some (Percent (Fin (5 # 4)))
       /\ frames w' = S (frames playing_world).
Proof.
  assert (Hh : current_howl playing_world = Some playing_howl)
    by (vm_compute; reflexivity).
  destruct (step_updates_display playing_world playing_howl Hh)
    as (w' & Hrun & Ht & Hs & Hp & _ & _ & _ & _ & Hf & _).
  split; [exact Hh|]. exists w'. split; [exact Hrun|]. split; [exact Ht|].
  split; [rewrite Hs; [reflexivity|vm_compute; split; discriminate]|].
  split; [rewrite Hp; vm_compute; reflexivity|exact Hf].
Defined.

(** C8 as stated fails: the claim gives the bar 0 per cent whenever the
    ratio is not a finite number other than zero, but [x || 0] replaces
    zero and NaN only.  For a handle that is loaded, five seconds in, and
    reports a duration of 0 the ratio is infinite and [step] writes it:
    the width becomes Infinity per cent. *)
Lemma step_shows_infinite_ratio :
  current_howl zero_length_world = Some zero_length_howl
  /\ ratio zero_length_howl = PInf
  /\ finite_nonzero (ratio zero_length_howl) = false
  /\ progress zero_length_howl = Fin 0%Q
  /\ exists w',
       step zero_length_world = Returned tt w'
       /\ doc w' !! "progress.style.width" = Some (Percent PInf)
       /\ doc w' !! "progress.style.width"
          <> Some (Percent (progress zero_length_howl)).
Proof.
  split; [vm_compute; reflexivity|]. split; [vm_compute; reflexivity|].
  split; [vm_compute; reflexivity|]. split; [vm_compute; reflexivity|].
  exists (world_of (step zero_length_world)).
  split; [vm_compute; reflexivity|]. split; [vm_compute; reflexivity|].
  vm_compute. discriminate.
Qed.

(** The page itself does not get there as long as the library reports a
    positive length for every sound it loads, which is how the events of
    the model have it. *)
Remark zero_length_unreachable : ~ reachable zero_length_world.
Proof.
  intros Hw. pose proof (reachable_invariant _ Hw) as Hinv.
  assert (Hh : howl_on (playlist zero_length_world) 0 = Some zero_length_howl)
    by reflexivity.
  pose proof (inv_loaded _ _ _ Hinv _ _ Hh eq_refl) as Hlen. discriminate.
Qed.

(** ** The roundings of [volume] *)

(** One rounding of a number that is not negative, between two bounds. *)
Lemma rnd_between (x lo hi : Q) :
  (0 <= lo)%Q -> (lo <= x <= hi)%Q ->
  (lo - lo * (1 # 9007199254740992) - tiniest <= rnd x
   <= hi + hi * (1 # 9007199254740992) + tiniest)%Q.
Proof.
  intros Hlo [H1 H2]. pose proof (rnd_error x) as He.
  rewrite (Qabs_pos_eq x) in He by lra. apply Qabs_Qle_condition in He.
  rewrite unit_roundoff_value in He.
  assert (Hx : (lo * (1 # 9007199254740992) <= x * (1 # 9007199254740992))%Q)
    by (apply Qmult_le_compat_r; [exact H1|discriminate]).
  assert (Hx' : (x * (1 # 9007199254740992) <= hi * (1 # 9007199254740992))%Q)
    by (apply Qmult_le_compat_r; [exact H2|discriminate]).
  lra.
Qed.

Lemma Qmult_le_left (a x y : Q) : (0 <= a)%Q -> (x <= y)%Q -> (a * x <= a * y)%Q.
Proof. intros Ha H. rewrite !(Qmult_comm a). now apply Qmult_le_compat_r. Qed.

(** The literal [0.05] of the source. *)
Lemma literal_005 : rnd 0.05 = (3602879701896397 # 72057594037927936)%Q.
Proof. vm_compute. reflexivity. Qed.

Lemma slack_value (width : Q) :
  (slack width == (width + 25) * (1 # 1125899906842624))%Q.
Proof. unfold slack. now apply Qmult_comp. Qed.

(** The fill [volume] shows is level x 90 up to three roundings. *)
Lemma slider_fill_near (level : Q) :
  (0 <= level <= 1)%Q ->
  (Qabs (slider_fill level - level * 90) <= 1 # 17592186044416)%Q.
Proof.
  intros [H0 H1]. unfold slider_fill, fmul, fdiv.
  pose proof tiniest_small as [Ht0 Ht].
  pose proof (rnd_between (level * 90) (level * 90) (level * 90) ltac:(lra) ltac:(lra)) as Ha.
  set (a := rnd (level * 90)) in *.
  pose proof (rnd_nonneg (level * 90) ltac:(lra)) as Ha0. fold a in Ha0.
  assert (Hb0 : (0 <= a / 100)%Q) by (apply Qle_shift_div_l; lra).
  pose proof (rnd_between (a / 100) (a / 100) (a / 100) Hb0 ltac:(lra)) as Hb.
  set (b := rnd (a / 100)) in *.
  pose proof (rnd_nonneg (a / 100) Hb0) as Hb1. fold b in Hb1.
  pose proof (rnd_between (b * 100) (b * 100) (b * 100) ltac:(lra) ltac:(lra)) as Hc.
  set (c := rnd (b * 100)) in *.
  assert (Ea : (a / 100 == a * (1 # 100))%Q) by (unfold Qdiv; reflexivity).
  rewrite Ea in Hb. apply Qabs_Qle_condition. lra.
Qed.

(** The offset [volume] gives the button is
    width x (level x 0.9 + 0.05) - 25 up to seven roundings. *)
Lemma slider_left_near (width level : Q) :
  (0 <= level <= 1)%Q -> (0 <= width)%Q ->
  (Qabs (slider_left width level - (width * (level * 0.9 + 0.05) - 25))
   <= slack width)%Q.
Proof.
  intros [H0 H1] Hw. unfold slider_left, fsub, fadd, fmul, fdiv.
  rewrite literal_005, slack_value.
  pose proof tiniest_small as [Ht0 Ht].
  pose proof (rnd_between (level * 90) (level * 90) (level * 90) ltac:(lra) ltac:(lra)) as Ha.
  set (a := rnd (level * 90)) in *.
  pose proof (rnd_nonneg (level * 90) ltac:(lra)) as Ha0. fold a in Ha0.
  assert (Ea : (a / 100 == a * (1 # 100))%Q) by (unfold Qdiv; reflexivity).
  assert (Hb0 : (0 <= a / 100)%Q) by lra.
  pose proof (rnd_between (a / 100) (a / 100) (a / 100) Hb0 ltac:(lra)) as Hb.
  pose proof (rnd_nonneg (a / 100) Hb0) as Hb1.
  set (b := rnd (a / 100)) in *. rewrite Ea in Hb.
  set (wl := (width * level)%Q).
  assert (Hwl : (0 <= wl <= width)%Q).
  { unfold wl. split; [apply Qmult_le_0_compat; lra|].
    rewrite <- (Qmult_1_r width) at 2. apply Qmult_le_left; lra. }
  assert (Hwb : (width * ((9 # 10) * level - (1 # 4503599627370496))
                 <= width * b
                 <= width * ((9 # 10) * level + (1 # 4503599627370496)))%Q).
  { split; apply Qmult_le_left; lra. }
  assert (Ewl : forall k e : Q, (width * (k * level + e) == k * wl + width * e)%Q)
    by (intros; unfold wl; ring).
  assert (Ewl' : forall k e : Q, (width * (k * level - e) == k * wl - width * e)%Q)
    by (intros; unfold wl; ring).
  rewrite Ewl, Ewl' in Hwb.
  assert (Hp0 : (0 <= width * b)%Q) by (apply Qmult_le_0_compat; lra).
  pose proof (rnd_between (width * b) (width * b) (width * b) Hp0 ltac:(lra)) as Hp.
  pose proof (rnd_nonneg (width * b) Hp0) as Hp1.
  set (p := rnd (width * b)) in *.
  assert (Hq0 : (0 <= width * (3602879701896397 # 72057594037927936))%Q)
    by (apply Qmult_le_0_compat; [lra|discriminate]).
  pose proof (rnd_between _ _ _ Hq0 (conj (Qle_refl _) (Qle_refl _))) as Hq.
  pose proof (rnd_nonneg _ Hq0) as Hq1.
  set (q := rnd (width * (3602879701896397 # 72057594037927936))) in *.
  pose proof (rnd_between (p + q) (p + q) (p + q) ltac:(lra) ltac:(lra)) as Hs.
  set (s := rnd (p + q)) in *.
  pose proof (rnd_error (s - 25)) as Ho. rewrite unit_roundoff_value in Ho.
  set (o := rnd (s - 25)) in *.
  assert (Habs : (Qabs (s - 25) <= s + 25)%Q).
  { pose proof (rnd_nonneg (p + q) ltac:(lra)) as Hs1. fold s in Hs1.
    apply Qabs_Qle_condition. lra. }
  assert (Habs' : (Qabs (s - 25) * (1 # 9007199254740992)
                   <= (s + 25) * (1 # 9007199254740992))%Q)
    by (apply Qmult_le_compat_r; [exact Habs|discriminate]).
  apply Qabs_Qle_condition in Ho.
  assert (Ew : (width * (level * 0.9 + 0.05) == (9 # 10) * wl + (1 # 20) * width)%Q)
    by (unfold wl; ring).
  rewrite Ew. apply Qabs_Qle_condition. lra.
Qed.

(** From 500 pixels on the offset is not negative: there
    [innerWidth * 0.05] is 25 or more in doubles too. *)
Lemma slider_left_nonneg (width level : Q) :
  (0 <= level)%Q -> (500 <= width)%Q -> (0 <= slider_left width level)%Q.
Proof.
  intros H0 Hw. unfold slider_left, fsub, fadd, fmul, fdiv.
  rewrite literal_005.
  assert (Hb : (0 <= rnd (rnd (level * 90) / 100))%Q).
  { apply rnd_nonneg. apply Qle_shift_div_l; [reflexivity|].
    pose proof (rnd_nonneg (level * 90) ltac:(lra)). lra. }
  set (b := rnd (rnd (level * 90) / 100)) in *.
  assert (Hp : (0 <= rnd (width * b))%Q)
    by (apply rnd_nonneg, Qmult_le_0_compat; lra).
  set (p := rnd (width * b)) in *.
  assert (Hq : (25 <= rnd (width * (3602879701896397 # 72057594037927936)))%Q).
  { assert (E : rnd (500 * (3602879701896397 # 72057594037927936)) = 25%Q)
      by (vm_compute; reflexivity).
    rewrite <- E. apply rnd_monotone. apply Qmult_le_compat_r; [exact Hw|discriminate]. }
  set (q := rnd (width * (3602879701896397 # 72057594037927936))) in *.
  assert (Hs : (25 <= rnd (p + q))%Q).
  { assert (E : rnd 25 = 25%Q) by (vm_compute; reflexivity).
    rewrite <- E at 1. apply rnd_monotone. lra. }
  apply rnd_nonneg. lra.
Qed.

(** C4, as the code has it: for a level in [0,1] and a viewport that is
    not of negative width, [volume] sets the global volume to the level;
    the fill to level x 90 per cent, up to the rounding of its three
    operations (2^-44 of a per cent at most); and the slider button to an
    offset that is, up to the rounding of its seven operations (at most
    (width + 25) x 2^-50 pixels), between width x 0.05 - 25 and
    width x 0.95 - 25.  The offset is not negative once the viewport is
    500 pixels wide. *)
Theorem volume_slider_range (level : Q) (w : World) :
  (0 <= level <= 1)%Q ->
  (0 <= innerWidth w)%Q ->
  exists w',
    volume level w = Returned tt w'
    /\ master w' = level
    /\ doc w' !! "barFull.style.width" = Some (Percent (Fin (slider_fill level)))
    /\ (Qabs (slider_fill level - level * 90) <= 1 # 17592186044416)%Q
    /\ doc w' !! "sliderBtn.style.left" = Some (Pixels (slider_left (innerWidth w) level))
    /\ (innerWidth w * 0.05 - 25 - slack (innerWidth w)
        <= slider_left (innerWidth w) level
        <= innerWidth w * 0.95 - 25 + slack (innerWidth w))%Q
    /\ (500 <= innerWidth w -> 0 <= slider_left (innerWidth w) level)%Q.
Proof.
  intros [Hl0 Hl1] Hw. eexists. split; [apply volume_effect|].
  assert (Hin : Qle_bool 0 level && Qle_bool level 1 = true)
    by (apply andb_true_intro; split; now apply Qle_bool_iff).
  rewrite Hin. cbn [master doc with_doc with_master with_calls].
  split; [reflexivity|].
  rewrite lookup_insert_ne by discriminate. rewrite !lookup_insert_eq.
  split; [reflexivity|]. split; [now apply slider_fill_near|].
  split; [reflexivity|]. split; [|intros Hbig; now apply slider_left_nonneg].
  pose proof (slider_left_near (innerWidth w) level (conj Hl0 Hl1) Hw) as Hn.
  apply Qabs_Qle_condition in Hn.
  set (x := innerWidth w) in *. set (xl := (x * level)%Q).
  assert (Hxl : (0 <= xl <= x)%Q).
  { unfold xl. split; [apply Qmult_le_0_compat; lra|].
    rewrite <- (Qmult_1_r x) at 2. apply Qmult_le_left; lra. }
  assert (Ex : (x * (level * 0.9 + 0.05) == (9 # 10) * xl + (1 # 20) * x)%Q)
    by (unfold xl; ring).
  rewrite Ex in Hn. lra.
Qed.

Lemma volume_slider_range_witness :
  (0 <= 1 # 2 <= 1)%Q /\ (0 <= innerWidth fresh_world)%Q
  /\ exists w',
       volume (1 # 2) fresh_world = Returned tt w'
       /\ master w' = 1 # 2
       /\ doc w' !! "barFull.style.width" = Some (Percent (Fin (slider_fill (1 # 2))))
       /\ doc w' !! "sliderBtn.style.left" = Some (Pixels (slider_left 1280 (1 # 2)))
       /\ slider_fill (1 # 2) = 45%Q
       /\ slider_left 1280 (1 # 2) = 615%Q.
Proof.
  assert (Hl : (0 <= 1 # 2 <= 1)%Q) by (split; discriminate).
  assert (Hw : (0 <= innerWidth fresh_world)%Q) by discriminate.
  destruct (volume_slider_range (1 # 2) fresh_world Hl Hw)
    as (w' & Hrun & Hm & Hf & _ & Hs & _).
  split; [exact Hl|]. split; [exact Hw|].
  exists w'. split; [exact Hrun|]. split; [exact Hm|]. split; [exact Hf|].
  split; [exact Hs|]. split; vm_compute; reflexivity.
Defined.

(** C4 as stated fails: on a viewport 400 pixels wide, [volume(0)] puts
    the slider button at -5 pixels, left of the interval the claim
    gives.  The right end is not kept either: on a viewport 1024 pixels
    wide [volume(1)] puts the button at 947.8000000000001 pixels, past
    1024 x 0.95 - 25 by the rounding of the doubles, whether that bound
    is taken exactly or computed in doubles.  Nor is the fill level x 90
    to the last digit: at the level 0.7 it is 62.999999999999986. *)
Lemma volume_zero_on_narrow_screen :
  reachable narrow_world
  /\ (0 <= 0 <= 1)%Q
  /\ (exists w',
        volume 0 narrow_world = Returned tt w'
        /\ doc w' !! "sliderBtn.style.left" = Some (Pixels (slider_left 400 0))
        /\ slider_left 400 0 = (-5)%Q
        /\ ~ (0 <= slider_left 400 0 <= 400 * 0.95 - 25)%Q)
  /\ slider_left 1024 1 = (8336936966448743 # 8796093022208)%Q
  /\ ~ (0 <= slider_left 1024 1 <= 1024 * 0.95 - 25)%Q
  /\ ~ (0 <= slider_left 1024 1 <= fsub (fmul 1024 (rnd 0.95)) 25)%Q
  /\ slider_fill (rnd 0.7) = (4433230883192831 # 70368744177664)%Q
  /\ ~ (slider_fill (rnd 0.7) == rnd 0.7 * 90)%Q
  /\ ~ (slider_fill (rnd 0.7) == fmul (rnd 0.7) 90)%Q.
Proof.
  split; [apply reachable_startup; reflexivity|].
  split; [split; discriminate|]. split.
  { eexists. split; [apply volume_effect|].
    cbn [doc with_doc]. rewrite lookup_insert_eq.
    split; [reflexivity|]. split; [vm_compute; reflexivity|].
    assert (E : slider_left 400 0 = (-5)%Q) by (vm_compute; reflexivity).
    rewrite E. intros [H _]. now apply H. }
  assert (E : slider_left 1024 1 = (8336936966448743 # 8796093022208)%Q)
    by (vm_compute; reflexivity).
  split; [exact E|]. rewrite E.
  split; [intros [_ H]; apply Qle_bool_iff in H; vm_compute in H; discriminate|].
  split; [intros [_ H]; apply Qle_bool_iff in H; vm_compute in H; discriminate|].
  split; [vm_compute; reflexivity|].
  split; intros H; apply Qeq_bool_iff in H; vm_compute in H; discriminate.
Qed.

(** * Further properties of the player *)

(** ** The playlist and its handles *)

(** X1: in every state the page can reach, each handle other than the
    current track's is stopped, so two tracks never have a handle that
    is playing or paused at the same time. *)
Theorem others_always_stopped (w : World) :
  reachable w ->
  (forall i h, howl_on (playlist w) i = Some h -> i <> index w -> is_stopped h = true)
  /\ (forall i j hi hj,
        howl_on (playlist w) i = Some hi -> howl_on (playlist w) j = Some hj ->
        is_stopped hi = false -> is_stopped hj = false -> i = j).
Proof.
  intros Hw. pose proof (reachable_invariant w Hw) as Hinv.
  assert (H : forall i h, howl_on (playlist w) i = Some h -> i <> index w ->
                          is_stopped h = true).
  { intros i h Hi Hne. unfold is_stopped.
    now rewrite (inv_others _ _ _ Hinv i h Hi Hne). }
  split; [exact H|].
  intros i j hi hj Hi Hj Hsi Hsj.
  destruct (Z.eq_dec i (index w)) as [->|Hni];
    [|rewrite (H i hi Hi Hni) in Hsi; discriminate].
  destruct (Z.eq_dec j (index w)) as [->|Hnj]; [reflexivity|].
  rewrite (H j hj Hj Hnj) in Hsj. discriminate.
Qed.

Lemma others_always_stopped_witness :
  reachable paused_world
  /\ forall i h, howl_on (playlist paused_world) i = Some h ->
                 i <> index paused_world -> is_stopped h = true.
Proof.
  exact (conj reachable_paused (proj1 (others_always_stopped paused_world reachable_paused))).
Defined.

(** X2: the playlist keeps its twenty entries, in order, with the title,
    the credits and the file they were given; only the [howl] field of an
    entry ever changes. *)
Theorem playlist_data_fixed (w : World) :
  reachable w ->
  with_howl None <$> playlist w = tracks
  /\ length (playlist w) = 20%nat
  /\ forall i t, at_index (playlist w) i = Some t ->
       exists t0, at_index tracks i = Some t0 /\ t = with_howl (howl t) t0.
Proof.
  intros Hw. pose proof (reachable_invariant w Hw) as Hinv.
  pose proof (inv_tracks _ _ _ Hinv) as Htr.
  split; [exact Htr|]. split.
  - rewrite <- (length_fmap (with_howl None)), Htr. reflexivity.
  - intros i t Ht. exists (with_howl None t). split.
    + rewrite <- Htr. unfold at_index in *. destruct (i <? 0); [discriminate|].
      now rewrite list_lookup_fmap, Ht.
    + now destruct t.
Qed.

Lemma playlist_data_fixed_witness :
  reachable playing_world /\ with_howl None <$> playlist playing_world = tracks.
Proof.
  exact (conj reachable_playing (proj1 (playlist_data_fixed playing_world reachable_playing))).
Defined.

(** X3: the handle of a track was constructed on the two encodings of
    that track's own file, ./audio/<file>.webm and ./audio/<file>.mp3,
    with [html5] on. *)
Theorem handle_streams_own_file (w : World) (i : Z) (h : Howl) :
  reachable w ->
  howl_on (playlist w) i = Some h ->
  exists t, at_index tracks i = Some t
            /\ hw_src h = ["./audio/" +. file t +. ".webm"; "./audio/" +. file t +. ".mp3"]
            /\ hw_html5 h = true.
Proof.
  intros Hw Hh. pose proof (reachable_invariant w Hw) as Hinv.
  destruct (inv_source _ _ _ Hinv _ _ Hh) as (t & Ht & Hs & Hh5).
  exists (with_howl None t). split; [|split; assumption].
  rewrite <- (inv_tracks _ _ _ Hinv). unfold at_index in *.
  destruct (i <? 0); [discriminate|]. now rewrite list_lookup_fmap, Ht.
Qed.

Lemma handle_streams_own_file_witness :
  reachable playing_world
  /\ howl_on (playlist playing_world) 0 = Some playing_howl
  /\ exists t, at_index tracks 0 = Some t
               /\ hw_src playing_howl
                  = ["./audio/" +. file t +. ".webm"; "./audio/" +. file t +. ".mp3"]
               /\ hw_html5 playing_howl = true.
Proof.
  assert (Hh : howl_on (playlist playing_world) 0 = Some playing_howl)
    by (vm_compute; reflexivity).
  exact (conj reachable_playing
           (conj Hh (handle_streams_own_file playing_world 0 playing_howl
                       reachable_playing Hh))).
Defined.

(** X4: [volume], [step], [togglePlaylist], [toggleVolume], [resize]
    and [move] only write to the display: whether they return or throw,
    the playlist with its handles and the index are what they were, and no
    handle has been constructed.  For [move] that is so for every event
    object, the mouse event at [clientX] 0 on which it throws included. *)
Theorem display_methods_leave_player (w : World) :
  (forall val, same_player w (world_of (volume val w)))
  /\ same_player w (world_of (step w))
  /\ same_player w (world_of (togglePlaylist w))
  /\ same_player w (world_of (toggleVolume w))
  /\ same_player w (world_of (resize w))
  /\ (forall event scrollWidth, same_player w (world_of (move event scrollWidth w)))
  /\ (forall scrollWidth,
        sliderDown w = true ->
        move (mouse_at 0) scrollWidth w = TypeError w
        /\ same_player w (world_of (move (mouse_at 0) scrollWidth w))).
Proof.
  split; [intros val; apply volume_same|].
  split; [apply step_same|].
  split; [apply toggle_same|].
  split; [apply toggle_same|].
  split; [apply resize_same|].
  split; [intros event scrollWidth; apply move_same|].
  intros scrollWidth Hd. split; [|apply move_same].
  rewrite move_effect, Hd. reflexivity.
Qed.

(** ** Moving through the playlist *)

Lemma invariant_length (w : World) : invariant w -> length (playlist w) = 20%nat.
Proof.
  intros Hinv. rewrite <- (length_fmap (with_howl None)), (inv_tracks _ _ _ Hinv).
  reflexivity.
Qed.

(** [skipTo] of a valid index from a state that satisfies the invariant. *)
Lemma skipTo_lands (i : Z) (w : World) :
  invariant w -> valid_index w i ->
  exists w' h',
    skipTo i w = Returned tt w'
    /\ index w' = i
    /\ howl_on (playlist w') i = Some h'
    /\ is_active h' = true
    /\ invariant w'.
Proof.
  intros Hinv Hi.
  destruct (invariant_skipTo i w Hinv Hi) as [Hinv' _].
  destruct (valid_at_index _ _ (inv_index _ _ _ Hinv)) as [t Ht].
  rewrite (skipTo_run i w t Ht) in *.
  assert (Hv : valid_index (before_play w) (target (Some i) (before_play w))).
  { apply (inv_index _ _ _ (proj1 (before_play_settled i w Hinv Hi))). }
  destruct (play_on_track (Some i) (before_play w) Hv)
    as (w' & h' & Hrun & Hidx & Hh & Hact & _).
  cbn [target] in *. rewrite Hrun in *. cbn [world_of] in Hinv'.
  exists w', h'. repeat (split; [assumption || reflexivity|]). exact Hinv'.
Qed.

Lemma skip_lands (direction : string) (w : World) :
  invariant w ->
  exists w' h',
    skip direction w = Returned tt w'
    /\ index w' = skip_index direction w
    /\ howl_on (playlist w') (index w') = Some h'
    /\ is_active h' = true
    /\ invariant w'.
Proof.
  intros Hinv. rewrite skip_run.
  destruct (skipTo_lands (skip_index direction w) w Hinv) as (w' & h' & Hrun & Hi & Hh & Ha & Hinv').
  { apply skip_index_valid, (inv_index _ _ _ Hinv). }
  exists w', h'. rewrite Hi. repeat (split; [assumption || reflexivity|]). exact Hinv'.
Qed.

Lemma next_index (w : World) :
  invariant w -> skip_index "next" w = (index w + 1) mod 20.
Proof.
  intros Hinv. rewrite skip_index_next by apply (inv_index _ _ _ Hinv).
  now rewrite (invariant_length w Hinv).
Qed.

Lemma prev_index (w : World) :
  invariant w -> skip_index "prev" w = (index w - 1 + 20) mod 20.
Proof.
  intros Hinv. rewrite skip_index_prev by apply (inv_index _ _ _ Hinv).
  now rewrite (invariant_length w Hinv).
Qed.

Lemma invariant_index_20 (w : World) : invariant w -> 0 <= index w < 20.
Proof.
  intros Hinv. pose proof (inv_index _ _ _ Hinv) as H.
  rewrite (invariant_length w Hinv) in H. exact H.
Qed.

Lemma next_prev_mod (i : Z) :
  0 <= i < 20 -> ((i + 1) mod 20 - 1 + 20) mod 20 = i.
Proof.
  intros Hi. assert (H : i = 19 \/ i < 19) by lia. destruct H as [->|H]; [reflexivity|].
  rewrite (Z.mod_small (i + 1)) by lia.
  replace (i + 1 - 1 + 20) with (i + 1 * 20) by lia.
  rewrite Z.mod_add by lia. apply Z.mod_small. lia.
Qed.

Lemma prev_next_mod (i : Z) :
  0 <= i < 20 -> ((i - 1 + 20) mod 20 + 1) mod 20 = i.
Proof.
  intros Hi. assert (H : i = 0 \/ 0 < i) by lia. destruct H as [->|H]; [reflexivity|].
  replace (i - 1 + 20) with (i - 1 + 1 * 20) by lia.
  rewrite Z.mod_add by lia. rewrite (Z.mod_small (i - 1)) by lia.
  rewrite Z.mod_small; lia.
Qed.

(** X5: the next and previous buttons undo each other: in every
    reachable state, next followed by previous, and previous followed by
    next, end on the track they started from, wrap-around included. *)
Theorem next_and_prev_cancel (w : World) :
  reachable w ->
  index (run [ClickNextBtn; ClickPrevBtn] w) = index w
  /\ index (run [ClickPrevBtn; ClickNextBtn] w) = index w.
Proof.
  intros Hw. pose proof (reachable_invariant w Hw) as Hinv.
  pose proof (invariant_index_20 w Hinv) as Hi.
  cbn [run]. unfold fire. cbn [handle]. split.
  - destruct (skip_lands "next" w Hinv) as (w1 & _ & -> & Hi1 & _ & _ & Hinv1).
    cbn [world_of].
    destruct (skip_lands "prev" w1 Hinv1) as (w2 & _ & -> & Hi2 & _).
    cbn [world_of]. rewrite Hi2, (prev_index w1 Hinv1), Hi1, (next_index w Hinv).
    now apply next_prev_mod.
  - destruct (skip_lands "prev" w Hinv) as (w1 & _ & -> & Hi1 & _ & _ & Hinv1).
    cbn [world_of].
    destruct (skip_lands "next" w1 Hinv1) as (w2 & _ & -> & Hi2 & _).
    cbn [world_of]. rewrite Hi2, (next_index w1 Hinv1), Hi1, (prev_index w Hinv).
    now apply prev_next_mod.
Qed.

Lemma next_and_prev_cancel_witness :
  reachable playing_world
  /\ index (run [ClickNextBtn; ClickPrevBtn] playing_world) = index playing_world
  /\ index (run [ClickPrevBtn; ClickNextBtn] playing_world) = index playing_world.
Proof.
  exact (conj reachable_playing (next_and_prev_cancel playing_world reachable_playing)).
Defined.

Lemma next_presses_index (k : nat) (w : World) :
  invariant w ->
  index (run (next_presses k) w) = (index w + Z.of_nat k) mod 20
  /\ invariant (run (next_presses k) w).
Proof.
  revert w. induction k as [|k IH]; intros w Hinv.
  - cbn [next_presses replicate run]. pose proof (invariant_index_20 w Hinv).
    split; [|exact Hinv]. rewrite Z.add_0_r, Z.mod_small; lia.
  - change (next_presses (S k)) with (ClickNextBtn :: next_presses k).
    cbn [run]. unfold fire. cbn [handle].
    destruct (skip_lands "next" w Hinv) as (w1 & _ & -> & Hi1 & _ & _ & Hinv1).
    cbn [world_of]. destruct (IH w1 Hinv1) as [-> Hinv'].
    split; [|exact Hinv']. rewrite Hi1, (next_index w Hinv).
    rewrite Zplus_mod_idemp_l. f_equal. lia.
Qed.

(** X6: the next button cycles through the playlist: [k] presses from a
    reachable state lead to the track (index + k) mod 20, so twenty
    presses lead back to the track they started from. *)
Theorem next_cycles (k : nat) (w : World) :
  reachable w ->
  index (run (next_presses k) w) = (index w + Z.of_nat k) mod 20
  /\ index (run (next_presses 20) w) = index w.
Proof.
  intros Hw. pose proof (reachable_invariant w Hw) as Hinv.
  split; [apply next_presses_index, Hinv|].
  rewrite (proj1 (next_presses_index 20 w Hinv)).
  pose proof (invariant_index_20 w Hinv).
  change (Z.of_nat 20) with (1 * 20). rewrite Z.mod_add by lia.
  apply Z.mod_small. lia.
Qed.

Lemma next_cycles_witness :
  reachable playing_world
  /\ index (run (next_presses 23) playing_world) = 3.
Proof.
  exact (conj reachable_playing (proj1 (next_cycles 23 playing_world reachable_playing))).
Defined.

Lemma onend_run (i : Z) (w : World) :
  callback i onend w
  = skip "next"
      (with_doc (<["bar.style.display" := Text "block"]>
         (<["wave.container.style.display" := Text "none"]> (doc w))) w).
Proof. reflexivity. Qed.

(** X7: when the library reports that a sound has ended, the player
    moves to the track after the current one, whichever track the sound
    belonged to: the index becomes (index + 1) mod 20 and the handle of
    that track is active. *)
Theorem onend_plays_next (n : nat) (w : World) :
  reachable w ->
  enabled (HowlEmit n onend) w = true ->
  exists h',
    returned (handle (HowlEmit n onend) w) = true
    /\ index (fire (HowlEmit n onend) w) = (index w + 1) mod 20
    /\ current_howl (fire (HowlEmit n onend) w) = Some h'
    /\ is_active h' = true.
Proof.
  intros Hw _. pose proof (reachable_invariant w Hw) as Hinv.
  unfold fire. cbn [handle]. rewrite onend_run.
  set (w0 := with_doc _ w).
  assert (Hinv0 : invariant w0) by exact Hinv.
  destruct (skip_lands "next" w0 Hinv0) as (w' & h' & -> & Hi & Hh & Ha & _).
  exists h'. cbn [world_of returned]. split; [reflexivity|].
  split; [rewrite Hi; apply (next_index w0 Hinv0)|].
  split; [exact Hh|exact Ha].
Qed.

Lemma onend_plays_next_witness :
  reachable playing_world
  /\ enabled (HowlEmit 0 onend) playing_world = true
  /\ exists h',
       returned (handle (HowlEmit 0 onend) playing_world) = true
       /\ index (fire (HowlEmit 0 onend) playing_world) = 1
       /\ current_howl (fire (HowlEmit 0 onend) playing_world) = Some h'
       /\ is_active h' = true.
Proof.
  exact (conj reachable_playing
           (conj eq_refl (onend_plays_next 0 playing_world reachable_playing eq_refl))).
Defined.

(** ** Errors and edges of the transport *)

Ltac doc_lookup :=
  repeat (rewrite lookup_insert_ne by discriminate); rewrite ?lookup_insert_eq.

(** X8: [pause] on a track without a handle throws before it has touched
    anything, the buttons included; on a track with a handle it returns
    having called [pause()] on that handle, shows the play button and
    hides the pause button, and leaves the index alone. *)
Theorem pause_shows_play_button (w : World) :
  match current_howl w with
  | None => pause w = TypeError w
  | Some h =>
      exists w',
        pause w = Returned tt w'
        /\ current_howl w' = Some (Howl_pause h)
        /\ is_active (Howl_pause h) = false
        /\ calls w' = calls w ++ [Pause (index w)]
        /\ doc w' !! "playBtn.style.display" = Some (Text "block")
        /\ doc w' !! "pauseBtn.style.display" = Some (Text "none")
        /\ index w' = index w
  end.
Proof.
  unfold current_howl, howl_on. open_world w.
  unfold pause, call_howl, howl_of, track_of. exec.
  destruct (at_index p ix) as [t|] eqn:Ht; exec; [|reflexivity].
  destruct (howl t) as [h|] eqn:Hh; exec; [|reflexivity].
  eexists. split; [reflexivity|]. exec. rewrite Ht. exec.
  split; [reflexivity|]. split; [|repeat split; doc_lookup; reflexivity].
  unfold Howl_pause. destruct (is_active h) eqn:Ha; [reflexivity|exact Ha].
Qed.

(** X9: [skipTo] of an index outside the playlist throws, but only after
    it has stopped the current handle and reset the progress bar: the
    index is unchanged and nothing is playing. *)
Theorem skipTo_outside_playlist (i : Z) (w : World) :
  valid_index w (index w) ->
  ~ valid_index w i ->
  skipTo i w = TypeError (before_play w)
  /\ index (world_of (skipTo i w)) = index w
  /\ doc (world_of (skipTo i w)) !! "progress.style.width" = Some (Percent (Fin 0%Q))
  /\ match current_howl w with
     | Some h =>
         current_howl (world_of (skipTo i w)) = Some (Howl_stop h)
         /\ calls (world_of (skipTo i w)) = calls w ++ [Stop (index w)]
     | None => calls (world_of (skipTo i w)) = calls w
     end.
Proof.
  intros Hc Hi. destruct (valid_at_index _ _ Hc) as [t Ht].
  rewrite (skipTo_run i w t Ht).
  assert (Hlen : length (playlist (before_play w)) = length (playlist w)).
  { unfold before_play. destruct (current_howl w);
      cbn [playlist with_doc with_playlist with_calls]; now rewrite ?length_alter. }
  assert (Hnone : at_index (playlist (before_play w)) (target (Some i) (before_play w)) = None).
  { cbn [target]. destruct (at_index (playlist (before_play w)) i) as [t'|] eqn:Ht';
      [|reflexivity].
    apply at_index_valid in Ht'. rewrite Hlen in Ht'. contradiction. }
  rewrite (play_throws (Some i) (before_play w) Hnone). cbn [world_of].
  split; [reflexivity|]. unfold before_play, current_howl.
  destruct (howl_on (playlist w) (index w)) as [h|] eqn:Hh;
    cbn [index doc calls playlist with_doc with_playlist with_calls];
    repeat split; doc_lookup; try reflexivity.
  apply (howl_on_put _ _ _ _ Ht).
Qed.

Lemma skipTo_outside_playlist_witness :
  valid_index playing_world (index playing_world)
  /\ ~ valid_index playing_world 20
  /\ index (world_of (skipTo 20 playing_world)) = 0
  /\ current_howl (world_of (skipTo 20 playing_world)) = Some (Howl_stop playing_howl).
Proof.
  assert (Hc : valid_index playing_world (index playing_world))
    by (vm_compute; split; [discriminate|reflexivity]).
  assert (Hi : ~ valid_index playing_world 20)
    by (intros [_ H]; vm_compute in H; discriminate).
  destruct (skipTo_outside_playlist 20 playing_world Hc Hi) as (_ & Hx & _ & Hh).
  split; [exact Hc|]. split; [exact Hi|]. split; [exact Hx|].
  exact (proj1 Hh).
Defined.

(** What [play] shows. *)
Lemma play_display (arg : option Z) (w : World) (data : Track) :
  at_index (playlist w) (target arg w) = Some data ->
  exists w',
    play arg w = Returned tt w'
    /\ doc w' !! "track.innerHTML" = Some (Text (title data))
    /\ doc w' !! "playBtn.style.display" = Some (Text "none")
    /\ doc w' !! "pauseBtn.style.display"
       = Some (Text (match howl data with
                     | Some h => if is_loaded h then "block" else "none"
                     | None => "none"
                     end))
    /\ doc w' !! "loading.style.display"
       = match howl data with
         | Some h => if is_loaded h then doc w !! "loading.style.display"
                     else Some (Text "block")
         | None => Some (Text "block")
         end.
Proof.
  intros H. open_world w.
  assert (Ht : target arg (mkWorld p ix d m iw ih sd fr tm cs)
               = match arg with Some i => i | None => ix end) by reflexivity.
  rewrite Ht in *. clear Ht.
  unfold play, call_howl, howl_of, track_of. exec.
  set (i := match arg with Some i => i | None => ix end) in *.
  rewrite H. exec.
  destruct (howl data) as [h|] eqn:Hh; exec; rewrite H; exec; rewrite ?Hh; exec;
    rewrite ?H; exec.
  - change (is_loaded (Howl_play h)) with (is_loaded h).
    destruct (is_loaded h); exec; eexists; (split; [reflexivity|]);
      exec; repeat split; doc_lookup; reflexivity.
  - exec. eexists. split; [reflexivity|]. exec. repeat split; doc_lookup; reflexivity.
Qed.

(** X10: [play] shows the title of the track it plays and hides the play
    button.  The first time a track is played, and as long as its sound
    has not loaded, it shows the loading indicator and hides the pause
    button as well; on a loaded sound it shows the pause button and leaves
    the loading indicator as it was. *)
Theorem play_shows_track (arg : option Z) (w : World) :
  valid_index w (target arg w) ->
  exists w' data,
    play arg w = Returned tt w'
    /\ at_index (playlist w) (target arg w) = Some data
    /\ doc w' !! "track.innerHTML" = Some (Text (title data))
    /\ doc w' !! "playBtn.style.display" = Some (Text "none")
    /\ match howl_on (playlist w) (target arg w) with
       | Some h =>
           if is_loaded h then
             doc w' !! "pauseBtn.style.display" = Some (Text "block")
             /\ doc w' !! "loading.style.display" = doc w !! "loading.style.display"
           else
             doc w' !! "pauseBtn.style.display" = Some (Text "none")
             /\ doc w' !! "loading.style.display" = Some (Text "block")
       | None =>
           doc w' !! "pauseBtn.style.display" = Some (Text "none")
           /\ doc w' !! "loading.style.display" = Some (Text "block")
       end.
Proof.
  intros Hv. destruct (valid_at_index _ _ Hv) as [data Hd].
  destruct (play_display arg w data Hd) as (w' & Hrun & Ht & Hp & Hq & Hl).
  exists w', data. repeat (split; [assumption|]).
  unfold howl_on. rewrite Hd.
  destruct (howl data) as [h|]; [destruct (is_loaded h)|]; split; assumption.
Qed.

Lemma play_shows_track_witness :
  valid_index fresh_world (target None fresh_world)
  /\ exists w',
       play None fresh_world = Returned tt w'
       /\ doc w' !! "track.innerHTML" = Some (Text "I")
       /\ doc w' !! "pauseBtn.style.display" = Some (Text "none")
       /\ doc w' !! "loading.style.display" = Some (Text "block").
Proof.
  assert (Hv : valid_index fresh_world (target None fresh_world))
    by (vm_compute; split; [discriminate|reflexivity]).
  destruct (play_shows_track None fresh_world Hv) as (w' & data & Hrun & Hd & Ht & _ & Hm).
  assert (Hd0 : Some data = at_index tracks 0) by (rewrite <- Hd; reflexivity).
  injection Hd0 as ->. split; [exact Hv|].
  exists w'. split; [exact Hrun|]. split; [exact Ht|]. exact Hm.
Defined.

(** ** The panels *)

(** What one call of [toggle] does. *)
Lemma toggle_effect (panel : string) (w : World) :
  toggle panel w = Returned tt
    (with_doc
       (<[panel +. ".className" :=
            Text (if is_text (doc w !! (panel +. ".style.display")) "block"
                  then "fadeout" else "fadein")]> (doc w))
       (with_timers
          (timers w ++ [(panel +. ".style.display",
                         if is_text (doc w !! (panel +. ".style.display")) "block"
                         then "none" else "block")])
          w)).
Proof.
  open_world w. unfold toggle. exec.
  now destruct (is_text (d !! (panel +. ".style.display")) "block").
Qed.

Lemma timeout_first (k v : string) (w : World) :
  timers w = [(k, v)] ->
  fire (Timeout 0) w = with_doc (<[k := Text v]> (doc w)) (with_timers [] w).
Proof.
  intros Ht. open_world w. subst tm. reflexivity.
Qed.

(** Showing and hiding a panel, each time with the timer fired. *)
Lemma toggle_there_and_back (panel : string) (w : World) :
  timers w = [] ->
  is_text (doc w !! (panel +. ".style.display")) "block" = false ->
  panel +. ".className" <> panel +. ".style.display" ->
  let shown := fire (Timeout 0) (world_of (toggle panel w)) in
  let hidden := fire (Timeout 0) (world_of (toggle panel shown)) in
  doc shown !! (panel +. ".style.display") = Some (Text "block")
  /\ doc shown !! (panel +. ".className") = Some (Text "fadein")
  /\ doc hidden !! (panel +. ".style.display") = Some (Text "none")
  /\ doc hidden !! (panel +. ".className") = Some (Text "fadeout")
  /\ timers hidden = []
  /\ same_player w hidden.
Proof.
  intros Ht Hs Hne shown hidden.
  assert (Hshown : shown
    = with_doc (<[panel +. ".style.display" := Text "block"]>
                  (<[panel +. ".className" := Text "fadein"]> (doc w))) w).
  { unfold shown. rewrite toggle_effect, Hs, Ht. cbn [world_of app].
    rewrite (timeout_first (panel +. ".style.display") "block") by reflexivity.
    open_world w. subst tm. reflexivity. }
  assert (Hshown_display :
    is_text (doc shown !! (panel +. ".style.display")) "block" = true).
  { rewrite Hshown. cbn [doc with_doc]. now rewrite lookup_insert_eq. }
  assert (Hhidden : hidden
    = with_doc (<[panel +. ".style.display" := Text "none"]>
                  (<[panel +. ".className" := Text "fadeout"]> (doc shown))) shown).
  { unfold hidden. rewrite toggle_effect, Hshown_display.
    assert (Hts : timers shown = []) by (rewrite Hshown; exact Ht).
    rewrite Hts. cbn [world_of app].
    rewrite (timeout_first (panel +. ".style.display") "none") by reflexivity.
    destruct shown; cbn in Hts; subst; reflexivity. }
  assert (Hne' : panel +. ".style.display" <> panel +. ".className") by congruence.
  split; [rewrite Hshown; cbn [doc with_doc]; apply lookup_insert_eq|].
  split; [rewrite Hshown; cbn [doc with_doc];
          rewrite lookup_insert_ne by exact Hne'; apply lookup_insert_eq|].
  split; [rewrite Hhidden; cbn [doc with_doc]; apply lookup_insert_eq|].
  split; [rewrite Hhidden; cbn [doc with_doc];
          rewrite lookup_insert_ne by exact Hne'; apply lookup_insert_eq|].
  split; [rewrite Hhidden; cbn [timers with_doc]; rewrite Hshown; exact Ht|].
  rewrite Hhidden, Hshown. repeat split.
Qed.

(** X11: a panel is shown and hidden again by two presses of its button,
    when each press is followed by its timer: from a state where the
    panel is not shown and no timer is pending, the first press and timer
    leave it displayed with the class fadein, the second press and timer
    leave it not displayed with the class fadeout, no timer stays pending
    and the player is untouched.  This holds for the playlist panel and
    for the volume panel. *)
Theorem panels_toggle_there_and_back (w : World) :
  timers w = [] ->
  (is_text (doc w !! "playlist.style.display") "block" = false ->
   doc (run [ClickPlaylistBtn; Timeout 0] w) !! "playlist.style.display"
     = Some (Text "block")
   /\ doc (run [ClickPlaylistBtn; Timeout 0] w) !! "playlist.className"
     = Some (Text "fadein")
   /\ doc (run [ClickPlaylistBtn; Timeout 0; ClickPlaylist; Timeout 0] w)
        !! "playlist.style.display" = Some (Text "none")
   /\ doc (run [ClickPlaylistBtn; Timeout 0; ClickPlaylist; Timeout 0] w)
        !! "playlist.className" = Some (Text "fadeout")
   /\ timers (run [ClickPlaylistBtn; Timeout 0; ClickPlaylist; Timeout 0] w) = []
   /\ same_player w (run [ClickPlaylistBtn; Timeout 0; ClickPlaylist; Timeout 0] w))
  /\ (is_text (doc w !! "volume.style.display") "block" = false ->
      doc (run [ClickVolumeBtn; Timeout 0] w) !! "volume.style.display"
        = Some (Text "block")
      /\ doc (run [ClickVolumeBtn; Timeout 0] w) !! "volume.className"
        = Some (Text "fadein")
      /\ doc (run [ClickVolumeBtn; Timeout 0; ClickVolume; Timeout 0] w)
           !! "volume.style.display" = Some (Text "none")
      /\ doc (run [ClickVolumeBtn; Timeout 0; ClickVolume; Timeout 0] w)
           !! "volume.className" = Some (Text "fadeout")
      /\ timers (run [ClickVolumeBtn; Timeout 0; ClickVolume; Timeout 0] w) = []
      /\ same_player w (run [ClickVolumeBtn; Timeout 0; ClickVolume; Timeout 0] w)).
Proof.
  intros Ht. split; intros Hs.
  - apply (toggle_there_and_back "playlist" w Ht Hs). discriminate.
  - apply (toggle_there_and_back "volume" w Ht Hs). discriminate.
Qed.

Lemma panels_toggle_there_and_back_witness :
  timers fresh_world = []
  /\ doc (run [ClickPlaylistBtn; Timeout 0; ClickPlaylist; Timeout 0] fresh_world)
       !! "playlist.style.display" = Some (Text "none")
  /\ doc (run [ClickVolumeBtn; Timeout 0] fresh_world) !! "volume.style.display"
       = Some (Text "block").
Proof.
  assert (Ht : timers fresh_world = []) by reflexivity.
  destruct (panels_toggle_there_and_back fresh_world Ht) as [Hp Hv].
  split; [exact Ht|]. split.
  - exact (proj1 (proj2 (proj2 (Hp eq_refl)))).
  - exact (proj1 (Hv eq_refl)).
Defined.

(** X12: a press decides from the display that is applied, not from the
    timers that are pending: a second press of the playlist button before
    the timer of the first has fired does not undo it but asks for the
    same display and sets the same class again. *)
Theorem toggle_twice_repeats (w : World) :
  exists display class,
    timers (run [ClickPlaylistBtn] w)
      = timers w ++ [("playlist.style.display", display)]
    /\ timers (run [ClickPlaylistBtn; ClickPlaylistBtn] w)
      = timers w ++ [("playlist.style.display", display);
                     ("playlist.style.display", display)]
    /\ doc (run [ClickPlaylistBtn] w) !! "playlist.className" = Some (Text class)
    /\ doc (run [ClickPlaylistBtn; ClickPlaylistBtn] w) !! "playlist.className"
       = Some (Text class)
    /\ doc (run [ClickPlaylistBtn; ClickPlaylistBtn] w) !! "playlist.style.display"
       = doc w !! "playlist.style.display".
Proof.
  cbn [run]. unfold fire. cbn [handle]. unfold togglePlaylist.
  rewrite (toggle_effect "playlist" w). cbn [world_of].
  rewrite toggle_effect. cbn [world_of doc timers with_doc with_timers].
  change ("playlist" +. ".style.display") with "playlist.style.display".
  change ("playlist" +. ".className") with "playlist.className".
  rewrite lookup_insert_ne by discriminate.
  do 2 eexists. rewrite <- app_assoc. cbn [app].
  rewrite !lookup_insert_eq, !lookup_insert_ne by discriminate.
  repeat split.
Qed.

(** ** The volume slider *)

Lemma drag_level_range (x scrollWidth width : Q) :
  (0 <= drag_level x scrollWidth width <= 1)%Q.
Proof.
  unfold drag_level. split.
  - apply Q.min_glb; [discriminate|apply Q.le_max_l].
  - apply Q.le_min_l.
Qed.

(** The pointer [move] works with, for the three kinds of event. *)
Lemma pointer_of_mouse (x : Q) (w : World) :
  pointer_x (mouse_at x) w = if Qzero x then TypeError w else Returned x w.
Proof. unfold pointer_x, mouse_at. cbn [ev_clientX]. now destruct (Qzero x). Qed.

Lemma pointer_of_touch (x : Q) (w : World) : pointer_x (touch_at x) w = Returned x w.
Proof. reflexivity. Qed.

(** X13: while the slider button is not held, [move] does nothing.  While
    it is held, [move] needs the pointer: a mouse event with a [clientX]
    other than 0 gives it and so does a touch event, at 0 too, but on a
    mouse event at [clientX] 0 the script reads [event.touches[0]] of
    [undefined] and [move] throws with nothing written and no call of
    [volume].  With the pointer known, [move] calls [volume] with the
    pointer's offset along the bar over the bar's width, clamped to
    [0,1], so the global volume becomes that level: 0 at or left of the
    bar's start, 1 at or right of its end. *)
Theorem move_clamps_level (scrollWidth : Q) (w : World) :
  (0 < scrollWidth)%Q ->
  (sliderDown w = false -> forall event, move event scrollWidth w = Returned tt w)
  /\ (sliderDown w = true ->
      (forall x,
         Qzero x = false ->
         move (mouse_at x) scrollWidth w
         = volume (drag_level x scrollWidth (innerWidth w)) w)
      /\ (forall x,
            Qzero x = true ->
            move (mouse_at x) scrollWidth w = TypeError w
            /\ calls (world_of (move (mouse_at x) scrollWidth w)) = calls w
            /\ master (world_of (move (mouse_at x) scrollWidth w)) = master w)
      /\ (forall x,
            move (touch_at x) scrollWidth w
            = volume (drag_level x scrollWidth (innerWidth w)) w)
      /\ (forall x,
            (0 <= drag_level x scrollWidth (innerWidth w) <= 1)%Q
            /\ master (world_of (volume (drag_level x scrollWidth (innerWidth w)) w))
               = drag_level x scrollWidth (innerWidth w)
            /\ (x <= fmul (innerWidth w) (rnd 0.05) ->
                drag_level x scrollWidth (innerWidth w) == 0)%Q
            /\ (rnd scrollWidth = scrollWidth ->
                fmul (innerWidth w) (rnd 0.05) + scrollWidth <= x ->
                drag_level x scrollWidth (innerWidth w) == 1)%Q)).
Proof.
  intros Hsw. split.
  { intros Hd event. now rewrite move_effect, Hd. }
  intros Hd. split.
  { intros x Hx. now rewrite move_effect, Hd, pointer_of_mouse, Hx. }
  split.
  { intros x Hx. rewrite move_effect, Hd, pointer_of_mouse, Hx. repeat split. }
  split.
  { intros x. now rewrite move_effect, Hd, pointer_of_touch. }
  intros x. pose proof (drag_level_range x scrollWidth (innerWidth w)) as [H0 H1].
  split; [split; assumption|]. split.
  - rewrite volume_effect.
    assert (Hin : Qle_bool 0 (drag_level x scrollWidth (innerWidth w))
                  && Qle_bool (drag_level x scrollWidth (innerWidth w)) 1 = true)
      by (apply andb_true_intro; split; now apply Qle_bool_iff).
    rewrite Hin. reflexivity.
  - unfold drag_level, drag_offset, fdiv, fsub.
    set (start := fmul (innerWidth w) (rnd 0.05)). split.
    + intros Hx. pose proof (rnd_nonpos (x - start) ltac:(lra)) as Hl.
      assert (Hq : (rnd (x - start) / scrollWidth <= 0)%Q).
      { apply Qle_shift_div_r; [assumption|]. lra. }
      pose proof (rnd_nonpos _ Hq) as Hr.
      rewrite (Q.max_l 0) by assumption. now rewrite Q.min_r.
    + intros Hsd Hx.
      assert (Hl : (scrollWidth <= rnd (x - start))%Q).
      { rewrite <- Hsd at 1. apply rnd_monotone. lra. }
      assert (Hq : (1 <= rnd (x - start) / scrollWidth)%Q).
      { apply Qle_shift_div_l; [assumption|]. lra. }
      assert (Hr : (1 <= rnd (rnd (x - start) / scrollWidth))%Q).
      { assert (E : rnd 1 = 1%Q) by (vm_compute; reflexivity).
        rewrite <- E at 1. now apply rnd_monotone. }
      rewrite Q.max_r by lra. now rewrite Q.min_l.
Qed.

Lemma move_clamps_level_witness :
  (0 < 300)%Q /\ sliderDown dragging_world = true
  /\ move (mouse_at 5000) 300 dragging_world
     = volume (drag_level 5000 300 1280) dragging_world
  /\ (drag_level 5000 300 1280 == 1)%Q
  /\ move (mouse_at 0) 300 dragging_world = TypeError dragging_world
  /\ move (touch_at 0) 300 dragging_world
     = volume (drag_level 0 300 1280) dragging_world
  /\ (drag_level 0 300 1280 == 0)%Q
  /\ move (mouse_at 5000) 300 playing_world = Returned tt playing_world.
Proof.
  assert (Hs : (0 < 300)%Q) by reflexivity.
  destruct (move_clamps_level 300 dragging_world Hs) as [_ Hdown].
  destruct (move_clamps_level 300 playing_world Hs) as [Hup _].
  destruct (Hdown eq_refl) as (Hm & Hz & Ht & Hl).
  destruct (Hl 5000%Q) as (_ & _ & _ & H1). destruct (Hl 0%Q) as (_ & _ & H0 & _).
  destruct (Hz 0%Q eq_refl) as (Hthrow & _).
  split; [exact Hs|]. split; [reflexivity|]. split; [exact (Hm 5000%Q eq_refl)|].
  split; [apply H1; [vm_compute; reflexivity|apply Qle_bool_iff; vm_compute; reflexivity]|].
  split; [exact Hthrow|]. split; [exact (Ht 0%Q)|].
  split; [apply H0; apply Qle_bool_iff; vm_compute; reflexivity|].
  exact (Hup eq_refl (mouse_at 5000)).
Defined.

(** ** The slider after a resize *)

Lemma unit_volumes_put (p : list Track) (k : Z) (t : Track) (h' : Howl) :
  unit_volumes p -> at_index p k = Some t -> hw_volume h' = 1%Q ->
  unit_volumes (alter (with_howl (Some h')) (Z.to_nat k) p).
Proof.
  intros Hp Ht Hv j h Hj. destruct (Z.eq_dec k j) as [->|Hkj].
  - rewrite (howl_on_put _ _ _ _ Ht) in Hj. now injection Hj as <-.
  - rewrite (howl_on_put_ne _ _ _ _ _ Ht Hkj) in Hj. eauto.
Qed.

Lemma unit_volumes_update (p : list Track) (k : Z) (h : Howl) (f : Howl -> Howl) :
  unit_volumes p -> howl_on p k = Some h -> hw_volume (f h) = hw_volume h ->
  unit_volumes (alter (with_howl (Some (f h))) (Z.to_nat k) p).
Proof.
  intros Hp Hk Hf. destruct (howl_on_track _ _ _ Hk) as (t & Ht & _).
  apply (unit_volumes_put _ _ t); [assumption..|].
  rewrite Hf. eauto.
Qed.

Lemma unit_volumes_play (arg : option Z) (w : World) :
  valid_index w (target arg w) -> unit_volumes (playlist w) ->
  unit_volumes (playlist (world_of (play arg w))).
Proof.
  intros Hv Hp. destruct (valid_at_index _ _ Hv) as [data Hd].
  destruct (play_effect arg w data Hd) as (w' & -> & _ & Hpl & _).
  cbn [world_of]. rewrite Hpl. apply (unit_volumes_put _ _ data); [assumption..|].
  destruct (howl data) as [h|] eqn:Hh; [|reflexivity].
  change (hw_volume h = 1%Q). apply (Hp (target arg w) h).
  unfold howl_on. now rewrite Hd.
Qed.

Lemma unit_volumes_skipTo (i : Z) (w : World) :
  valid_index w (index w) -> valid_index w i -> unit_volumes (playlist w) ->
  unit_volumes (playlist (world_of (skipTo i w))).
Proof.
  intros Hc Hi Hp. destruct (valid_at_index _ _ Hc) as [t Ht].
  rewrite (skipTo_run i w t Ht).
  assert (Hb : unit_volumes (playlist (before_play w))
               /\ length (playlist (before_play w)) = length (playlist w)).
  { unfold before_play, current_howl.
    destruct (howl_on (playlist w) (index w)) as [h|] eqn:Hh;
      cbn [playlist with_doc with_playlist with_calls]; [|now split].
    split; [|apply length_alter]. now apply unit_volumes_update. }
  destruct Hb as [Hb Hlen]. apply unit_volumes_play; [|exact Hb].
  unfold valid_index in *. cbn [target]. now rewrite Hlen.
Qed.

Lemma unit_volumes_same (w w' : World) :
  same_player w w' -> unit_volumes (playlist w) -> unit_volumes (playlist w').
Proof. intros (-> & _). trivial. Qed.

Lemma unit_volumes_library (n : nat) (f : Howl -> Howl) (w : World) :
  (forall h, hw_volume (f h) = hw_volume h) ->
  unit_volumes (playlist w) -> unit_volumes (playlist (world_of (library n f w))).
Proof.
  intros Hf Hp. pose proof (library_effect n f w) as H.
  destruct (howl_at w n) as [h|] eqn:Hn; rewrite H; [|exact Hp].
  cbn [world_of playlist with_playlist]. rewrite howl_at_on in Hn.
  now apply unit_volumes_update.
Qed.

Lemma unit_volumes_fire (e : Event) (w : World) :
  invariant w -> enabled e w = true ->
  unit_volumes (playlist w) -> unit_volumes (playlist (fire e w)).
Proof.
  intros Hinv He Hp. pose proof (inv_index _ _ _ Hinv) as Hidx. unfold fire.
  destruct e; cbn [handle]; cbn [enabled] in He.
  - now apply unit_volumes_play.
  - pose proof (pause_effect w) as H. unfold current_howl in H.
    destruct (howl_on (playlist w) (index w)) as [h|] eqn:Hh.
    + destruct H as (w' & -> & _ & Hpl & _). cbn [world_of]. rewrite Hpl.
      apply unit_volumes_update; [assumption..|].
      unfold Howl_pause. now destruct (is_active h).
    + now rewrite H.
  - rewrite skip_run. apply unit_volumes_skipTo; [assumption| |assumption].
    now apply skip_index_valid.
  - rewrite skip_run. apply unit_volumes_skipTo; [assumption| |assumption].
    now apply skip_index_valid.
  - apply unit_volumes_skipTo; [assumption| |assumption].
    apply Nat.ltb_lt in He. unfold valid_index, indexOf. lia.
  - exec. pose proof (seek_effect (fdiv clientX (innerWidth w)) w) as H.
    unfold current_howl in H.
    destruct (howl_on (playlist w) (index w)) as [h|] eqn:Hh; [|now rewrite H].
    destruct (Howl_playing h); rewrite H; [|exact Hp].
    cbn [world_of playlist with_playlist with_calls].
    apply (unit_volumes_update _ _ h (Howl_seek_to _)); [assumption..|].
    unfold Howl_seek_to. now destruct (is_loaded h && _).
  - apply (unit_volumes_same w); [apply toggle_same|assumption].
  - apply (unit_volumes_same w); [apply toggle_same|assumption].
  - apply (unit_volumes_same w); [apply toggle_same|assumption].
  - apply (unit_volumes_same w); [apply toggle_same|assumption].
  - apply (unit_volumes_same w); [apply volume_same|assumption].
  - exact Hp.
  - exact Hp.
  - apply (unit_volumes_same w); [apply move_same|assumption].
  - exec. apply (unit_volumes_same (with_viewport width height w));
      [apply resize_same|exact Hp].
  - exec. apply (unit_volumes_same (with_frames (Nat.pred (frames w)) w));
      [apply step_same|exact Hp].
  - apply (unit_volumes_same w); [apply timeout_same|assumption].
  - now apply unit_volumes_library.
  - now apply unit_volumes_library.
  - now apply unit_volumes_library.
  - destruct cb;
      try (apply (unit_volumes_same w); [now apply callback_same|assumption]).
    rewrite onend_run, skip_run.
    apply unit_volumes_skipTo; [exact Hidx| |exact Hp].
    apply (skip_index_valid "next"
             (with_doc (<["bar.style.display":=Text "block"]>
                (<["wave.container.style.display":=Text "none"]> (doc w))) w)).
    exact Hidx.
Qed.

Lemma reachable_unit_volumes (w : World) :
  reachable w -> unit_volumes (playlist w).
Proof.
  induction 1 as [width height _ _ | e w Hw IH He].
  - assert (Hsame : same_player
              (world_of (Player_new tracks (blank width height)))
              (startup width height)) by apply resize_same.
    apply (unit_volumes_same _ _ Hsame). intros i h Hi.
    change (howl_on tracks i = Some h) in Hi.
    now rewrite tracks_without_handles in Hi.
  - apply unit_volumes_fire; [now apply reachable_invariant|assumption..].
Qed.

(** What [resize] writes to the slider button. *)
Lemma resize_slider (w : World) :
  doc (world_of (resize w)) !! "sliderBtn.style.left"
  = match current_howl w with
    | Some sound =>
        Some (Pixels (fsub (fadd (fmul (innerWidth w) (fmul (hw_volume sound) (rnd 0.9)))
                                 (fmul (innerWidth w) (rnd 0.05))) 25))
    | None => doc w !! "sliderBtn.style.left"
    end.
Proof.
  unfold current_howl, howl_on. open_world w. unfold resize, track_of. exec.
  destruct (at_index p ix) as [t|]; exec; [|now doc_lookup].
  destruct (howl t) as [h|]; exec; now doc_lookup.
Qed.

(** X14: [resize] places the slider button from the volume of the
    current track's own handle, which nothing in the player changes, and
    not from the level given to [volume]: once the current track has a
    handle, a resize after [volume(level)] puts the button where
    [volume(1)] would for the new width, whatever the level was; with no
    handle yet, the resize leaves the button where [volume] put it. *)
Theorem resize_forgets_level (level width height : Q) (w : World) :
  reachable w ->
  match current_howl w with
  | Some _ =>
      exists left,
        doc (fire (WindowResize width height) (world_of (volume level w)))
          !! "sliderBtn.style.left" = Some (Pixels left)
        /\ (left == slider_left width 1)%Q
  | None =>
      doc (fire (WindowResize width height) (world_of (volume level w)))
        !! "sliderBtn.style.left"
      = Some (Pixels (slider_left (innerWidth w) level))
  end.
Proof.
  intros Hw. pose proof (reachable_unit_volumes w Hw) as Hp.
  unfold fire. cbn [handle]. rewrite bind_run. cbn [modify].
  rewrite resize_slider, volume_effect.
  assert (Hcur : forall v,
    current_howl (with_viewport width height (world_of (Returned tt v)))
    = current_howl v) by reflexivity.
  assert (Hsame : forall d f, current_howl (with_doc d (f (with_calls (calls w ++ [Volume level]) w)))
                              = current_howl (f (with_calls (calls w ++ [Volume level]) w)))
    by reflexivity.
  rewrite Hcur, Hsame.
  assert (Hcw : current_howl
            ((if Qle_bool 0 level && Qle_bool level 1 then with_master level else id)
               (with_calls (calls w ++ [Volume level]) w)) = current_howl w)
    by (destruct (Qle_bool 0 level && Qle_bool level 1); reflexivity).
  rewrite Hcw. destruct (current_howl w) as [h|] eqn:Hh.
  - eexists. split; [reflexivity|].
    cbn [world_of innerWidth with_viewport]. rewrite (Hp _ _ Hh).
    unfold slider_left.
    assert (E : fmul 1 (rnd 0.9) = fdiv (fmul 1 90) 100) by (vm_compute; reflexivity).
    rewrite E. reflexivity.
  - cbn [world_of doc with_viewport with_doc]. now rewrite lookup_insert_eq.
Qed.

Lemma resize_forgets_level_witness :
  reachable playing_world
  /\ exists left,
       doc (fire (WindowResize 1000 700) (world_of (volume (1 # 4) playing_world)))
         !! "sliderBtn.style.left" = Some (Pixels left)
       /\ (left == slider_left 1000 1)%Q.
Proof.
  exact (conj reachable_playing
           (resize_forgets_level (1 # 4) 1000 700 playing_world reachable_playing)).
Defined.

(** ** The progress loop *)

(** X15: an animation frame runs one pending [step], and that [step]
    asks for another frame only while the current sound reports playing:
    the number of pending steps is unchanged by a frame while the sound
    plays and drops by one otherwise, also when the step throws for want
    of a handle, so the loop ends by itself.  Every seek event and every
    play event adds one pending step. *)
Theorem step_loop_count (w : World) :
  (0 < frames w)%nat ->
  frames (fire AnimationFrame w)
    = (if current_playing w then frames w else Nat.pred (frames w))
  /\ (forall n, frames (fire (HowlEmit n onseek) w) = S (frames w))
  /\ (forall n, enabled (HowlEmit n onplay) w = true ->
                frames (fire (HowlEmit n onplay) w) = S (frames w)).
Proof.
  intros Hf. split; [|split].
  - unfold fire. cbn [handle]. rewrite bind_run. cbn [modify].
    pose proof (step_effect (with_frames (Nat.pred (frames w)) w)) as H.
    unfold current_playing.
    change (current_howl (with_frames (Nat.pred (frames w)) w))
      with (current_howl w) in H.
    destruct (current_howl w) as [h|]; rewrite H; cbn [world_of frames with_frames with_doc];
      [|reflexivity].
    destruct (Howl_playing h); [lia|reflexivity].
  - intros n. reflexivity.
  - intros n He. cbn [enabled] in He. rewrite howl_at_on in He.
    unfold fire. cbn [handle]. open_world w. unfold howl_on in He.
    unfold callback, howl_of, track_of. exec.
    destruct (at_index p (Z.of_nat n)) as [t|]; [|discriminate]. exec.
    destruct (howl t); [|discriminate]. exec. reflexivity.
Qed.

Lemma step_loop_count_witness :
  (0 < frames playing_world)%nat
  /\ frames (fire AnimationFrame playing_world) = 1%nat
  /\ frames (fire AnimationFrame paused_world) = 0%nat.
Proof.
  assert (H1 : (0 < frames playing_world)%nat) by (vm_compute; lia).
  assert (H2 : (0 < frames paused_world)%nat) by (vm_compute; lia).
  destruct (step_loop_count playing_world H1) as [E1 _].
  destruct (step_loop_count paused_world H2) as [E2 _].
  split; [exact H1|]. split.
  - rewrite E1. vm_compute. reflexivity.
  - rewrite E2. vm_compute. reflexivity.
Defined.

(** ** Times that are not durations *)

(** X16: [formatTime] outside the non-negative numbers.  NaN is shown as
    0:00 and an infinite number with 00 for the seconds, by the two
    [|| 0] fallbacks.  A negative whole number of seconds, down to
    -(2^53 - 1), is not shown as minus its magnitude: the minutes are the
    floor of secs/60, hence negative, and the seconds count up from that
    minute within 0..59, so [formatTime(-1)] is -1:59. *)
Theorem formatTime_edges :
  as_string (formatTime NaN) = Some "0:00"
  /\ as_string (formatTime PInf) = Some "Infinity:00"
  /\ as_string (formatTime NInf) = Some "-Infinity:00"
  /\ (forall secs, - safe_seconds <= secs < 0 ->
        as_string (formatTime (Fin (inject_Z secs)))
        = Some (decimal (secs / 60) +. ":" +. two_digits (secs mod 60))
        /\ secs / 60 < 0 /\ 0 <= secs mod 60 < 60
        /\ String.length (two_digits (secs mod 60)) = 2%nat)
  /\ as_string (formatTime (Fin (-1))) = Some "-1:59".
Proof.
  split; [reflexivity|]. split; [reflexivity|]. split; [reflexivity|].
  split; [|apply (formatTime_text (-1)); lia].
  unfold safe_seconds. intros secs Hs. split; [apply formatTime_text; lia|].
  pose proof (Z.mod_pos_bound secs 60 ltac:(lia)) as Hm.
  split; [apply Z.div_lt_upper_bound; lia|]. split; [exact Hm|].
  now apply two_digits_length.
Qed.

(** ** Loading the page *)

